(** * Lebwohl-Lasher lattice model: the Cython kernel and its specification

    A shallow embedding of [cython_LebwohlLasher.pyx]: the lattice
    initialisation [initdat], the cell and lattice energies [one_energy]
    and [all_energy], the order-parameter estimator [get_order] and the
    Metropolis sweep [MC_step].

    Modelling conventions.
    - A C [double] (and the C [float] locals of [MC_step]) is a real number:
      rounding is not modelled, [cos], [sin] and [exp] are the functions of
      the Reals library.
    - A C [int] is a [Z] kept in the 32-bit two's complement range by
      [wrap_int].
    - A numpy array or typed memoryview is a list (of lists); indexing
      follows Cython's defaults ([boundscheck=True], [wraparound=True]):
      a negative index counts from the end, an index out of range raises.
    - A raised Python exception is [None] in the error monad [option]. A
      double that is not finite (the result of [Qab[a, b] /= 0]) is outside
      the model: no property is stated where one arises.
    - The random source ([np.random]) is a record of oracles, one per kind
      of draw, and a count of the calls made so far to each. *)

From Stdlib Require Import Reals ZArith List Lia Lra Bool.
Import ListNotations.

Local Open Scope Z_scope.
Local Open Scope R_scope.

(** ** The error monad *)

Definition bind {A B : Type} (m : option A) (f : A -> option B) : option B :=
  match m with
  | Some a => f a
  | None => None
  end.

Notation "x <- m ;; k" := (bind m (fun x => k))
  (at level 61, m at next level, right associativity).

(** ** C integers *)

(** Reduction of an integer to the range of a 32-bit C [int]. *)
Definition wrap_int (z : Z) : Z := ((z + 2 ^ 31) mod 2 ^ 32 - 2 ^ 31)%Z.

Definition int_add (a b : Z) : Z := wrap_int (a + b).
Definition int_sub (a b : Z) : Z := wrap_int (a - b).
Definition int_mul (a b : Z) : Z := wrap_int (a * b).

(** The [%] operator of Cython on two C ints with [cdivision] off (the
    default): a zero divisor raises [ZeroDivisionError]; otherwise the C
    remainder [r] is taken and corrected by
    [r += ((r != 0) & ((r ^ b) < 0)) * b]. *)
Definition mod_int (a b : Z) : option Z :=
  if (b =? 0)%Z then None
  else
    let r := Z.rem a b in
    Some (if negb (r =? 0)%Z && (Z.lxor r b <? 0)%Z then (r + b)%Z else r).

(** ** Arrays *)

(** [l[i]] with wrap-around of a negative index and a bounds check. *)
Definition index {A : Type} (l : list A) (i : Z) : option A :=
  let n := Z.of_nat (length l) in
  let i' := if (i <? 0)%Z then (i + n)%Z else i in
  if (0 <=? i')%Z && (i' <? n)%Z then nth_error l (Z.to_nat i') else None.

Fixpoint upd {A : Type} (l : list A) (n : nat) (x : A) : list A :=
  match l, n with
  | [], _ => []
  | _ :: t, O => x :: t
  | h :: t, S n' => h :: upd t n' x
  end.

(** [l[i] = x], same index rules. *)
Definition set_index {A : Type} (l : list A) (i : Z) (x : A) : option (list A) :=
  let n := Z.of_nat (length l) in
  let i' := if (i <? 0)%Z then (i + n)%Z else i in
  if (0 <=? i')%Z && (i' <? n)%Z then Some (upd l (Z.to_nat i') x) else None.

Definition get2 {A : Type} (arr : list (list A)) (i j : Z) : option A :=
  row <- index arr i ;; index row j.

Definition set2 {A : Type} (arr : list (list A)) (i j : Z) (x : A)
  : option (list (list A)) :=
  row <- index arr i ;;
  row' <- set_index row j x ;;
  set_index arr i row'.

Definition get3 {A : Type} (arr : list (list (list A))) (a i j : Z) : option A :=
  plane <- index arr a ;; get2 plane i j.

Definition set3 {A : Type} (arr : list (list (list A))) (a i j : Z) (x : A)
  : option (list (list (list A))) :=
  plane <- index arr a ;;
  plane' <- set2 plane i j x ;;
  set_index arr a plane'.

(** [np.zeros((n, m))]; a negative dimension raises [ValueError]. *)
Definition zeros2 (n m : Z) : option (list (list R)) :=
  if (n <? 0)%Z || (m <? 0)%Z then None
  else Some (repeat (repeat 0 (Z.to_nat m)) (Z.to_nat n)).

Definition zeros3 (k n m : Z) : option (list (list (list R))) :=
  if (k <? 0)%Z || (n <? 0)%Z || (m <? 0)%Z then None
  else Some (repeat (repeat (repeat 0 (Z.to_nat m)) (Z.to_nat n)) (Z.to_nat k)).

(** [np.eye(3)]. *)
Definition eye3 : list (list R) := [[1; 0; 0]; [0; 1; 0]; [0; 0; 1]].

(** The lattice: a square array of angles. *)
Abbreviation lattice := (list (list R)).

(** [arr] has [n] rows of [m] entries each. *)
Definition shape2 {A : Type} (arr : list (list A)) (n m : nat) : Prop :=
  length arr = n /\ Forall (fun row => length row = m) arr.

(** Total read of a cell, for statements about a well-shaped lattice. *)
Definition theta (arr : lattice) (i j : Z) : R :=
  nth (Z.to_nat j) (nth (Z.to_nat i) arr []) 0.

(** ** Loops *)

(** [k] iterations of [body], the loop variable starting at [i]. *)
Fixpoint for_loop {St : Type} (k : nat) (i : Z) (body : Z -> St -> option St)
  (s : St) : option St :=
  match k with
  | O => Some s
  | S k' => s' <- body i s ;; for_loop k' (i + 1)%Z body s'
  end.

(** [for i in range(n): body]. *)
Definition for_range {St : Type} (n : Z) (body : Z -> St -> option St) (s : St)
  : option St :=
  for_loop (Z.to_nat n) 0%Z body s.

(** ** initdat *)

(** [np.random.random_sample((n, m))]: the array is filled in row-major
    order from the stream [u] of uniform draws in [0,1). *)
Definition random_sample (u : nat -> R) (n m : Z) : option (list (list R)) :=
  if (n <? 0)%Z || (m <? 0)%Z then None
  else
    Some (map (fun i => map (fun j => u (i * Z.to_nat m + j)%nat)
                            (seq 0 (Z.to_nat m)))
              (seq 0 (Z.to_nat n))).

Definition initdat (nmax : Z) (Ts : R) (u : nat -> R) : option lattice :=
  sample <- random_sample u nmax nmax ;;
  let arr := map (map (fun x => x * 2.0 * PI)) sample in
  Some arr.

(** ** one_energy and all_energy *)

Definition one_energy (arr : lattice) (ix iy nmax : Z) : option R :=
  let en := 0.0 in
  ixp <- mod_int (int_add ix 1) nmax ;;
  ixm <- mod_int (int_sub ix 1) nmax ;;
  iyp <- mod_int (int_add iy 1) nmax ;;
  iym <- mod_int (int_sub iy 1) nmax ;;
  c <- get2 arr ix iy ;;
  n <- get2 arr ixp iy ;;
  let ang := c - n in
  let en := en + 0.5 * (1.0 - 3.0 * cos ang ^ 2) in
  c <- get2 arr ix iy ;;
  n <- get2 arr ixm iy ;;
  let ang := c - n in
  let en := en + 0.5 * (1.0 - 3.0 * cos ang ^ 2) in
  c <- get2 arr ix iy ;;
  n <- get2 arr ix iyp ;;
  let ang := c - n in
  let en := en + 0.5 * (1.0 - 3.0 * cos ang ^ 2) in
  c <- get2 arr ix iy ;;
  n <- get2 arr ix iym ;;
  let ang := c - n in
  let en := en + 0.5 * (1.0 - 3.0 * cos ang ^ 2) in
  Some en.

Definition all_energy (arr : lattice) (nmax : Z) : option R :=
  let enall := 0.0 in
  for_range nmax (fun i enall =>
    for_range nmax (fun j enall =>
      e <- one_energy arr i j nmax ;;
      Some (enall + e)) enall) enall.

(** ** get_order *)

(** Lines 212-215: the director components of every cell are copied into
    the planes 0 and 1 of [lab]; plane 2 keeps its zeros. *)
Definition fill_lab (cos_arr sin_arr : lattice) (nmax_c : Z)
  (lab : list (list (list R))) : option (list (list (list R))) :=
  for_range nmax_c (fun i lab =>
    for_range nmax_c (fun j lab =>
      c <- get2 cos_arr i j ;;
      lab <- set3 lab 0 i j c ;;
      s <- get2 sin_arr i j ;;
      set3 lab 1 i j s) lab) lab.

(** Lines 217-221: [Qab[a, b] += 3 * lab[a, i, j] * lab[b, i, j] - delta[a, b]]. *)
Definition accumulate_Qab (lab : list (list (list R))) (delta : list (list R))
  (nmax_c : Z) (Qab : list (list R)) : option (list (list R)) :=
  for_range 3 (fun a Qab =>
    for_range 3 (fun b Qab =>
      for_range nmax_c (fun i Qab =>
        for_range nmax_c (fun j Qab =>
          q <- get2 Qab a b ;;
          la <- get3 lab a i j ;;
          lb <- get3 lab b i j ;;
          d <- get2 delta a b ;;
          set2 Qab a b (q + (3 * la * lb - d))) Qab) Qab) Qab) Qab.

(** Lines 224-226: [Qab[a, b] /= tmp]. The in-place division of an element
    of a memoryview is a plain C division: a zero [tmp] raises nothing and
    leaves nan or inf in [Qab], which are not real numbers. The properties
    below are stated for a non-zero [tmp] only. *)
Definition normalise_Qab (tmp : R) (Qab : list (list R)) : option (list (list R)) :=
  for_range 3 (fun a Qab =>
    for_range 3 (fun b Qab =>
      q <- get2 Qab a b ;;
      set2 Qab a b (q / tmp)) Qab) Qab.

(** The tensor [Qab] as it stands when the eigenvalue solver is called. *)
Definition order_tensor (arr : lattice) (nmax : Z) : option (list (list R)) :=
  let nmax_c := nmax in
  Qab <- zeros2 3 3 ;;
  let delta := eye3 in
  lab <- zeros3 3 nmax_c nmax_c ;;
  let cos_arr := map (map cos) arr in
  let sin_arr := map (map sin) arr in
  lab <- fill_lab cos_arr sin_arr nmax_c lab ;;
  Qab <- accumulate_Qab lab delta nmax_c Qab ;;
  let tmp := IZR (int_mul (int_mul 2 nmax) nmax) in
  normalise_Qab tmp Qab.

(** [np.linalg.eigvalsh] belongs to numpy, not to this program: it is a
    parameter of [get_order]. It may raise ([LinAlgError]). *)
Definition get_order (eigvalsh : list (list R) -> option (list R))
  (arr : lattice) (nmax : Z) : option R :=
  Qab <- order_tensor arr nmax ;;
  eigenvalues <- eigvalsh Qab ;;
  index eigenvalues 2.

(** ** MC_step *)

(** The random source: what the [k]-th call to [np.random.randint], to
    [np.random.normal] (before scaling) and to [np.random.uniform] draws. *)
Record rng : Type := {
  randint_draws : nat -> list (list Z);
  normal_draws : nat -> list (list R);
  uniform_draws : nat -> R
}.

(** [np.random.randint(low, high=high, size=...)], call number [k]. *)
Definition randint (g : rng) (k : nat) (low high : Z) : option (list (list Z)) :=
  if (high <=? low)%Z then None else Some (randint_draws g k).

(** [np.random.normal(scale=scale, size=...)], call number [k]. *)
Definition normal (g : rng) (k : nat) (scale : R) : option (list (list R)) :=
  if Rlt_dec scale 0 then None
  else Some (map (map (fun z => scale * z)) (normal_draws g k)).

(** The lattice, the C locals of [MC_step] that outlive an iteration, and
    the number of calls made to each generator. The locals are not
    initialised by the code; every read of them follows a write. *)
Record mc_state : Type := {
  st_arr : lattice;
  st_accept : Z;
  st_ix : Z;
  st_iy : Z;
  st_ang : R;
  st_en0 : R;
  st_en1 : R;
  st_nint : nat;
  st_nnorm : nat;
  st_nunif : nat
}.

Definition mc_init (arr : lattice) : mc_state :=
  {| st_arr := arr; st_accept := 0; st_ix := 0; st_iy := 0; st_ang := 0;
     st_en0 := 0; st_en1 := 0; st_nint := 0; st_nnorm := 0; st_nunif := 0 |}.

(** Lines 265-276: the body of the inner loop. *)
Definition attempt (g : rng) (scale : R) (nmax i j : Z) (s : mc_state)
  : option mc_state :=
  xran <- randint g (st_nint s) 0 nmax ;;
  yran <- randint g (S (st_nint s)) 0 nmax ;;
  aran <- normal g (st_nnorm s) scale ;;
  x <- get2 xran i j ;;
  let ix := wrap_int x in
  y <- get2 yran i j ;;
  let iy := wrap_int y in
  ang <- get2 aran i j ;;
  en0 <- one_energy (st_arr s) ix iy nmax ;;
  v <- get2 (st_arr s) ix iy ;;
  arr <- set2 (st_arr s) ix iy (v + ang) ;;
  en1 <- one_energy arr ix iy nmax ;;
  let accept :=
    if Rle_dec en1 en0 then int_add (st_accept s) 1 else st_accept s in
  Some {| st_arr := arr; st_accept := accept; st_ix := ix; st_iy := iy;
          st_ang := ang; st_en0 := en0; st_en1 := en1;
          st_nint := S (S (st_nint s)); st_nnorm := S (st_nnorm s);
          st_nunif := st_nunif s |}.

(** Lines 277-285: the [else] is indented under [for j], so it is the
    [else] clause of that loop: it runs once the inner loop is exhausted
    (there is no [break]), on the locals left by its last iteration. *)
Definition row_else (g : rng) (Ts : R) (s : mc_state) : option mc_state :=
  if Req_dec_T Ts 0 then None
  else
    let boltz := exp (- (st_en1 s - st_en0 s) / Ts) in
    let u := uniform_draws g (st_nunif s) in
    if Rge_dec boltz u then
      Some {| st_arr := st_arr s; st_accept := int_add (st_accept s) 1;
              st_ix := st_ix s; st_iy := st_iy s; st_ang := st_ang s;
              st_en0 := st_en0 s; st_en1 := st_en1 s;
              st_nint := st_nint s; st_nnorm := st_nnorm s;
              st_nunif := S (st_nunif s) |}
    else
      v <- get2 (st_arr s) (st_ix s) (st_iy s) ;;
      arr <- set2 (st_arr s) (st_ix s) (st_iy s) (v - st_ang s) ;;
      Some {| st_arr := arr; st_accept := st_accept s;
              st_ix := st_ix s; st_iy := st_iy s; st_ang := st_ang s;
              st_en0 := st_en0 s; st_en1 := st_en1 s;
              st_nint := st_nint s; st_nnorm := st_nnorm s;
              st_nunif := S (st_nunif s) |}.

(** The sweep up to the [return]: the final state of the two loops. *)
Definition MC_sweep (g : rng) (arr : lattice) (Ts : R) (nmax : Z)
  : option mc_state :=
  let scale := 0.1 + Ts in
  for_range nmax (fun i s =>
    s <- for_range nmax (fun j s => attempt g scale nmax i j s) s ;;
    row_else g Ts s) (mc_init arr).

(** [MC_step]: the lattice as the sweep leaves it and the returned ratio
    [accept/(nmax*nmax)], a true division that raises on zero. The [return]
    of line 286 is read as the last statement of the function. *)
Definition MC_step (g : rng) (arr : lattice) (Ts : R) (nmax : Z)
  : option (lattice * R) :=
  s <- MC_sweep g arr Ts nmax ;;
  let d := int_mul nmax nmax in
  if (d =? 0)%Z then None
  else Some (st_arr s, IZR (st_accept s) / IZR d).

(** ** The specification's own words, for comparison with the code *)

(** One bond term of the reduced Lebwohl-Lasher potential. *)
Definition pair_term (d : R) : R := 0.5 * (1 - 3 * cos d ^ 2).

(** The four periodic neighbours of the cell [(i, j)], by the
    mathematical modulo. *)
Definition neighbors (N i j : Z) : list (Z * Z) :=
  [ ((i + 1) mod N, j); ((i - 1) mod N, j);
    (i, (j + 1) mod N); (i, (j - 1) mod N) ]%Z.

Definition sum_list (l : list R) : R := fold_right Rplus 0 l.

Definition cellEnergy (arr : lattice) (N i j : Z) : R :=
  sum_list (map (fun p => pair_term (theta arr i j - theta arr (fst p) (snd p)))
                (neighbors N i j)).

(** The sum of [f 0], ..., [f (n - 1)]. *)
Fixpoint big_sum (n : nat) (f : Z -> R) : R :=
  match n with
  | O => 0
  | S k => big_sum k f + f (Z.of_nat k)
  end.

Definition latticeEnergy (arr : lattice) (N : Z) : R :=
  big_sum (Z.to_nat N) (fun i =>
    big_sum (Z.to_nat N) (fun j => cellEnergy arr N i j)).

(** A perfectly aligned lattice: every cell holds the angle [t]. *)
Definition aligned (arr : lattice) (N : Z) (t : R) : Prop :=
  forall i j, (0 <= i < N)%Z -> (0 <= j < N)%Z -> theta arr i j = t.

(** The lattice [arr] with the angle of the cell [(p, q)] replaced. *)
Definition with_angle (arr : lattice) (p q : Z) (v : R) : lattice :=
  upd arr (Z.to_nat p) (upd (nth (Z.to_nat p) arr []) (Z.to_nat q) v).

(** Every angle of the lattice negated. *)
Definition negate_all (arr : lattice) : lattice := map (map Ropp) arr.

(** The largest value of the 32-bit C [int]. *)
Definition INT_MAX : Z := (2 ^ 31 - 1)%Z.

(** ** The order tensor in the specification's words *)

Definition shape3 {A : Type} (lab : list (list (list A))) (k n m : nat) : Prop :=
  length lab = k /\ Forall (fun plane => shape2 plane n m) lab.

(** Total read of [lab[a, i, j]]. *)
Definition theta3 (lab : list lattice) (a i j : Z) : R :=
  theta (nth (Z.to_nat a) lab []) i j.

(** The component [a] of the planar director of angle [t]:
    (cos t, sin t, 0). *)
Definition director (a : Z) (t : R) : R :=
  if (a =? 0)%Z then cos t else if (a =? 1)%Z then sin t else 0.

(** The Kronecker delta. *)
Definition kronecker (a b : Z) : R := if (a =? b)%Z then 1 else 0.

(** The contribution of one cell to [Qab[a, b]]. *)
Definition Q_term (arr : lattice) (a b i j : Z) : R :=
  3 * director a (theta arr i j) * director b (theta arr i j) - kronecker a b.

(** The sum of [F i j] over the cells [(i, j)] of an n x n grid. *)
Definition sum2 (n : nat) (F : Z -> Z -> R) : R :=
  big_sum n (fun i => big_sum n (fun j => F i j)).

(** The sum over all N^2 cells, and the entry once divided by 2 N^2. *)
Definition Q_sum (arr : lattice) (N a b : Z) : R :=
  sum2 (Z.to_nat N) (Q_term arr a b).

Definition Q_entry (arr : lattice) (N a b : Z) : R :=
  Q_sum arr N a b / (2 * IZR N * IZR N).

(** The lexicographic order of loop positions: [(i', j')] is visited
    before [(i, j)]. *)
Definition before (i j i' j' : Z) : Prop :=
  (i' < i)%Z \/ (i' = i /\ j' < j)%Z.

(** [Q'] is [Q] with [x] added to its entry [(a, b)]. *)
Definition cell_added (Q Q' : lattice) (r c : nat) (a b : Z) (x : R) : Prop :=
  shape2 Q' r c /\
  theta Q' a b = theta Q a b + x /\
  (forall a' b', (0 <= a')%Z -> (0 <= b')%Z -> (a', b') <> (a, b) ->
     theta Q' a' b' = theta Q a' b').

(** The characteristic polynomial det (M - x I) of a 3 x 3 matrix. *)
Definition det3 (M : list (list R)) (x : R) : R :=
  (theta M 0 0 - x)
    * ((theta M 1 1 - x) * (theta M 2 2 - x) - theta M 1 2 * theta M 2 1)
  - theta M 0 1 * (theta M 1 0 * (theta M 2 2 - x) - theta M 1 2 * theta M 2 0)
  + theta M 0 2 * (theta M 1 0 * theta M 2 1 - (theta M 1 1 - x) * theta M 2 0).

(** [l0], [l1], [l2] are the eigenvalues of [M], with their multiplicity. *)
Definition eigen_triple (M : list (list R)) (l0 l1 l2 : R) : Prop :=
  forall x, det3 M x = (l0 - x) * (l1 - x) * (l2 - x).

(** ** Inputs for the estimator *)

(** The 1 x 1 lattice whose only angle is 0. *)
Definition lattice1 : lattice := [[0]].

(** Two eigenvalue routines that are exact on diagonal matrices: one lists
    the diagonal from the top left, the other from the bottom right. *)
Definition diag_solver (M : list (list R)) : option (list R) :=
  Some [theta M 0 0; theta M 1 1; theta M 2 2].

Definition diag_solver_rev (M : list (list R)) : option (list R) :=
  Some [theta M 2 2; theta M 1 1; theta M 0 0].

(** The aligned 4 x 4 lattice with every angle 0. *)
Definition lattice4 : lattice := repeat (repeat 0 4) 4.

(** Draws for one sweep of a 1 x 1 lattice: the only cell, the deviate 1,
    the uniform draw 1/2. *)
Definition draws_1x1 : rng :=
  {| randint_draws := fun _ => [[0%Z]];
     normal_draws := fun _ => [[1]];
     uniform_draws := fun _ => 1 / 2 |}.

(** A stream of uniform draws, all equal to 1/2. *)
Definition half_stream : nat -> R := fun _ => 1 / 2.

(** The aligned 32768 x 32768 lattice with every angle 0: 32768 is the
    least size for which 2 * nmax * nmax does not fit a C [int]. *)
Definition lattice_32768 : lattice :=
  repeat (repeat 0 (Z.to_nat 32768)) (Z.to_nat 32768).

(** A 2 x 2 lattice whose directors alternate between the two axes. *)
Definition checker : lattice := [[0; PI / 2]; [PI / 2; 0]].

(** ** A sweep on a 2 x 2 lattice *)

(** The aligned 2 x 2 lattice with every angle 0. *)
Definition lattice0 : lattice := [[0; 0]; [0; 0]].

(** Draws for one sweep of a 2 x 2 lattice: the first attempt picks the
    cell (0,0) and the deviate 1, the three others pick the cell (1,1) and
    the deviate 0; the uniform draws are the stream [u]. *)
Definition sweep_draws (u : nat -> R) : rng :=
  {| randint_draws := fun k =>
       if (k <? 2)%nat then [[0; 0]; [0; 0]]%Z else [[1; 1]; [1; 1]]%Z;
     normal_draws := fun k =>
       if (k =? 0)%nat then [[1; 1]; [1; 1]] else [[0; 0]; [0; 0]];
     uniform_draws := u |}.

(** What holds of the state of that sweep once its first attempt is made:
    the draws to come pick the cell (1,1), and the cell (0,0) holds [v]. *)
Definition after_first (v : R) (s : mc_state) : Prop :=
  (2 <= st_nint s)%nat /\ (1 <= st_nnorm s)%nat /\
  shape2 (st_arr s) (Z.to_nat 2) (Z.to_nat 2) /\
  theta (st_arr s) 0 0 = v.

(** ** Further notions for the energies *)

(** [one_energy] once more, line for line, returning beside the energy the
    index pairs of the eight reads of [arr], in the order they are made. *)
Definition one_energy_reads (arr : lattice) (ix iy nmax : Z)
  : option (list (Z * Z) * R) :=
  let en := 0.0 in
  ixp <- mod_int (int_add ix 1) nmax ;;
  ixm <- mod_int (int_sub ix 1) nmax ;;
  iyp <- mod_int (int_add iy 1) nmax ;;
  iym <- mod_int (int_sub iy 1) nmax ;;
  c <- get2 arr ix iy ;;
  n <- get2 arr ixp iy ;;
  let ang := c - n in
  let en := en + 0.5 * (1.0 - 3.0 * cos ang ^ 2) in
  c <- get2 arr ix iy ;;
  n <- get2 arr ixm iy ;;
  let ang := c - n in
  let en := en + 0.5 * (1.0 - 3.0 * cos ang ^ 2) in
  c <- get2 arr ix iy ;;
  n <- get2 arr ix iyp ;;
  let ang := c - n in
  let en := en + 0.5 * (1.0 - 3.0 * cos ang ^ 2) in
  c <- get2 arr ix iy ;;
  n <- get2 arr ix iym ;;
  let ang := c - n in
  let en := en + 0.5 * (1.0 - 3.0 * cos ang ^ 2) in
  Some ([(ix, iy); (ixp, iy); (ix, iy); (ixm, iy);
         (ix, iy); (ix, iyp); (ix, iy); (ix, iym)], en).

(** Every angle of the lattice increased by [c]: a global rotation. *)
Definition rotate_all (arr : lattice) (c : R) : lattice :=
  map (map (fun t => t + c)) arr.

(** The energy of the lattice with every bond taken once: each cell
    contributes the bond to its neighbour at [i + 1] and the bond to its
    neighbour at [j + 1]. *)
Definition bond_energy (arr : lattice) (N : Z) : R :=
  sum2 (Z.to_nat N) (fun i j =>
    pair_term (theta arr i j - theta arr ((i + 1) mod N)%Z j)
    + pair_term (theta arr i j - theta arr i ((j + 1) mod N)%Z)).

(** ** Further notions for the order parameter *)

(** The mean of [F i j] over the cells of an N x N lattice. *)
Definition mean2 (N : Z) (F : Z -> Z -> R) : R :=
  sum2 (Z.to_nat N) F / (IZR N * IZR N).

(** The length of the mean of the unit vectors of angle 2 theta. *)
Definition nematic_strength (arr : lattice) (N : Z) : R :=
  sqrt (mean2 N (fun i j => cos (2 * theta arr i j)) ^ 2
        + mean2 N (fun i j => sin (2 * theta arr i j)) ^ 2).

(** ** Well-formed draws and the states of a sweep *)

(** What [np.random.randint(0, high=N, size=(N,N))] and
    [np.random.normal(size=(N,N))] guarantee of every array they return:
    it has an entry at every [i, j] of the N x N grid, and an integer entry
    lies in [0, N). *)
Definition draws_ok (g : rng) (N : Z) : Prop :=
  forall k i j, (0 <= i < N)%Z -> (0 <= j < N)%Z ->
    (exists x, get2 (randint_draws g k) i j = Some x /\ (0 <= x < N)%Z) /\
    (exists z, get2 (normal_draws g k) i j = Some z).

(** The state of a sweep of an N x N lattice when the attempt [(i, j)] is
    about to be made: [i] rows are complete and [j] attempts of the current
    row are made. *)
Definition sweep_state (N i j : Z) (s : mc_state) : Prop :=
  shape2 (st_arr s) (Z.to_nat N) (Z.to_nat N) /\
  (0 <= st_accept s <= i * (N + 1) + j)%Z /\
  ((0 < j)%Z -> (0 <= st_ix s < N)%Z /\ (0 <= st_iy s < N)%Z) /\
  Z.of_nat (st_nint s) = (2 * (i * N + j))%Z /\
  Z.of_nat (st_nnorm s) = (i * N + j)%Z /\
  Z.of_nat (st_nunif s) = i.

(** ** plotdat and main *)

(** [np.zeros(n)] for a one-dimensional array. *)
Definition zeros1 (n : Z) : option (list R) :=
  if (n <? 0)%Z then None else Some (repeat 0 (Z.to_nat n)).

(** [plotdat] returns at once when [pflag] is 0. What it draws otherwise
    (lines 77-101, matplotlib) is the parameter [render]. *)
Definition plotdat (render : lattice -> Z -> Z -> option unit)
  (arr : lattice) (pflag nmax : Z) : option unit :=
  if (pflag =? 0)%Z then Some tt else render arr pflag nmax.

(** The lattice and the three series that [main] updates in place. *)
Record run_state : Type := {
  rs_lattice : lattice;
  rs_ratio : list R;
  rs_energy : list R;
  rs_order : list R
}.

(** Lines 319-321: one iteration of the loop of [main]. The draws of the
    sweep number [it] are [gs it]. *)
Definition main_sweep (eigvalsh : list (list R) -> option (list R))
  (gs : nat -> rng) (temp : R) (nmax : Z) (it : Z) (s : run_state)
  : option run_state :=
  sw <- MC_step (gs (Z.to_nat it)) (rs_lattice s) temp nmax ;;
  ratio <- set_index (rs_ratio s) it (snd sw) ;;
  e <- all_energy (fst sw) nmax ;;
  energy <- set_index (rs_energy s) it e ;;
  o <- get_order eigvalsh (fst sw) nmax ;;
  order <- set_index (rs_order s) it o ;;
  Some {| rs_lattice := fst sw; rs_ratio := ratio; rs_energy := energy;
          rs_order := order |}.

(** What [main] hands to [savedat] and prints: the final lattice, the
    three series, and the order written on the summary line. *)
Record outcome : Type := {
  out_state : run_state;
  out_printed : R
}.

(** [main], without its timing. Writing the file ([savedat]) is the
    parameter [save]; [u] is the stream of draws of [initdat]. *)
Definition main (eigvalsh : list (list R) -> option (list R))
  (render : lattice -> Z -> Z -> option unit)
  (save : run_state -> Z -> R -> Z -> option unit)
  (u : nat -> R) (gs : nat -> rng)
  (nsteps nmax : Z) (temp : R) (pflag : Z) : option outcome :=
  lattice_np <- initdat nmax temp u ;;
  bind (plotdat render lattice_np pflag nmax) (fun _ =>
  energy <- zeros1 (nsteps + 1) ;;
  ratio <- zeros1 (nsteps + 1) ;;
  order <- zeros1 (nsteps + 1) ;;
  e0 <- all_energy lattice_np nmax ;;
  energy <- set_index energy 0 e0 ;;
  ratio <- set_index ratio 0 0.5 ;;
  o0 <- get_order eigvalsh lattice_np nmax ;;
  order <- set_index order 0 o0 ;;
  s <- for_loop (Z.to_nat nsteps) 1 (main_sweep eigvalsh gs temp nmax)
         {| rs_lattice := lattice_np; rs_ratio := ratio;
            rs_energy := energy; rs_order := order |} ;;
  printed <- index (rs_order s) (nsteps - 1) ;;
  bind (save s nsteps temp nmax) (fun _ =>
  bind (plotdat render (rs_lattice s) pflag nmax) (fun _ =>
  Some {| out_state := s; out_printed := printed |}))).

(** What holds of the state of [main] when the sweep number [it] is about
    to be made, on a lattice of size [N] with series of [n + 1] entries:
    [lat0], [e0], [o0] are the initial lattice, energy and order. *)
Definition run_inv (eigvalsh : list (list R) -> option (list R))
  (N n : Z) (lat0 : lattice) (e0 o0 : R) (it : Z) (s : run_state) : Prop :=
  shape2 (rs_lattice s) (Z.to_nat N) (Z.to_nat N) /\
  (Z.of_nat (length (rs_ratio s)) = n + 1 /\
   Z.of_nat (length (rs_energy s)) = n + 1 /\
   Z.of_nat (length (rs_order s)) = n + 1)%Z /\
  (nth 0 (rs_ratio s) 0 = 0.5 /\ nth 0 (rs_energy s) 0 = e0 /\
   nth 0 (rs_order s) 0 = o0) /\
  all_energy (rs_lattice s) N = Some (nth (Z.to_nat (it - 1)) (rs_energy s) 0) /\
  get_order eigvalsh (rs_lattice s) N
    = Some (nth (Z.to_nat (it - 1)) (rs_order s) 0) /\
  Forall (fun r => 0 <= r <= 1 + 1 / IZR N) (rs_ratio s) /\
  (it = 1%Z -> rs_lattice s = lat0).

(** ** Inputs for a run *)

(** A drawing routine that always fails; [plotdat] never calls it when
    [pflag] is 0. *)
Definition no_render : lattice -> Z -> Z -> option unit := fun _ _ _ => None.

(** A [savedat] that succeeds. *)
Definition save_ok : run_state -> Z -> R -> Z -> option unit :=
  fun _ _ _ _ => Some tt.

(** A stream of uniform draws in [0,1) that are not all equal. *)
Definition ramp_stream : nat -> R := fun k => INR k / (INR k + 1).

(** * Properties *)

(** ** The model on small inputs *)

Example mod_int_negative : mod_int (-1) 4 = Some 3%Z.
Proof. reflexivity. Qed.

Example mod_int_negative_divisor : mod_int 7 (-3) = Some (-2)%Z.
Proof. reflexivity. Qed.

Example int_add_overflow : int_add INT_MAX 1 = (- 2 ^ 31)%Z.
Proof. reflexivity. Qed.

Example index_last : index [10; 20; 30]%Z (-1) = Some 30%Z.
Proof. reflexivity. Qed.

Example index_above : index [10; 20; 30]%Z 3 = None.
Proof. reflexivity. Qed.

Example index_below : index [10; 20; 30]%Z (-4) = None.
Proof. reflexivity. Qed.

Example set2_cell : set2 [[1; 2]; [3; 4]]%Z 1 0 9%Z = Some [[1; 2]; [9; 4]]%Z.
Proof. reflexivity. Qed.

Example for_range_triangle :
  for_range 4 (fun i acc => Some (acc + i)%Z) 0%Z = Some 6%Z.
Proof. reflexivity. Qed.

Example for_range_negative :
  for_range (-2) (fun _ _ => None) 5%Z = Some 5%Z.
Proof. reflexivity. Qed.

(** On an empty lattice of size 0 the energy loops do not run, a cell
    energy raises (modulo by zero) and the sweep raises at its final
    division. *)
Example all_energy_size_0 : all_energy [] 0 = Some 0.0.
Proof. reflexivity. Qed.

Example one_energy_size_0 : one_energy [] 0 0 0 = None.
Proof. reflexivity. Qed.

Example MC_step_size_0 (g : rng) (Ts : R) : MC_step g [] Ts 0 = None.
Proof. reflexivity. Qed.


(** ** C integers *)

Lemma wrap_int_small (z : Z) :
  (- 2 ^ 31 <= z <= INT_MAX)%Z -> wrap_int z = z.
Proof.
  unfold wrap_int, INT_MAX. intros H.
  rewrite Z.mod_small by lia. lia.
Qed.

(** The corrected C remainder is the mathematical modulo. *)
Lemma mod_int_modulo (a b : Z) :
  b <> 0%Z -> mod_int a b = Some (a mod b)%Z.
Proof.
  intros Hb. unfold mod_int.
  destruct (Z.eqb_spec b 0) as [E | _]; [contradiction |].
  cbv zeta. f_equal.
  pose proof (Z.quot_rem' a b) as Hqr.
  pose proof (Z.rem_bound_abs a b Hb) as Habs.
  pose proof (Z.lxor_nonneg (Z.rem a b) b) as Hx.
  set (r := Z.rem a b) in *. set (q := Z.quot a b) in *.
  destruct (Z.eqb_spec r 0) as [Hr0 | Hr0]; cbn [negb andb].
  - apply Zmod_unique_full with (q := q); [| lia].
    red. lia.
  - destruct (Z.ltb_spec (Z.lxor r b) 0) as [Hneg | Hpos].
    + apply Zmod_unique_full with (q := (q - 1)%Z); [| lia].
      red. assert (~ ((0 <= r)%Z <-> (0 <= b)%Z)) by (intros Hc; apply Hx in Hc; lia).
      lia.
    + apply Zmod_unique_full with (q := q); [| lia].
      red. apply Hx in Hpos. lia.
Qed.

Lemma mod_int_zero (a : Z) : mod_int a 0 = None.
Proof. reflexivity. Qed.

Lemma neighbor_plus (i N : Z) :
  (0 < N <= INT_MAX)%Z -> (0 <= i < N)%Z ->
  mod_int (int_add i 1) N = Some ((i + 1) mod N)%Z.
Proof.
  intros HN Hi. unfold int_add, INT_MAX in *.
  rewrite wrap_int_small by (unfold INT_MAX; lia).
  apply mod_int_modulo. lia.
Qed.

Lemma neighbor_minus (i N : Z) :
  (0 < N <= INT_MAX)%Z -> (0 <= i < N)%Z ->
  mod_int (int_sub i 1) N = Some ((i - 1) mod N)%Z.
Proof.
  intros HN Hi. unfold int_sub, INT_MAX in *.
  rewrite wrap_int_small by (unfold INT_MAX; lia).
  apply mod_int_modulo. lia.
Qed.

(** ** Arrays *)

Lemma index_in_range {A : Type} (l : list A) (i : Z) :
  (0 <= i < Z.of_nat (length l))%Z -> index l i = nth_error l (Z.to_nat i).
Proof.
  intros H. unfold index.
  destruct (Z.ltb_spec i 0); [lia |].
  destruct (Z.leb_spec 0 i); [| lia].
  destruct (Z.ltb_spec i (Z.of_nat (length l))); [| lia].
  reflexivity.
Qed.

Lemma index_nth {A : Type} (l : list A) (i : Z) (d : A) :
  (0 <= i < Z.of_nat (length l))%Z -> index l i = Some (nth (Z.to_nat i) l d).
Proof.
  intros H. rewrite index_in_range by exact H.
  apply nth_error_nth'. lia.
Qed.

Lemma shape2_row {A : Type} (arr : list (list A)) (n m : nat) (i : nat) :
  shape2 arr n m -> (i < n)%nat -> length (nth i arr []) = m.
Proof.
  intros [Hlen Hrows] Hi. rewrite Forall_forall in Hrows.
  apply Hrows, nth_In. lia.
Qed.

Lemma get2_theta (arr : lattice) (n m : nat) (i j : Z) :
  shape2 arr n m -> (0 <= i < Z.of_nat n)%Z -> (0 <= j < Z.of_nat m)%Z ->
  get2 arr i j = Some (theta arr i j).
Proof.
  intros Hs Hi Hj. unfold get2, theta.
  pose proof Hs as [Hlen _].
  rewrite (index_nth arr i []) by lia. cbn [bind].
  apply index_nth.
  rewrite (shape2_row arr n m) by (auto; lia). exact Hj.
Qed.

(** ** Loops *)

Lemma for_loop_S {St : Type} (k : nat) (i : Z) (body : Z -> St -> option St)
  (s : St) :
  for_loop (S k) i body s = (s' <- body i s ;; for_loop k (i + 1)%Z body s').
Proof. reflexivity. Qed.

Lemma for_loop_snoc {St : Type} (k : nat) (i : Z) (body : Z -> St -> option St)
  (s : St) :
  for_loop (S k) i body s =
  (s' <- for_loop k i body s ;; body (i + Z.of_nat k)%Z s').
Proof.
  revert i s. induction k as [| k IH]; intros i s.
  - cbn [for_loop bind]. replace (i + Z.of_nat 0)%Z with i by lia.
    destruct (body i s); reflexivity.
  - rewrite (for_loop_S (S k)), (for_loop_S k).
    destruct (body i s) as [s1 |]; cbn [bind]; [| reflexivity].
    rewrite IH. replace (i + 1 + Z.of_nat k)%Z with (i + Z.of_nat (S k))%Z by lia.
    reflexivity.
Qed.

(** The loop rule: an invariant [P i s] that every iteration re-establishes
    holds at the end, and the loop raises nothing. *)
Lemma for_range_inv {St : Type} (P : Z -> St -> Prop) (n : Z)
  (body : Z -> St -> option St) (s : St) :
  (0 <= n)%Z ->
  P 0%Z s ->
  (forall i t, (0 <= i < n)%Z -> P i t ->
     exists t', body i t = Some t' /\ P (i + 1)%Z t') ->
  exists s', for_range n body s = Some s' /\ P n s'.
Proof.
  intros Hn H0 Hstep. unfold for_range.
  assert (Hk : forall k, (k <= Z.to_nat n)%nat ->
            exists s', for_loop k 0%Z body s = Some s' /\ P (Z.of_nat k) s').
  { induction k as [| k IH]; intros Hle.
    - exists s. split; [reflexivity | exact H0].
    - destruct IH as [s1 [E1 P1]]; [lia |].
      destruct (Hstep (Z.of_nat k) s1) as [s2 [E2 P2]]; [lia | exact P1 |].
      exists s2. rewrite for_loop_snoc, E1. cbn [bind]. split; [exact E2 |].
      replace (Z.of_nat (S k)) with (Z.of_nat k + 1)%Z by lia. exact P2. }
  destruct (Hk (Z.to_nat n)) as [s' [E HP]]; [lia |].
  exists s'. split; [exact E |]. rewrite Z2Nat.id in HP by exact Hn. exact HP.
Qed.

(** A loop that adds [f i] to an accumulator computes a sum. *)
Lemma for_range_sum (n : Z) (f : Z -> R) (body : Z -> R -> option R) (s : R) :
  (forall i acc, (0 <= i < n)%Z -> body i acc = Some (acc + f i)) ->
  for_range n body s = Some (s + big_sum (Z.to_nat n) f).
Proof.
  intros Hbody. unfold for_range.
  assert (Hk : forall k, (k <= Z.to_nat n)%nat ->
            for_loop k 0%Z body s = Some (s + big_sum k f)).
  { induction k as [| k IH]; intros Hle.
    - cbn. f_equal. ring.
    - rewrite for_loop_snoc, IH by lia. cbn [bind big_sum].
      rewrite Hbody by lia. f_equal. replace (0 + Z.of_nat k)%Z with (Z.of_nat k) by lia.
      ring. }
  apply Hk. lia.
Qed.

Lemma big_sum_ext (n : nat) (f g : Z -> R) :
  (forall i, (0 <= i < Z.of_nat n)%Z -> f i = g i) -> big_sum n f = big_sum n g.
Proof.
  induction n as [| n IH]; intros H; cbn [big_sum]; [reflexivity |].
  rewrite IH by (intros; apply H; lia). rewrite H by lia. reflexivity.
Qed.

Lemma big_sum_const (n : nat) (c : R) :
  big_sum n (fun _ => c) = INR n * c.
Proof.
  induction n as [| n IH].
  - cbn. ring.
  - cbn [big_sum]. rewrite IH, S_INR. ring.
Qed.

(** ** Energies *)

Lemma mod_range (a N : Z) : (0 < N)%Z -> (0 <= a mod N < N)%Z.
Proof. intros H. apply Z.mod_pos_bound. exact H. Qed.

(** The four neighbour indices as [one_energy] computes them, and the
    reads they address. *)
Lemma neighbor_reads (arr : lattice) (N i j : Z) :
  (0 < N <= INT_MAX)%Z -> shape2 arr (Z.to_nat N) (Z.to_nat N) ->
  (0 <= i < N)%Z -> (0 <= j < N)%Z ->
  (mod_int (int_add i 1) N = Some ((i + 1) mod N)%Z /\
   mod_int (int_sub i 1) N = Some ((i - 1) mod N)%Z /\
   mod_int (int_add j 1) N = Some ((j + 1) mod N)%Z /\
   mod_int (int_sub j 1) N = Some ((j - 1) mod N)%Z) /\
  (get2 arr i j = Some (theta arr i j) /\
   get2 arr ((i + 1) mod N)%Z j = Some (theta arr ((i + 1) mod N)%Z j) /\
   get2 arr ((i - 1) mod N)%Z j = Some (theta arr ((i - 1) mod N)%Z j) /\
   get2 arr i ((j + 1) mod N)%Z = Some (theta arr i ((j + 1) mod N)%Z) /\
   get2 arr i ((j - 1) mod N)%Z = Some (theta arr i ((j - 1) mod N)%Z)).
Proof.
  intros HN Hs Hi Hj.
  assert (H0 : (0 < N)%Z) by lia.
  pose proof (mod_range (i + 1) N H0). pose proof (mod_range (i - 1) N H0).
  pose proof (mod_range (j + 1) N H0). pose proof (mod_range (j - 1) N H0).
  repeat split;
    try (apply neighbor_plus; assumption);
    try (apply neighbor_minus; assumption);
    apply (get2_theta arr (Z.to_nat N) (Z.to_nat N)); try assumption; lia.
Qed.

Lemma one_energy_value (arr : lattice) (N i j : Z) :
  (0 < N <= INT_MAX)%Z -> shape2 arr (Z.to_nat N) (Z.to_nat N) ->
  (0 <= i < N)%Z -> (0 <= j < N)%Z ->
  one_energy arr i j N = Some (cellEnergy arr N i j).
Proof.
  intros HN Hs Hi Hj.
  destruct (neighbor_reads arr N i j HN Hs Hi Hj)
    as [[Exp [Exm [Eyp Eym]]] [Gc [Gxp [Gxm [Gyp Gym]]]]].
  unfold one_energy. rewrite Exp, Exm, Eyp, Eym. cbn [bind].
  rewrite Gc, Gxp, Gxm, Gyp, Gym. cbn [bind].
  f_equal. unfold cellEnergy, neighbors, sum_list, pair_term.
  cbn [map fold_right fst snd]. lra.
Qed.

(** The recording variant computes what [one_energy] computes, on every
    input. *)
Lemma one_energy_reads_energy (arr : lattice) (ix iy nmax : Z) :
  one_energy arr ix iy nmax = option_map snd (one_energy_reads arr ix iy nmax).
Proof.
  unfold one_energy, one_energy_reads.
  destruct (mod_int (int_add ix 1) nmax) as [ixp |]; cbn [bind option_map];
    [| reflexivity].
  destruct (mod_int (int_sub ix 1) nmax) as [ixm |]; cbn [bind option_map];
    [| reflexivity].
  destruct (mod_int (int_add iy 1) nmax) as [iyp |]; cbn [bind option_map];
    [| reflexivity].
  destruct (mod_int (int_sub iy 1) nmax) as [iym |]; cbn [bind option_map];
    [| reflexivity].
  destruct (get2 arr ix iy) as [c |]; cbn [bind option_map]; [| reflexivity].
  destruct (get2 arr ixp iy) as [n1 |]; cbn [bind option_map]; [| reflexivity].
  destruct (get2 arr ixm iy) as [n2 |]; cbn [bind option_map]; [| reflexivity].
  destruct (get2 arr ix iyp) as [n3 |]; cbn [bind option_map]; [| reflexivity].
  destruct (get2 arr ix iym) as [n4 |]; cbn [bind option_map]; reflexivity.
Qed.

(** C7. For a cell (i,j) of an N x N lattice, [one_energy] computes its
    four neighbour indices as the mathematical modulo of i+1, i-1, j+1 and
    j-1 by N, also when the operand is negative; every index pair it reads
    the lattice at lies in [0, N) x [0, N), and it raises nothing. *)
Theorem neighbor_indices_in_range (arr : lattice) (N i j : Z) :
  (0 < N <= INT_MAX)%Z -> shape2 arr (Z.to_nat N) (Z.to_nat N) ->
  (0 <= i < N)%Z -> (0 <= j < N)%Z ->
  (mod_int (int_add i 1) N = Some ((i + 1) mod N)%Z /\
   mod_int (int_sub i 1) N = Some ((i - 1) mod N)%Z /\
   mod_int (int_add j 1) N = Some ((j + 1) mod N)%Z /\
   mod_int (int_sub j 1) N = Some ((j - 1) mod N)%Z) /\
  (forall ix iy n,
     one_energy arr ix iy n = option_map snd (one_energy_reads arr ix iy n)) /\
  exists reads e,
    one_energy_reads arr i j N = Some (reads, e) /\
    one_energy arr i j N = Some e /\
    reads = [ (i, j); ((i + 1) mod N, j); (i, j); ((i - 1) mod N, j);
              (i, j); (i, (j + 1) mod N); (i, j); (i, (j - 1) mod N) ]%Z /\
    Forall (fun p => (0 <= fst p < N)%Z /\ (0 <= snd p < N)%Z) reads /\
    Forall (fun p => get2 arr (fst p) (snd p)
                     = Some (theta arr (fst p) (snd p))) reads.
Proof.
  intros HN Hs Hi Hj.
  destruct (neighbor_reads arr N i j HN Hs Hi Hj)
    as [[Exp [Exm [Eyp Eym]]] [Gc [Gxp [Gxm [Gyp Gym]]]]].
  assert (H0 : (0 < N)%Z) by lia.
  pose proof (mod_range (i + 1) N H0). pose proof (mod_range (i - 1) N H0).
  pose proof (mod_range (j + 1) N H0). pose proof (mod_range (j - 1) N H0).
  split; [repeat split; assumption |].
  split; [intros ix iy n; apply one_energy_reads_energy |].
  assert (Er : one_energy_reads arr i j N
               = Some ([ (i, j); ((i + 1) mod N, j); (i, j); ((i - 1) mod N, j);
                         (i, j); (i, (j + 1) mod N); (i, j);
                         (i, (j - 1) mod N) ]%Z,
                       cellEnergy arr N i j)).
  { unfold one_energy_reads. rewrite Exp, Exm, Eyp, Eym. cbn [bind].
    rewrite Gc, Gxp, Gxm, Gyp, Gym. cbn [bind].
    f_equal. f_equal. unfold cellEnergy, neighbors, sum_list, pair_term.
    cbn [map fold_right fst snd]. lra. }
  eexists. eexists. split; [exact Er |].
  split; [rewrite one_energy_reads_energy, Er; reflexivity |].
  split; [reflexivity |]. split.
  - repeat constructor; cbn [fst snd]; lia.
  - repeat constructor; cbn [fst snd]; assumption.
Qed.

(** C3. For a cell of an N x N lattice, [one_energy] raises nothing and
    returns the sum over the four periodic neighbours of
    0.5 * (1 - 3 cos^2 (theta(i,j) - theta(ip,jp))). *)
Theorem one_energy_cellEnergy (arr : lattice) (N i j : Z) :
  (0 < N <= INT_MAX)%Z -> shape2 arr (Z.to_nat N) (Z.to_nat N) ->
  (0 <= i < N)%Z -> (0 <= j < N)%Z ->
  one_energy arr i j N =
  Some (sum_list (map (fun p =>
                         0.5 * (1 - 3 * cos (theta arr i j
                                             - theta arr (fst p) (snd p)) ^ 2))
                      (neighbors N i j))).
Proof.
  intros HN Hs Hi Hj.
  rewrite (one_energy_value arr N i j HN Hs Hi Hj). reflexivity.
Qed.

Lemma all_energy_value (arr : lattice) (N : Z) :
  (0 < N <= INT_MAX)%Z -> shape2 arr (Z.to_nat N) (Z.to_nat N) ->
  all_energy arr N = Some (latticeEnergy arr N).
Proof.
  intros HN Hs. unfold all_energy, latticeEnergy.
  rewrite (for_range_sum N
             (fun i => big_sum (Z.to_nat N) (fun j => cellEnergy arr N i j))).
  - f_equal. lra.
  - intros i acc Hi.
    apply for_range_sum. intros j acc' Hj.
    rewrite (one_energy_value arr N i j HN Hs Hi Hj). reflexivity.
Qed.

Lemma cellEnergy_aligned (arr : lattice) (N i j : Z) (t : R) :
  (0 < N)%Z -> aligned arr N t -> (0 <= i < N)%Z -> (0 <= j < N)%Z ->
  cellEnergy arr N i j = -4.
Proof.
  intros HN Ha Hi Hj.
  pose proof (mod_range (i + 1) N HN). pose proof (mod_range (i - 1) N HN).
  pose proof (mod_range (j + 1) N HN). pose proof (mod_range (j - 1) N HN).
  unfold cellEnergy, neighbors, sum_list, pair_term.
  cbn [map fold_right fst snd].
  rewrite !Ha by assumption.
  replace (t - t) with 0 by ring. rewrite cos_0. lra.
Qed.

Lemma latticeEnergy_aligned (arr : lattice) (N : Z) (t : R) :
  (0 < N)%Z -> aligned arr N t -> latticeEnergy arr N = -4 * IZR N * IZR N.
Proof.
  intros HN Ha. unfold latticeEnergy.
  rewrite (big_sum_ext _ _ (fun _ => IZR N * -4)).
  - rewrite big_sum_const, INR_IZR_INZ, Z2Nat.id by lia. ring.
  - intros i Hi.
    rewrite (big_sum_ext _ _ (fun _ => -4)).
    + rewrite big_sum_const, INR_IZR_INZ, Z2Nat.id by lia. reflexivity.
    + intros j Hj. apply (cellEnergy_aligned arr N i j t); try assumption; lia.
Qed.

(** C4. [all_energy] returns the sum of the cell energies over every cell,
    with no halving; for a perfectly aligned N x N lattice that is -4 N^2,
    and -64.0 when N = 4. *)
Theorem all_energy_latticeEnergy (arr : lattice) (N : Z) :
  (0 < N <= INT_MAX)%Z -> shape2 arr (Z.to_nat N) (Z.to_nat N) ->
  all_energy arr N =
    Some (big_sum (Z.to_nat N) (fun i =>
            big_sum (Z.to_nat N) (fun j => cellEnergy arr N i j))) /\
  (forall t, aligned arr N t ->
     all_energy arr N = Some (-4 * IZR N * IZR N) /\
     (N = 4%Z -> all_energy arr N = Some (-64.0))).
Proof.
  intros HN Hs. split.
  - apply all_energy_value; assumption.
  - intros t Ha.
    rewrite (all_energy_value arr N HN Hs).
    rewrite (latticeEnergy_aligned arr N t) by (try assumption; lia).
    split; [reflexivity |].
    intros ->. f_equal. lra.
Qed.

(** ** Updating and negating angles *)

Lemma length_upd {A : Type} (l : list A) (n : nat) (x : A) :
  length (upd l n x) = length l.
Proof.
  revert n. induction l as [| h t IH]; intros [| n]; cbn; try reflexivity.
  now rewrite IH.
Qed.

Lemma nth_upd_same {A : Type} (l : list A) (n : nat) (x d : A) :
  (n < length l)%nat -> nth n (upd l n x) d = x.
Proof.
  revert n. induction l as [| h t IH]; intros [| n] H; cbn in *; try lia.
  - reflexivity.
  - apply IH. lia.
Qed.

Lemma nth_upd_other {A : Type} (l : list A) (n m : nat) (x d : A) :
  n <> m -> nth n (upd l m x) d = nth n l d.
Proof.
  revert n m. induction l as [| h t IH]; intros [| n] [| m] H; cbn;
    try reflexivity; try congruence.
  apply IH. congruence.
Qed.

Lemma Forall_upd {A : Type} (P : A -> Prop) (l : list A) (n : nat) (x : A) :
  Forall P l -> P x -> Forall P (upd l n x).
Proof.
  intros Hl Hx. revert n. induction Hl as [| h t Hh Ht IH]; intros [| n]; cbn;
    constructor; auto.
Qed.

Lemma shape2_with_angle (arr : lattice) (n m : nat) (p q : Z) (v : R) :
  shape2 arr n m -> (0 <= p < Z.of_nat n)%Z ->
  shape2 (with_angle arr p q v) n m.
Proof.
  intros Hs Hp. pose proof Hs as [Hlen Hrows]. unfold with_angle. split.
  - rewrite length_upd. exact Hlen.
  - apply Forall_upd; [exact Hrows |].
    rewrite length_upd. apply (shape2_row arr n m); [exact Hs | lia].
Qed.

Lemma theta_with_angle_same (arr : lattice) (n m : nat) (p q : Z) (v : R) :
  shape2 arr n m -> (0 <= p < Z.of_nat n)%Z -> (0 <= q < Z.of_nat m)%Z ->
  theta (with_angle arr p q v) p q = v.
Proof.
  intros Hs Hp Hq. pose proof Hs as [Hlen _]. unfold theta, with_angle.
  rewrite nth_upd_same by lia.
  apply nth_upd_same. rewrite (shape2_row arr n m) by (auto; lia). lia.
Qed.

Lemma theta_with_angle_other (arr : lattice) (n m : nat) (p q i j : Z) (v : R) :
  shape2 arr n m -> (0 <= p < Z.of_nat n)%Z -> (0 <= q)%Z ->
  (0 <= i)%Z -> (0 <= j)%Z -> (i, j) <> (p, q) ->
  theta (with_angle arr p q v) i j = theta arr i j.
Proof.
  intros Hs Hp Hq Hi Hj Hne. pose proof Hs as [Hlen _]. unfold theta, with_angle.
  destruct (Z.eq_dec i p) as [-> | Hip].
  - rewrite nth_upd_same by lia.
    apply nth_upd_other. intros E. apply Hne. f_equal. lia.
  - rewrite nth_upd_other by lia. reflexivity.
Qed.

Lemma shape2_negate_all (arr : lattice) (n m : nat) :
  shape2 arr n m -> shape2 (negate_all arr) n m.
Proof.
  intros [Hlen Hrows]. unfold negate_all. split.
  - rewrite length_map. exact Hlen.
  - rewrite Forall_map. eapply Forall_impl; [| exact Hrows].
    intros row Hr. cbn. rewrite length_map. exact Hr.
Qed.

Lemma theta_map (f : R -> R) (arr : lattice) (n m : nat) (i j : Z) :
  shape2 arr n m -> (0 <= i < Z.of_nat n)%Z -> (0 <= j < Z.of_nat m)%Z ->
  theta (map (map f) arr) i j = f (theta arr i j).
Proof.
  intros Hs Hi Hj. pose proof Hs as [Hlen _]. unfold theta.
  rewrite (nth_indep _ [] (map f [])) by (rewrite length_map; lia).
  rewrite map_nth.
  rewrite (nth_indep _ 0 (f 0)).
  - apply map_nth.
  - rewrite length_map, (shape2_row arr n m) by (auto; lia). lia.
Qed.


Lemma pair_term_neg (a b : R) : pair_term (- a - - b) = pair_term (a - b).
Proof.
  unfold pair_term. replace (- a - - b) with (- (a - b)) by ring.
  rewrite cos_neg. reflexivity.
Qed.



Lemma cellEnergy_negate_all (arr : lattice) (N i j : Z) :
  (0 < N)%Z -> shape2 arr (Z.to_nat N) (Z.to_nat N) ->
  (0 <= i < N)%Z -> (0 <= j < N)%Z ->
  cellEnergy (negate_all arr) N i j = cellEnergy arr N i j.
Proof.
  intros HN Hs Hi Hj.
  pose proof (mod_range (i + 1) N HN). pose proof (mod_range (i - 1) N HN).
  pose proof (mod_range (j + 1) N HN). pose proof (mod_range (j - 1) N HN).
  unfold cellEnergy, neighbors, sum_list, negate_all.
  cbn [map fold_right fst snd].
  rewrite !(theta_map Ropp arr (Z.to_nat N) (Z.to_nat N)) by (auto; lia).
  rewrite !pair_term_neg. reflexivity.
Qed.


(** ** Initialisation *)

Lemma random_sample_shape (u : nat -> R) (n m : Z) (s : list (list R)) :
  random_sample u n m = Some s -> shape2 s (Z.to_nat n) (Z.to_nat m).
Proof.
  unfold random_sample. destruct ((n <? 0)%Z || (m <? 0)%Z); [discriminate |].
  intros [= <-]. split.
  - rewrite length_map, length_seq. reflexivity.
  - rewrite Forall_map. apply Forall_forall. intros i _. cbn.
    rewrite length_map, length_seq. reflexivity.
Qed.

Lemma random_sample_theta (u : nat -> R) (n m : Z) (s : list (list R)) (i j : Z) :
  random_sample u n m = Some s -> (0 <= i < n)%Z -> (0 <= j < m)%Z ->
  theta s i j = u (Z.to_nat i * Z.to_nat m + Z.to_nat j)%nat.
Proof.
  unfold random_sample. destruct ((n <? 0)%Z || (m <? 0)%Z); [discriminate |].
  intros [= <-] Hi Hj. unfold theta.
  set (row := fun i0 : nat =>
                map (fun j0 : nat => u (i0 * Z.to_nat m + j0)%nat)
                    (seq 0 (Z.to_nat m))).
  rewrite (nth_indep _ [] (row 0%nat)) by (rewrite length_map, length_seq; lia).
  rewrite (map_nth row), seq_nth by lia. cbn [Nat.add]. unfold row.
  set (f := fun j0 : nat => u (Z.to_nat i * Z.to_nat m + j0)%nat).
  rewrite (nth_indep _ 0 (f 0%nat)) by (rewrite length_map, length_seq; lia).
  rewrite (map_nth f), seq_nth by lia. reflexivity.
Qed.

(** C10. The lattice returned by [initdat] does not depend on [Ts]: two
    calls with the same size and the same random stream return the same
    lattice, whose angle at (i,j) is the corresponding uniform draw scaled
    by 2 pi. *)
Theorem initdat_ignores_temperature (nmax : Z) (Ts1 Ts2 : R) (u : nat -> R) :
  initdat nmax Ts1 u = initdat nmax Ts2 u /\
  (forall i j, (0 <= i < nmax)%Z -> (0 <= j < nmax)%Z ->
     exists arr, initdat nmax Ts1 u = Some arr /\
       shape2 arr (Z.to_nat nmax) (Z.to_nat nmax) /\
       get2 arr i j
         = Some (u (Z.to_nat i * Z.to_nat nmax + Z.to_nat j)%nat * 2.0 * PI)).
Proof.
  split; [reflexivity |].
  intros i j Hi Hj. unfold initdat.
  destruct (random_sample u nmax nmax) as [s |] eqn:E.
  - cbn [bind]. eexists. split; [reflexivity |].
    pose proof (random_sample_shape u nmax nmax s E) as Hs.
    assert (Hs' : shape2 (map (map (fun x => x * 2.0 * PI)) s)
                    (Z.to_nat nmax) (Z.to_nat nmax)).
    { destruct Hs as [Hlen Hrows]. split.
      - rewrite length_map. exact Hlen.
      - rewrite Forall_map. eapply Forall_impl; [| exact Hrows].
        intros row Hr. cbn. rewrite length_map. exact Hr. }
    split; [exact Hs' |].
    rewrite (get2_theta _ (Z.to_nat nmax) (Z.to_nat nmax)) by (auto; lia).
    rewrite (theta_map _ s (Z.to_nat nmax) (Z.to_nat nmax)) by (auto; lia).
    rewrite (random_sample_theta u nmax nmax s i j E Hi Hj). reflexivity.
  - exfalso. unfold random_sample in E.
    destruct (Z.ltb_spec nmax 0); [lia |]. cbn in E. discriminate.
Qed.

(** ** The Metropolis sweep *)

Lemma index_map {A B : Type} (f : A -> B) (l : list A) (i : Z) :
  index (map f l) i = option_map f (index l i).
Proof.
  unfold index. rewrite length_map.
  destruct (_ && _); [apply nth_error_map | reflexivity].
Qed.

Lemma get2_map {A B : Type} (f : A -> B) (arr : list (list A)) (i j : Z) :
  get2 (map (map f) arr) i j = option_map f (get2 arr i j).
Proof.
  unfold get2. rewrite index_map.
  destruct (index arr i) as [row |]; cbn [option_map bind]; [| reflexivity].
  apply index_map.
Qed.

Lemma set_index_in_range {A : Type} (l : list A) (i : Z) (x : A) :
  (0 <= i < Z.of_nat (length l))%Z ->
  set_index l i x = Some (upd l (Z.to_nat i) x).
Proof.
  intros H. unfold set_index.
  destruct (Z.ltb_spec i 0); [lia |].
  destruct (Z.leb_spec 0 i); [| lia].
  destruct (Z.ltb_spec i (Z.of_nat (length l))); [| lia].
  reflexivity.
Qed.

Lemma set2_with_angle (arr : lattice) (n m : nat) (i j : Z) (v : R) :
  shape2 arr n m -> (0 <= i < Z.of_nat n)%Z -> (0 <= j < Z.of_nat m)%Z ->
  set2 arr i j v = Some (with_angle arr i j v).
Proof.
  intros Hs Hi Hj. pose proof Hs as [Hlen _]. unfold set2, with_angle.
  rewrite (index_nth arr i []) by lia. cbn [bind].
  rewrite set_index_in_range
    by (rewrite (shape2_row arr n m) by (auto; lia); lia).
  cbn [bind]. apply set_index_in_range. lia.
Qed.

(** What one iteration of the inner loop does on a well-shaped lattice,
    when the draws at [i, j] pick the cell [(x, y)] and the deviate [z]. *)
Lemma attempt_value (g : rng) (scale : R) (N i j : Z) (s : mc_state)
  (x y : Z) (z : R) :
  (0 < N <= INT_MAX)%Z -> shape2 (st_arr s) (Z.to_nat N) (Z.to_nat N) ->
  0 <= scale ->
  get2 (randint_draws g (st_nint s)) i j = Some x ->
  get2 (randint_draws g (S (st_nint s))) i j = Some y ->
  get2 (normal_draws g (st_nnorm s)) i j = Some z ->
  (0 <= x < N)%Z -> (0 <= y < N)%Z ->
  let arr := st_arr s in
  let arr' := with_angle arr x y (theta arr x y + scale * z) in
  attempt g scale N i j s =
  Some {| st_arr := arr';
          st_accept := if Rle_dec (cellEnergy arr' N x y) (cellEnergy arr N x y)
                       then int_add (st_accept s) 1 else st_accept s;
          st_ix := x; st_iy := y; st_ang := scale * z;
          st_en0 := cellEnergy arr N x y; st_en1 := cellEnergy arr' N x y;
          st_nint := S (S (st_nint s)); st_nnorm := S (st_nnorm s);
          st_nunif := st_nunif s |}.
Proof.
  intros HN Hs Hsc Hx Hy Hz Rx Ry arr arr'. unfold attempt, randint, normal.
  destruct (Z.leb_spec N 0); [lia |].
  destruct (Rlt_dec scale 0) as [Hneg | _]; [lra |].
  cbn [bind]. rewrite Hx, Hy. cbn [bind].
  rewrite get2_map, Hz. cbn [bind option_map].
  rewrite !wrap_int_small by (unfold INT_MAX in *; lia).
  rewrite (one_energy_value (st_arr s) N x y) by assumption. cbn [bind].
  rewrite (get2_theta (st_arr s) (Z.to_nat N) (Z.to_nat N)) by (auto; lia).
  cbn [bind].
  rewrite (set2_with_angle (st_arr s) (Z.to_nat N) (Z.to_nat N)) by (auto; lia).
  cbn [bind].
  rewrite one_energy_value; try assumption.
  - reflexivity.
  - apply shape2_with_angle; [assumption | lia].
Qed.

Lemma shape2_1x1 (t : R) : shape2 [[t]] (Z.to_nat 1) (Z.to_nat 1).
Proof. split; [reflexivity | repeat constructor]. Qed.

Lemma cellEnergy_1x1 (t : R) : cellEnergy [[t]] 1 0 0 = -4.
Proof.
  apply (cellEnergy_aligned [[t]] 1 0 0 t); try lia.
  intros i j Hi Hj. assert (i = 0%Z) as -> by lia. assert (j = 0%Z) as -> by lia.
  reflexivity.
Qed.

(** C2, as the code has it. On a 1 x 1 lattice, for every angle, every
    temperature T > 0 and every well-formed stream of draws, the single
    attempt of the sweep is counted twice (once in the loop body, once more
    in the [else] clause of the loop) and [MC_step] returns the ratio 2. *)
Theorem MC_step_ratio_1x1 (g : rng) (t Ts z : R) :
  0 < Ts ->
  randint_draws g 0 = [[0%Z]] -> randint_draws g 1 = [[0%Z]] ->
  normal_draws g 0 = [[z]] ->
  0 <= uniform_draws g 0 < 1 ->
  MC_step g [[t]] Ts 1 = Some ([[t + (0.1 + Ts) * z]], 2).
Proof.
  intros HT Hx Hy Hz Hu.
  unfold MC_step, MC_sweep, for_range.
  change (Z.to_nat 1) with 1%nat. cbn [for_loop bind].
  rewrite (attempt_value g (0.1 + Ts) 1 0 0 (mc_init [[t]]) 0 0 z);
    try (unfold INT_MAX; lia); try lra;
    try (cbn [mc_init st_arr st_nint st_nnorm]; rewrite ?Hx, ?Hy, ?Hz; reflexivity);
    try apply shape2_1x1.
  cbn [mc_init st_arr st_accept st_nint st_nnorm st_nunif bind].
  change (with_angle [[t]] 0 0 (theta [[t]] 0 0 + (0.1 + Ts) * z))
    with [[t + (0.1 + Ts) * z]].
  rewrite !cellEnergy_1x1.
  destruct (Rle_dec (-4) (-4)) as [_ | Hn]; [| lra].
  unfold row_else.
  destruct (Req_dec_T Ts 0) as [E | _]; [lra |].
  cbn [st_arr st_accept st_ix st_iy st_ang st_en0 st_en1 st_nint st_nnorm st_nunif].
  replace (- (-4 - -4) / Ts) with 0 by (field; lra).
  rewrite exp_0.
  destruct (Rge_dec 1 (uniform_draws g 0)) as [_ | Hn]; [| lra].
  cbn [bind st_arr st_accept].
  change (int_mul 1 1) with 1%Z. change (int_add (int_add 0 1) 1) with 2%Z.
  cbn [Z.eqb]. f_equal. f_equal. lra.
Qed.

(** *** The sweep of [sweep_draws] on [lattice0] *)

Lemma sweep_draws_late (u : nat -> R) (k n : nat) (i j : Z) :
  (2 <= k)%nat -> (1 <= n)%nat -> (0 <= i < 2)%Z -> (0 <= j < 2)%Z ->
  get2 (randint_draws (sweep_draws u) k) i j = Some 1%Z /\
  get2 (normal_draws (sweep_draws u) n) i j = Some 0.
Proof.
  intros Hk Hn Hi Hj. cbn [sweep_draws randint_draws normal_draws].
  destruct (Nat.ltb_spec k 2); [lia |].
  destruct (Nat.eqb_spec n 0); [lia |].
  assert (Ei : i = 0%Z \/ i = 1%Z) by lia.
  assert (Ej : j = 0%Z \/ j = 1%Z) by lia.
  destruct Ei as [-> | ->], Ej as [-> | ->]; split; reflexivity.
Qed.

Lemma attempt_after_first (u : nat -> R) (scale v : R) (i j : Z) (s : mc_state) :
  0 <= scale -> (0 <= i < 2)%Z -> (0 <= j < 2)%Z -> after_first v s ->
  exists s', attempt (sweep_draws u) scale 2 i j s = Some s' /\
    after_first v s' /\ st_ix s' = 1%Z /\ st_iy s' = 1%Z /\
    st_nunif s' = st_nunif s.
Proof.
  intros Hsc Hi Hj (Hk & Hn & Hs & Hv).
  destruct (sweep_draws_late u (st_nint s) (st_nnorm s) i j Hk Hn Hi Hj)
    as [Ex Ez].
  destruct (sweep_draws_late u (S (st_nint s)) (st_nnorm s) i j) as [Ey _];
    try lia.
  eexists. split.
  - apply (attempt_value (sweep_draws u) scale 2 i j s 1 1 0);
      try assumption; unfold INT_MAX; lia.
  - unfold after_first. cbv zeta.
    cbn [st_arr st_ix st_iy st_nint st_nnorm st_nunif].
    split; [split; [lia | split; [lia | split]] | auto].
    + apply shape2_with_angle; [assumption | lia].
    + rewrite (theta_with_angle_other _ (Z.to_nat 2) (Z.to_nat 2));
        try assumption; try lia. congruence.
Qed.

Lemma row_else_after_first (g : rng) (Ts v : R) (s : mc_state) :
  Ts <> 0 -> after_first v s -> st_ix s = 1%Z -> st_iy s = 1%Z ->
  exists s', row_else g Ts s = Some s' /\ after_first v s' /\
    st_nunif s' = S (st_nunif s).
Proof.
  intros HT (Hk & Hn & Hs & Hv) Hx Hy. unfold row_else.
  destruct (Req_dec_T Ts 0) as [E | _]; [contradiction |].
  cbv zeta. destruct (Rge_dec _ _) as [_ | _].
  - eexists. split; [reflexivity |]. unfold after_first.
    cbn [st_arr st_nint st_nnorm st_nunif]. auto.
  - rewrite Hx, Hy.
    rewrite (get2_theta _ (Z.to_nat 2) (Z.to_nat 2)) by (auto; lia).
    cbn [bind].
    rewrite (set2_with_angle _ (Z.to_nat 2) (Z.to_nat 2)) by (auto; lia).
    cbn [bind]. eexists. split; [reflexivity |]. unfold after_first.
    cbn [st_arr st_nint st_nnorm st_nunif].
    split; [split; [assumption | split; [assumption | split]] | reflexivity].
    + apply shape2_with_angle; [assumption | lia].
    + rewrite (theta_with_angle_other _ (Z.to_nat 2) (Z.to_nat 2));
        try assumption; try lia. congruence.
Qed.

Lemma PI_gt_3 : 3 < PI.
Proof. pose proof PI2_3_2. lra. Qed.

Lemma cos_sqr_lt_1 (w : R) : 0 < w < PI -> cos w ^ 2 < 1.
Proof.
  intros [H0 H1]. pose proof (sin_gt_0 w H0 H1) as Hs.
  pose proof (sin2_cos2 w) as E. unfold Rsqr in E. nra.
Qed.

Lemma shape2_lattice0 : shape2 lattice0 (Z.to_nat 2) (Z.to_nat 2).
Proof. split; [reflexivity | repeat constructor]. Qed.

Lemma cellEnergy_lattice0 : cellEnergy lattice0 2 0 0 = -4.
Proof.
  apply (cellEnergy_aligned lattice0 2 0 0 0); try lia.
  intros i j Hi Hj.
  assert (Ei : i = 0%Z \/ i = 1%Z) by lia.
  assert (Ej : j = 0%Z \/ j = 1%Z) by lia.
  destruct Ei as [-> | ->], Ej as [-> | ->]; reflexivity.
Qed.

Lemma cellEnergy_perturbed (w : R) :
  cellEnergy (with_angle lattice0 0 0 w) 2 0 0 = 2 * (1 - 3 * cos w ^ 2).
Proof.
  unfold cellEnergy, neighbors, sum_list, pair_term.
  change ((0 + 1) mod 2)%Z with 1%Z. change ((0 - 1) mod 2)%Z with 1%Z.
  cbn [map fold_right fst snd].
  change (theta (with_angle lattice0 0 0 w) 0 0) with w.
  change (theta (with_angle lattice0 0 0 w) 1 0) with 0.
  change (theta (with_angle lattice0 0 0 w) 0 1) with 0.
  replace (w - 0) with w by ring. lra.
Qed.

(** The first attempt of the sweep: the cell (0,0) is perturbed, its energy
    rises, and the attempt is not counted. *)
Lemma first_attempt (u : nat -> R) :
  exists s1,
    attempt (sweep_draws u) (0.1 + 1) 2 0 0 (mc_init lattice0) = Some s1 /\
    after_first (0 + (0.1 + 1) * 1) s1 /\ st_accept s1 = 0%Z /\
    st_en0 s1 < st_en1 s1 /\ st_nunif s1 = 0%nat.
Proof.
  eexists. split.
  - apply (attempt_value (sweep_draws u) (0.1 + 1) 2 0 0 (mc_init lattice0)
             0 0 1); try reflexivity; try (unfold INT_MAX; lia); try lra.
    apply shape2_lattice0.
  - cbv zeta. unfold after_first.
    cbn [mc_init st_arr st_accept st_en0 st_en1 st_nint st_nnorm st_nunif].
    change (theta lattice0 0 0) with 0.
    rewrite cellEnergy_lattice0, cellEnergy_perturbed.
    assert (Hc : cos (0 + (0.1 + 1) * 1) ^ 2 < 1).
    { apply cos_sqr_lt_1. pose proof PI_gt_3. lra. }
    destruct (Rle_dec _ _) as [Hle | _]; [lra |].
    repeat split; try lia; try lra; try reflexivity; repeat constructor.
Qed.

(** C1, as the code has it. On the aligned 2 x 2 lattice at T = 1, the
    first attempt of the sweep adds 1.1 to the angle of the cell (0,0) and
    raises its energy from -4; the Boltzmann weight of that move is below 1,
    so a uniform draw can reject it. Yet whatever the uniform draws are, the
    sweep consumes two of them only (one per row, for the last attempt of
    the row) and returns a lattice in which the cell (0,0) keeps the
    perturbed angle: the move was never tested and never reverted. *)
Theorem MC_step_unchecked_move (u : nat -> R) :
  let w := 0 + (0.1 + 1) * 1 in
  one_energy lattice0 0 0 2 = Some (-4) /\
  (exists en1, one_energy (with_angle lattice0 0 0 w) 0 0 2 = Some en1 /\
               -4 < en1 /\ exp (- (en1 - -4) / 1) < 1) /\
  exists s r,
    MC_sweep (sweep_draws u) lattice0 1 2 = Some s /\
    MC_step (sweep_draws u) lattice0 1 2 = Some (st_arr s, r) /\
    st_nunif s = 2%nat /\
    get2 (st_arr s) 0 0 = Some w.
Proof.
  intros w.
  assert (HN : (0 < 2 <= INT_MAX)%Z) by (unfold INT_MAX; lia).
  assert (Hc : cos w ^ 2 < 1).
  { apply cos_sqr_lt_1. unfold w. pose proof PI_gt_3. lra. }
  split; [| split].
  - rewrite (one_energy_value lattice0 2 0 0 HN shape2_lattice0) by lia.
    rewrite cellEnergy_lattice0. reflexivity.
  - exists (2 * (1 - 3 * cos w ^ 2)). split; [| split].
    + assert (Hs : shape2 (with_angle lattice0 0 0 w) (Z.to_nat 2) (Z.to_nat 2))
        by (apply shape2_with_angle; [apply shape2_lattice0 | lia]).
      rewrite (one_energy_value _ 2 0 0 HN Hs) by lia.
      rewrite cellEnergy_perturbed. reflexivity.
    + lra.
    + apply Rlt_le_trans with (exp 0); [| rewrite exp_0; lra].
      apply exp_increasing. lra.
  - destruct (first_attempt u) as (s1 & E1 & J1 & _ & _ & U1).
    destruct (attempt_after_first u (0.1 + 1) w 0 (0 + 1) s1)
      as (s2 & E2 & J2 & X2 & Y2 & U2); try lra; try lia; [exact J1 |].
    destruct (row_else_after_first (sweep_draws u) 1 w s2)
      as (s3 & E3 & J3 & U3); try lra; try assumption.
    destruct (attempt_after_first u (0.1 + 1) w (0 + 1) 0 s3)
      as (s4 & E4 & J4 & _ & _ & U4); try lra; try lia; [exact J3 |].
    destruct (attempt_after_first u (0.1 + 1) w (0 + 1) (0 + 1) s4)
      as (s5 & E5 & J5 & X5 & Y5 & U5); try lra; try lia; [exact J4 |].
    destruct (row_else_after_first (sweep_draws u) 1 w s5)
      as (s6 & E6 & J6 & U6); try lra; try assumption.
    assert (Esweep : MC_sweep (sweep_draws u) lattice0 1 2 = Some s6).
    { unfold MC_sweep, for_range. change (Z.to_nat 2) with 2%nat.
      cbn [for_loop bind]. rewrite E1. cbn [bind]. rewrite E2. cbn [bind].
      rewrite E3. cbn [bind]. rewrite E4. cbn [bind]. rewrite E5. cbn [bind].
      rewrite E6. reflexivity. }
    exists s6, (IZR (st_accept s6) / IZR 4). split; [exact Esweep |].
    split; [| split].
    + unfold MC_step. rewrite Esweep. reflexivity.
    + lia.
    + destruct J6 as (_ & _ & Hs & Hv).
      rewrite (get2_theta _ (Z.to_nat 2) (Z.to_nat 2)) by (auto; lia).
      rewrite Hv. reflexivity.
Qed.

(** ** Nested loops and three-dimensional arrays *)

(** The loop rule for two nested loops: the invariant is indexed by the
    position [(i, j)] about to be visited. *)
Lemma for_range2_inv {St : Type} (P : Z -> Z -> St -> Prop) (n m : Z)
  (body : Z -> Z -> St -> option St) (s : St) :
  (0 <= n)%Z -> (0 <= m)%Z ->
  P 0%Z 0%Z s ->
  (forall i j t, (0 <= i < n)%Z -> (0 <= j < m)%Z -> P i j t ->
     exists t', body i j t = Some t' /\ P i (j + 1)%Z t') ->
  (forall i t, (0 <= i < n)%Z -> P i m t -> P (i + 1)%Z 0%Z t) ->
  exists s',
    for_range n (fun i s => for_range m (fun j s => body i j s) s) s = Some s'
    /\ P n 0%Z s'.
Proof.
  intros Hn Hm H0 Hstep Hrow.
  apply (for_range_inv (fun i t => P i 0%Z t)); [exact Hn | exact H0 |].
  intros i t Hi Ht.
  destruct (for_range_inv (fun j t' => P i j t') m (fun j s0 => body i j s0) t)
    as [t' [E Ht']]; [exact Hm | exact Ht | |].
  - intros j t0 Hj Ht0. apply Hstep; assumption.
  - exists t'. split; [exact E |]. apply Hrow; assumption.
Qed.

Lemma get3_theta3 (lab : list lattice) (k n m : nat) (a i j : Z) :
  shape3 lab k n m -> (0 <= a < Z.of_nat k)%Z ->
  (0 <= i < Z.of_nat n)%Z -> (0 <= j < Z.of_nat m)%Z ->
  get3 lab a i j = Some (theta3 lab a i j).
Proof.
  intros [Hlen Hpl] Ha Hi Hj. unfold get3, theta3.
  rewrite (index_nth lab a []) by lia. cbn [bind].
  apply (get2_theta _ n m); try assumption.
  rewrite Forall_forall in Hpl. apply Hpl, nth_In. lia.
Qed.

Lemma shape3_plane (lab : list lattice) (k n m : nat) (a : nat) :
  shape3 lab k n m -> (a < k)%nat -> shape2 (nth a lab []) n m.
Proof.
  intros [Hlen Hpl] Ha. rewrite Forall_forall in Hpl.
  apply Hpl, nth_In. lia.
Qed.

(** A successful write [lab[a, i, j] = v] keeps the shape, reads back [v]
    at [(a, i, j)] and leaves every other entry as it was. *)
Lemma set3_value (lab : list lattice) (k n m : nat) (a i j : Z) (v : R) :
  shape3 lab k n m -> (0 <= a < Z.of_nat k)%Z ->
  (0 <= i < Z.of_nat n)%Z -> (0 <= j < Z.of_nat m)%Z ->
  exists lab', set3 lab a i j v = Some lab' /\
    shape3 lab' k n m /\
    theta3 lab' a i j = v /\
    (forall a' i' j', (0 <= a')%Z -> (0 <= i')%Z -> (0 <= j')%Z ->
       (a', i', j') <> (a, i, j) -> theta3 lab' a' i' j' = theta3 lab a' i' j').
Proof.
  intros Hs Ha Hi Hj. pose proof Hs as [Hlen Hpl].
  assert (Hp : shape2 (nth (Z.to_nat a) lab []) n m)
    by (apply (shape3_plane lab k n m); [assumption | lia]).
  exists (upd lab (Z.to_nat a) (with_angle (nth (Z.to_nat a) lab []) i j v)).
  split; [| split; [| split]].
  - unfold set3. rewrite (index_nth lab a []) by lia. cbn [bind].
    rewrite (set2_with_angle _ n m) by assumption. cbn [bind].
    apply set_index_in_range. lia.
  - split.
    + rewrite length_upd. exact Hlen.
    + apply Forall_upd; [exact Hpl |]. apply shape2_with_angle; assumption.
  - unfold theta3. rewrite nth_upd_same by lia.
    apply (theta_with_angle_same _ n m); assumption.
  - intros a' i' j' Ha' Hi' Hj' Hne. unfold theta3.
    destruct (Z.eq_dec a' a) as [-> | Hna].
    + rewrite nth_upd_same by lia.
      apply (theta_with_angle_other _ n m); try assumption; try lia.
      congruence.
    + rewrite nth_upd_other by lia. reflexivity.
Qed.

Lemma theta_zeros (n m : nat) (i j : Z) :
  theta (repeat (repeat 0 m) n) i j = 0.
Proof.
  unfold theta.
  destruct (Nat.lt_ge_cases (Z.to_nat i) n) as [Hi | Hi].
  - rewrite (nth_repeat_lt _ _ Hi).
    destruct (Nat.lt_ge_cases (Z.to_nat j) m) as [Hj | Hj].
    + apply nth_repeat_lt. exact Hj.
    + apply nth_overflow. rewrite repeat_length. exact Hj.
  - rewrite (nth_overflow (repeat (repeat 0 m) n))
      by (rewrite repeat_length; exact Hi).
    destruct (Z.to_nat j); reflexivity.
Qed.

Lemma shape2_zeros (n m : nat) : shape2 (repeat (repeat 0 m) n) n m.
Proof.
  split; [apply repeat_length |].
  apply Forall_forall. intros row Hin. apply repeat_spec in Hin. subst row.
  apply repeat_length.
Qed.

Lemma zeros3_value (k N : Z) :
  (0 <= k)%Z -> (0 <= N)%Z ->
  exists lab, zeros3 k N N = Some lab /\
    shape3 lab (Z.to_nat k) (Z.to_nat N) (Z.to_nat N) /\
    (forall a i j, theta3 lab a i j = 0).
Proof.
  intros Hk HN. unfold zeros3.
  destruct (Z.ltb_spec k 0); [lia |]. destruct (Z.ltb_spec N 0); [lia |].
  cbn [orb]. eexists. split; [reflexivity |]. split; [split |].
  - apply repeat_length.
  - apply Forall_forall. intros pl Hin. apply repeat_spec in Hin. subst pl.
    apply shape2_zeros.
  - intros a i j. unfold theta3.
    destruct (Nat.lt_ge_cases (Z.to_nat a) (Z.to_nat k)) as [Ha | Ha].
    + rewrite (nth_repeat_lt _ _ Ha). apply theta_zeros.
    + rewrite nth_overflow by (rewrite repeat_length; exact Ha).
      unfold theta. destruct (Z.to_nat i), (Z.to_nat j); reflexivity.
Qed.

(** ** The order tensor *)

Lemma director_values (t : R) :
  director 0 t = cos t /\ director 1 t = sin t /\ director 2 t = 0.
Proof. repeat split. Qed.

(** Lines 212-215 leave in [lab] the director components of every cell. *)
Lemma fill_lab_value (arr : lattice) (N : Z) (lab0 : list lattice) :
  (0 <= N)%Z -> shape2 arr (Z.to_nat N) (Z.to_nat N) ->
  shape3 lab0 (Z.to_nat 3) (Z.to_nat N) (Z.to_nat N) ->
  (forall i j, theta3 lab0 2 i j = 0) ->
  exists lab,
    fill_lab (map (map cos) arr) (map (map sin) arr) N lab0 = Some lab /\
    shape3 lab (Z.to_nat 3) (Z.to_nat N) (Z.to_nat N) /\
    (forall a i j, (0 <= a < 3)%Z -> (0 <= i < N)%Z -> (0 <= j < N)%Z ->
       theta3 lab a i j = director a (theta arr i j)).
Proof.
  intros HN Hs Hs0 Hz0.
  set (P := fun (i j : Z) (lab : list lattice) =>
    shape3 lab (Z.to_nat 3) (Z.to_nat N) (Z.to_nat N) /\
    (forall i' j', (0 <= i')%Z -> (0 <= j' < N)%Z -> before i j i' j' ->
       theta3 lab 0 i' j' = cos (theta arr i' j') /\
       theta3 lab 1 i' j' = sin (theta arr i' j')) /\
    (forall i' j', (0 <= i')%Z -> (0 <= j')%Z -> theta3 lab 2 i' j' = 0)).
  destruct (for_range2_inv P N N
              (fun i j lab =>
                 c <- get2 (map (map cos) arr) i j ;;
                 lab <- set3 lab 0 i j c ;;
                 s <- get2 (map (map sin) arr) i j ;;
                 set3 lab 1 i j s) lab0) as [lab [E HP]];
    try assumption.
  - split; [exact Hs0 | split].
    + intros i' j' Hi' Hj' [Hb | [_ Hb]]; lia.
    + intros. apply Hz0.
  - intros i j t Hi Hj (Hst & Hdone & Hz).
    rewrite !get2_map.
    rewrite (get2_theta arr (Z.to_nat N) (Z.to_nat N)) by (auto; lia).
    cbn [option_map bind].
    destruct (set3_value t _ _ _ 0 i j (cos (theta arr i j)) Hst)
      as (t1 & E1 & Hs1 & V1 & O1); try lia.
    rewrite E1. cbn [bind].
    destruct (set3_value t1 _ _ _ 1 i j (sin (theta arr i j)) Hs1)
      as (t2 & E2 & Hs2 & V2 & O2); try lia.
    exists t2. split; [exact E2 |]. split; [exact Hs2 | split].
    + intros i' j' Hi' Hj' Hb.
      destruct (Z.eq_dec i' i) as [-> | Hni];
        [destruct (Z.eq_dec j' j) as [-> | Hnj] |].
      * split; [| exact V2].
        rewrite O2 by (try lia; congruence). exact V1.
      * rewrite !O2, !O1 by (try lia; congruence).
        apply Hdone; try lia. destruct Hb as [Hb | [_ Hb]]; [lia |].
        right. lia.
      * rewrite !O2, !O1 by (try lia; congruence).
        apply Hdone; try lia. destruct Hb as [Hb | [Hb _]]; [| lia].
        left. exact Hb.
    + intros i' j' Hi' Hj'.
      rewrite O2, O1 by (try lia; congruence). apply Hz; assumption.
  - intros i t Hi (Hst & Hdone & Hz). split; [exact Hst | split; [| exact Hz]].
    intros i' j' Hi' Hj' [Hb | [_ Hb]]; [| lia].
    apply Hdone; try lia.
    destruct (Z.eq_dec i' i) as [-> | Hni]; [right; lia | left; lia].
  - exists lab. split; [exact E |].
    destruct HP as (Hst & Hdone & Hz). split; [exact Hst |].
    intros a i j Ha Hi Hj.
    assert (Ea : a = 0%Z \/ a = 1%Z \/ a = 2%Z) by lia.
    destruct Ea as [-> | [-> | ->]].
    + apply Hdone; try lia. left. lia.
    + apply Hdone; try lia. left. lia.
    + apply Hz; lia.
Qed.

Lemma shape2_eye3 : shape2 eye3 (Z.to_nat 3) (Z.to_nat 3).
Proof. split; [reflexivity | repeat constructor]. Qed.

Lemma get2_eye3 (a b : Z) :
  (0 <= a < 3)%Z -> (0 <= b < 3)%Z -> get2 eye3 a b = Some (kronecker a b).
Proof.
  intros Ha Hb.
  assert (Ea : a = 0%Z \/ a = 1%Z \/ a = 2%Z) by lia.
  assert (Eb : b = 0%Z \/ b = 1%Z \/ b = 2%Z) by lia.
  destruct Ea as [-> | [-> | ->]], Eb as [-> | [-> | ->]]; reflexivity.
Qed.

Lemma cell_added_write (Q : lattice) (r c : nat) (a b : Z) (x : R) :
  shape2 Q r c -> (0 <= a < Z.of_nat r)%Z -> (0 <= b < Z.of_nat c)%Z ->
  cell_added Q (with_angle Q a b (theta Q a b + x)) r c a b x.
Proof.
  intros Hs Ha Hb. split; [| split].
  - apply shape2_with_angle; assumption.
  - apply (theta_with_angle_same Q r c); assumption.
  - intros a' b' Ha' Hb' Hne.
    apply (theta_with_angle_other Q r c); try assumption; lia.
Qed.

Lemma cell_added_trans (Q Q1 Q2 : lattice) (r c : nat) (a b : Z) (x y : R) :
  cell_added Q Q1 r c a b x -> cell_added Q1 Q2 r c a b y ->
  cell_added Q Q2 r c a b (x + y).
Proof.
  intros (_ & V1 & O1) (S2 & V2 & O2). split; [exact S2 | split].
  - rewrite V2, V1. ring.
  - intros a' b' Ha' Hb' Hne. rewrite O2, O1 by assumption. reflexivity.
Qed.

(** Lines 219-221 for a fixed [(a, b)]: the two inner loops add the sum of
    the cell contributions to [Qab[a, b]] and touch nothing else. *)
Lemma accumulate_cell (arr : lattice) (lab : list lattice) (N a b : Z)
  (Q : lattice) :
  (0 <= N)%Z ->
  shape3 lab (Z.to_nat 3) (Z.to_nat N) (Z.to_nat N) ->
  (forall a i j, (0 <= a < 3)%Z -> (0 <= i < N)%Z -> (0 <= j < N)%Z ->
     theta3 lab a i j = director a (theta arr i j)) ->
  shape2 Q (Z.to_nat 3) (Z.to_nat 3) -> (0 <= a < 3)%Z -> (0 <= b < 3)%Z ->
  exists Q',
    for_range N (fun i Qab =>
      for_range N (fun j Qab =>
        q <- get2 Qab a b ;;
        la <- get3 lab a i j ;;
        lb <- get3 lab b i j ;;
        d <- get2 eye3 a b ;;
        set2 Qab a b (q + (3 * la * lb - d))) Qab) Q = Some Q' /\
    cell_added Q Q' (Z.to_nat 3) (Z.to_nat 3) a b (Q_sum arr N a b).
Proof.
  intros HN Hlab Hdir HQ Ha Hb. unfold Q_sum, sum2.
  set (row := fun i => big_sum (Z.to_nat N) (fun j => Q_term arr a b i j)).
  set (P := fun (i j : Z) (Q' : lattice) =>
    cell_added Q Q' (Z.to_nat 3) (Z.to_nat 3) a b
      (big_sum (Z.to_nat i) row
       + big_sum (Z.to_nat j) (fun j => Q_term arr a b i j))).
  destruct (for_range2_inv P N N
              (fun i j Qab =>
                 q <- get2 Qab a b ;;
                 la <- get3 lab a i j ;;
                 lb <- get3 lab b i j ;;
                 d <- get2 eye3 a b ;;
                 set2 Qab a b (q + (3 * la * lb - d))) Q) as [Q' [E HP]];
    try assumption.
  - unfold P. cbn [Z.to_nat big_sum]. split; [exact HQ | split].
    + ring.
    + reflexivity.
  - intros i j t Hi Hj Ht. pose proof Ht as (Hst & _ & _).
    rewrite (get2_theta t (Z.to_nat 3) (Z.to_nat 3)) by (auto; lia).
    rewrite !(get3_theta3 lab (Z.to_nat 3) (Z.to_nat N) (Z.to_nat N))
      by (auto; lia).
    rewrite get2_eye3 by assumption. cbn [bind].
    rewrite (set2_with_angle t (Z.to_nat 3) (Z.to_nat 3)) by (auto; lia).
    eexists. split; [reflexivity |]. unfold P.
    replace (Z.to_nat (j + 1)) with (S (Z.to_nat j)) by lia.
    cbn [big_sum]. rewrite Z2Nat.id by lia. rewrite <- Rplus_assoc.
    eapply cell_added_trans; [exact Ht |].
    rewrite !Hdir by lia.
    apply cell_added_write; [exact Hst | lia | lia].
  - intros i t Hi Ht. unfold P in *.
    replace (Z.to_nat (i + 1)) with (S (Z.to_nat i)) by lia.
    cbn [Z.to_nat big_sum]. rewrite Z2Nat.id by lia. rewrite Rplus_0_r.
    exact Ht.
  - exists Q'. split; [exact E |]. unfold P in HP.
    cbn [Z.to_nat big_sum] in HP. rewrite Rplus_0_r in HP. exact HP.
Qed.

(** Two nested loops over the entries of a matrix, whose body rewrites the
    entry it visits by [F] and leaves the others alone, rewrite every entry
    by [F]. *)
Lemma for_each_entry (F : Z -> Z -> R -> R) (n m : Z)
  (body : Z -> Z -> lattice -> option lattice) (Q0 : lattice) :
  (0 <= n)%Z -> (0 <= m)%Z ->
  shape2 Q0 (Z.to_nat n) (Z.to_nat m) ->
  (forall a b Q, (0 <= a < n)%Z -> (0 <= b < m)%Z ->
     shape2 Q (Z.to_nat n) (Z.to_nat m) ->
     exists Q', body a b Q = Some Q' /\
       shape2 Q' (Z.to_nat n) (Z.to_nat m) /\
       theta Q' a b = F a b (theta Q a b) /\
       (forall a' b', (0 <= a')%Z -> (0 <= b')%Z -> (a', b') <> (a, b) ->
          theta Q' a' b' = theta Q a' b')) ->
  exists Q',
    for_range n (fun a Q => for_range m (fun b Q => body a b Q) Q) Q0 = Some Q'
    /\ shape2 Q' (Z.to_nat n) (Z.to_nat m)
    /\ (forall a b, (0 <= a < n)%Z -> (0 <= b < m)%Z ->
          theta Q' a b = F a b (theta Q0 a b)).
Proof.
  intros Hn Hm Hs0 Hbody.
  set (P := fun (a b : Z) (Q : lattice) =>
    shape2 Q (Z.to_nat n) (Z.to_nat m) /\
    (forall a' b', (0 <= a')%Z -> (0 <= b' < m)%Z ->
       (before a b a' b' -> theta Q a' b' = F a' b' (theta Q0 a' b')) /\
       (~ before a b a' b' -> theta Q a' b' = theta Q0 a' b'))).
  destruct (for_range2_inv P n m body Q0) as [Q' [E [HsQ HP]]];
    try assumption.
  - split; [exact Hs0 |]. intros a' b' Ha' Hb'. split; [| reflexivity].
    intros [Hb | [_ Hb]]; lia.
  - intros a b Q Ha Hb [HsQ HQ].
    destruct (Hbody a b Q Ha Hb HsQ) as (Q' & E & HsQ' & V & O).
    exists Q'. split; [exact E |]. split; [exact HsQ' |].
    intros a' b' Ha' Hb'.
    destruct (Z.eq_dec a' a) as [-> | Hna];
      [destruct (Z.eq_dec b' b) as [-> | Hnb] |].
    + split.
      * intros _. rewrite V. f_equal. apply HQ; try lia.
        intros [Hlt | [_ Hlt]]; lia.
      * intros Hnb. exfalso. apply Hnb. right. lia.
    + rewrite O by (try lia; congruence). split.
      * intros [Hlt | [_ Hlt]]; [lia |]. apply HQ; try lia. right. lia.
      * intros Hnb'. apply HQ; try lia.
        intros [Hlt | [_ Hlt]]; apply Hnb'; [left | right]; lia.
    + rewrite O by (try lia; congruence). split.
      * intros [Hlt | [Heq _]]; [| lia]. apply HQ; try lia. left. lia.
      * intros Hnb'. apply HQ; try lia.
        intros [Hlt | [Heq _]]; apply Hnb'; [left | right]; lia.
  - intros a Q Ha [HsQ HQ]. split; [exact HsQ |].
    intros a' b' Ha' Hb'. split.
    + intros [Hlt | [_ Hlt]]; [| lia]. apply HQ; try lia.
      destruct (Z.eq_dec a' a) as [-> | Hna]; [right | left]; lia.
    + intros Hnb'. apply HQ; try lia.
      intros [Hlt | [Heq Hlt]]; apply Hnb'; left; lia.
  - exists Q'. split; [exact E |]. split; [exact HsQ |].
    intros a b Ha Hb. apply HP; try lia. left. lia.
Qed.

(** Lines 217-221: every entry of [Qab] receives the sum of its cell
    contributions. *)
Lemma accumulate_value (arr : lattice) (lab : list lattice) (N : Z) (Q0 : lattice) :
  (0 <= N)%Z ->
  shape3 lab (Z.to_nat 3) (Z.to_nat N) (Z.to_nat N) ->
  (forall a i j, (0 <= a < 3)%Z -> (0 <= i < N)%Z -> (0 <= j < N)%Z ->
     theta3 lab a i j = director a (theta arr i j)) ->
  shape2 Q0 (Z.to_nat 3) (Z.to_nat 3) ->
  exists Q,
    accumulate_Qab lab eye3 N Q0 = Some Q /\
    shape2 Q (Z.to_nat 3) (Z.to_nat 3) /\
    (forall a b, (0 <= a < 3)%Z -> (0 <= b < 3)%Z ->
       theta Q a b = theta Q0 a b + Q_sum arr N a b).
Proof.
  intros HN Hlab Hdir HQ0. unfold accumulate_Qab.
  apply (for_each_entry (fun a b x => x + Q_sum arr N a b) 3 3
           (fun a b Qab =>
              for_range N (fun i Qab =>
                for_range N (fun j Qab =>
                  q <- get2 Qab a b ;;
                  la <- get3 lab a i j ;;
                  lb <- get3 lab b i j ;;
                  d <- get2 eye3 a b ;;
                  set2 Qab a b (q + (3 * la * lb - d))) Qab) Qab));
    try lia; try assumption.
  intros a b Q Ha Hb HsQ.
  destruct (accumulate_cell arr lab N a b Q HN Hlab Hdir HsQ Ha Hb)
    as (Q' & E & HsQ' & V & O).
  exists Q'. auto.
Qed.

(** Lines 224-226: every entry of [Qab] is divided by [tmp]. *)
Lemma normalise_value (tmp : R) (Q0 : lattice) :
  tmp <> 0 -> shape2 Q0 (Z.to_nat 3) (Z.to_nat 3) ->
  exists Q,
    normalise_Qab tmp Q0 = Some Q /\
    shape2 Q (Z.to_nat 3) (Z.to_nat 3) /\
    (forall a b, (0 <= a < 3)%Z -> (0 <= b < 3)%Z ->
       theta Q a b = theta Q0 a b / tmp).
Proof.
  intros Htmp HQ0. unfold normalise_Qab.
  apply (for_each_entry (fun a b x => x / tmp) 3 3
           (fun a b Qab =>
              q <- get2 Qab a b ;;
              set2 Qab a b (q / tmp)));
    try lia; try assumption.
  intros a b Q Ha Hb HsQ.
  rewrite (get2_theta Q (Z.to_nat 3) (Z.to_nat 3)) by (auto; lia).
  cbn [bind].
  rewrite (set2_with_angle Q (Z.to_nat 3) (Z.to_nat 3)) by (auto; lia).
  eexists. split; [reflexivity |]. split; [| split].
  - apply shape2_with_angle; [assumption | lia].
  - apply (theta_with_angle_same Q (Z.to_nat 3) (Z.to_nat 3)); auto; lia.
  - intros a' b' Ha' Hb' Hne.
    apply (theta_with_angle_other Q (Z.to_nat 3) (Z.to_nat 3)); auto; lia.
Qed.

(** What [order_tensor] returns on an N x N lattice: a 3 x 3 matrix whose
    entry [(a, b)] is the sum of 3 d_a d_b - delta_ab over the cells,
    divided by [tmp], the product 2 * nmax * nmax as the C [int]
    arithmetic gives it. *)
Lemma order_tensor_entries (arr : lattice) (N : Z) :
  (0 <= N)%Z -> shape2 arr (Z.to_nat N) (Z.to_nat N) ->
  int_mul (int_mul 2 N) N <> 0%Z ->
  exists Q,
    order_tensor arr N = Some Q /\
    shape2 Q (Z.to_nat 3) (Z.to_nat 3) /\
    (forall a b, (0 <= a < 3)%Z -> (0 <= b < 3)%Z ->
       theta Q a b = Q_sum arr N a b / IZR (int_mul (int_mul 2 N) N)).
Proof.
  intros HN Hs Htmp. unfold order_tensor.
  change (zeros2 3 3) with (Some (repeat (repeat 0 (Z.to_nat 3)) (Z.to_nat 3))).
  cbn [bind].
  destruct (zeros3_value 3 N) as (lab0 & E0 & Hs0 & Hz0); try lia.
  rewrite E0. cbn [bind].
  destruct (fill_lab_value arr N lab0) as (lab & E1 & Hs1 & Hdir);
    try assumption; try lia.
  { intros i j. apply Hz0. }
  rewrite E1. cbn [bind].
  destruct (accumulate_value arr lab N
              (repeat (repeat 0 (Z.to_nat 3)) (Z.to_nat 3)))
    as (Q1 & E2 & Hs2 & V2); try assumption; try lia.
  { apply shape2_zeros. }
  rewrite E2. cbn [bind].
  destruct (normalise_value (IZR (int_mul (int_mul 2 N) N)) Q1)
    as (Q & E3 & Hs3 & V3); try assumption.
  { apply not_0_IZR. exact Htmp. }
  exists Q. split; [exact E3 |]. split; [exact Hs3 |].
  intros a b Ha Hb. rewrite V3, V2 by assumption.
  rewrite theta_zeros. f_equal. ring.
Qed.

(** When 2 N^2 fits a C [int], [tmp] is 2 N^2. *)
Lemma order_tensor_value (arr : lattice) (N : Z) :
  (0 < N)%Z -> (2 * N * N <= INT_MAX)%Z ->
  shape2 arr (Z.to_nat N) (Z.to_nat N) ->
  exists Q,
    order_tensor arr N = Some Q /\
    shape2 Q (Z.to_nat 3) (Z.to_nat 3) /\
    (forall a b, (0 <= a < 3)%Z -> (0 <= b < 3)%Z ->
       theta Q a b = Q_entry arr N a b).
Proof.
  intros HN Hmax Hs.
  assert (Ei : int_mul (int_mul 2 N) N = (2 * N * N)%Z).
  { unfold int_mul. rewrite (wrap_int_small (2 * N)) by (unfold INT_MAX in *; nia).
    apply wrap_int_small. unfold INT_MAX in *. nia. }
  destruct (order_tensor_entries arr N) as (Q & E & HsQ & V);
    try assumption; try lia.
  exists Q. split; [exact E |]. split; [exact HsQ |].
  intros a b Ha Hb. rewrite V by assumption. unfold Q_entry.
  rewrite Ei, !mult_IZR. reflexivity.
Qed.

(** ** Sums over the lattice *)

Lemma big_sum_plus (n : nat) (f g : Z -> R) :
  big_sum n (fun i => f i + g i) = big_sum n f + big_sum n g.
Proof.
  induction n as [| n IH]; cbn [big_sum]; [ring |]. rewrite IH. ring.
Qed.

Lemma big_sum_scal (n : nat) (c : R) (f : Z -> R) :
  big_sum n (fun i => c * f i) = c * big_sum n f.
Proof.
  induction n as [| n IH]; cbn [big_sum]; [ring |]. rewrite IH. ring.
Qed.

Lemma sum2_ext (n : nat) (F G : Z -> Z -> R) :
  (forall i j, (0 <= i < Z.of_nat n)%Z -> (0 <= j < Z.of_nat n)%Z ->
     F i j = G i j) ->
  sum2 n F = sum2 n G.
Proof.
  intros H. unfold sum2. apply big_sum_ext. intros i Hi.
  apply big_sum_ext. intros j Hj. apply H; assumption.
Qed.

Lemma sum2_const (n : nat) (c : R) :
  sum2 n (fun _ _ => c) = INR n * INR n * c.
Proof.
  unfold sum2. rewrite (big_sum_ext _ _ (fun _ => INR n * c)).
  - rewrite big_sum_const. ring.
  - intros i _. apply big_sum_const.
Qed.

Lemma sum2_plus (n : nat) (F G : Z -> Z -> R) :
  sum2 n (fun i j => F i j + G i j) = sum2 n F + sum2 n G.
Proof.
  unfold sum2. rewrite <- big_sum_plus. apply big_sum_ext. intros i _.
  apply big_sum_plus.
Qed.

Lemma sum2_scal (n : nat) (c : R) (F : Z -> Z -> R) :
  sum2 n (fun i j => c * F i j) = c * sum2 n F.
Proof.
  unfold sum2. rewrite <- big_sum_scal. apply big_sum_ext. intros i _.
  apply big_sum_scal.
Qed.

(** The triangle inequality for sums of plane vectors [(f i, g i)] of
    length at most [c i]. *)
Lemma big_sum_norm (n : nat) (f g c : Z -> R) :
  (forall i, (0 <= i < Z.of_nat n)%Z ->
     f i ^ 2 + g i ^ 2 <= c i ^ 2 /\ 0 <= c i) ->
  big_sum n f ^ 2 + big_sum n g ^ 2 <= big_sum n c ^ 2 /\ 0 <= big_sum n c.
Proof.
  induction n as [| n IH]; intros H; cbn [big_sum].
  - split; lra.
  - destruct IH as [IH1 IH2]; [intros i Hi; apply H; lia |].
    destruct (H (Z.of_nat n)) as [H1 H2]; [lia |].
    set (A := big_sum n f) in *. set (B := big_sum n g) in *.
    set (C := big_sum n c) in *.
    set (a := f (Z.of_nat n)) in *. set (b := g (Z.of_nat n)) in *.
    set (d := c (Z.of_nat n)) in *.
    split; [| lra].
    assert (Hcs : (A * a + B * b) ^ 2 <= (C * d) ^ 2).
    { assert (Hsq : 0 <= (A * b - B * a) ^ 2) by apply pow2_ge_0.
      assert (Hp : (A ^ 2 + B ^ 2) * (a ^ 2 + b ^ 2) <= C ^ 2 * d ^ 2).
      { apply Rmult_le_compat; try assumption;
          apply Rplus_le_le_0_compat; apply pow2_ge_0. }
      nra. }
    assert (Hab : A * a + B * b <= C * d).
    { destruct (Rle_lt_dec (A * a + B * b) (C * d)) as [Hle | Hgt];
        [exact Hle |]. exfalso.
      assert (0 <= C * d) by (apply Rmult_le_pos; assumption). nra. }
    nra.
Qed.

Lemma sum2_norm (n : nat) (F G : Z -> Z -> R) (c : R) :
  0 <= c ->
  (forall i j, (0 <= i < Z.of_nat n)%Z -> (0 <= j < Z.of_nat n)%Z ->
     F i j ^ 2 + G i j ^ 2 <= c ^ 2) ->
  sum2 n F ^ 2 + sum2 n G ^ 2 <= (INR n * INR n * c) ^ 2.
Proof.
  intros Hc H. unfold sum2.
  destruct (big_sum_norm n
              (fun i => big_sum n (fun j => F i j))
              (fun i => big_sum n (fun j => G i j))
              (fun _ => INR n * c)) as [Hb _].
  - intros i Hi.
    destruct (big_sum_norm n (fun j => F i j) (fun j => G i j) (fun _ => c))
      as [Hr Hp].
    + intros j Hj. split; [apply H; assumption | exact Hc].
    + rewrite big_sum_const in Hr, Hp. split; assumption.
  - rewrite big_sum_const in Hb.
    replace (INR n * INR n * c) with (INR n * (INR n * c)) by ring. exact Hb.
Qed.

(** ** The entries of the order tensor *)

Lemma INR_to_nat (N : Z) : (0 <= N)%Z -> INR (Z.to_nat N) = IZR N.
Proof. intros H. rewrite INR_IZR_INZ, Z2Nat.id by exact H. reflexivity. Qed.

Lemma cos_sin_sqr (t : R) : cos t ^ 2 + sin t ^ 2 = 1.
Proof. pose proof (sin2_cos2 t) as E. unfold Rsqr in E. lra. Qed.

Lemma Q_sum_sym (arr : lattice) (N a b : Z) :
  Q_sum arr N a b = Q_sum arr N b a.
Proof.
  unfold Q_sum. apply sum2_ext. intros i j _ _.
  unfold Q_term, kronecker. rewrite (Z.eqb_sym a b). ring.
Qed.

Lemma Q_sum_2b (arr : lattice) (N b : Z) :
  (0 <= N)%Z -> (0 <= b < 2)%Z -> Q_sum arr N 2 b = 0.
Proof.
  intros HN Hb. unfold Q_sum.
  rewrite (sum2_ext _ _ (fun _ _ => 0)); [rewrite sum2_const; ring |].
  intros i j _ _. unfold Q_term, kronecker.
  destruct (Z.eqb_spec 2 b) as [E | _]; [lia |].
  change (director 2 (theta arr i j)) with 0. ring.
Qed.

Lemma Q_sum_22 (arr : lattice) (N : Z) :
  (0 <= N)%Z -> Q_sum arr N 2 2 = - (IZR N * IZR N).
Proof.
  intros HN. unfold Q_sum.
  rewrite (sum2_ext _ _ (fun _ _ => -1)).
  - rewrite sum2_const, INR_to_nat by exact HN. ring.
  - intros i j _ _. unfold Q_term.
    change (director 2 (theta arr i j)) with 0.
    change (kronecker 2 2) with 1. ring.
Qed.

Lemma Q_sum_trace (arr : lattice) (N : Z) :
  (0 <= N)%Z -> Q_sum arr N 0 0 + Q_sum arr N 1 1 = IZR N * IZR N.
Proof.
  intros HN. unfold Q_sum. rewrite <- sum2_plus.
  rewrite (sum2_ext _ _ (fun _ _ => 1)).
  - rewrite sum2_const, INR_to_nat by exact HN. ring.
  - intros i j _ _. unfold Q_term.
    change (director 0 (theta arr i j)) with (cos (theta arr i j)).
    change (director 1 (theta arr i j)) with (sin (theta arr i j)).
    change (kronecker 0 0) with 1. change (kronecker 1 1) with 1.
    pose proof (cos_sin_sqr (theta arr i j)). lra.
Qed.

Lemma Q_term_plane (arr : lattice) (i j : Z) :
  let c := cos (theta arr i j) in
  let s := sin (theta arr i j) in
  Q_term arr 0 0 i j = 3 * c * c - 1 /\
  Q_term arr 1 1 i j = 3 * s * s - 1 /\
  Q_term arr 0 1 i j = 3 * c * s - 0.
Proof. repeat split. Qed.

(** The planar part of the tensor is a sum of N^2 vectors of length 3. *)
Lemma Q_sum_norm (arr : lattice) (N : Z) :
  (0 <= N)%Z ->
  (Q_sum arr N 0 0 - Q_sum arr N 1 1) ^ 2 + (2 * Q_sum arr N 0 1) ^ 2
  <= (IZR N * IZR N * 3) ^ 2.
Proof.
  intros HN. unfold Q_sum.
  replace (sum2 (Z.to_nat N) (Q_term arr 0 0) - sum2 (Z.to_nat N) (Q_term arr 1 1))
    with (sum2 (Z.to_nat N)
            (fun i j => Q_term arr 0 0 i j + -1 * Q_term arr 1 1 i j))
    by (rewrite sum2_plus, sum2_scal; ring).
  rewrite <- sum2_scal. rewrite <- (INR_to_nat N HN).
  apply sum2_norm; [lra |].
  intros i j _ _.
  destruct (Q_term_plane arr i j) as (-> & -> & ->).
  pose proof (cos_sin_sqr (theta arr i j)) as E.
  set (c := cos (theta arr i j)) in *. set (s := sin (theta arr i j)) in *.
  assert (E2 : (c ^ 2 + s ^ 2) ^ 2 = 1) by (rewrite E; ring).
  nra.
Qed.

Lemma Q_sum_aligned (arr : lattice) (N a b : Z) (t : R) :
  (0 <= N)%Z -> aligned arr N t ->
  Q_sum arr N a b
  = IZR N * IZR N * (3 * director a t * director b t - kronecker a b).
Proof.
  intros HN Ha. unfold Q_sum.
  rewrite (sum2_ext _ _ (fun _ _ =>
             3 * director a t * director b t - kronecker a b)).
  - rewrite sum2_const, INR_to_nat by exact HN. reflexivity.
  - intros i j Hi Hj. unfold Q_term. rewrite Ha by lia. reflexivity.
Qed.

(** Everything the estimator's tensor satisfies on an N x N lattice. *)
Lemma order_tensor_facts (arr : lattice) (N : Z) :
  (0 < N)%Z -> (2 * N * N <= INT_MAX)%Z ->
  shape2 arr (Z.to_nat N) (Z.to_nat N) ->
  exists Q,
    order_tensor arr N = Some Q /\
    (forall a b, (0 <= a < 3)%Z -> (0 <= b < 3)%Z ->
       theta Q a b = Q_entry arr N a b /\ theta Q a b = theta Q b a) /\
    (theta Q 0 2 = 0 /\ theta Q 1 2 = 0 /\ theta Q 2 0 = 0 /\ theta Q 2 1 = 0) /\
    theta Q 2 2 = -1 / 2 /\
    theta Q 0 0 + theta Q 1 1 = 1 / 2 /\
    (theta Q 0 0 - theta Q 1 1) ^ 2 + (2 * theta Q 0 1) ^ 2 <= 9 / 4 /\
    (forall t, aligned arr N t ->
       (theta Q 0 0 - theta Q 1 1) ^ 2 + (2 * theta Q 0 1) ^ 2 = 9 / 4).
Proof.
  intros HN Hmax Hs.
  destruct (order_tensor_value arr N HN Hmax Hs) as (Q & E & HsQ & V).
  assert (HN0 : (0 <= N)%Z) by lia.
  assert (HNR : 0 < IZR N) by (apply IZR_lt; exact HN).
  assert (HD : 0 < 2 * IZR N * IZR N) by nra.
  exists Q. split; [exact E |].
  split; [| split; [| split; [| split; [| split]]]].
  - intros a b Ha Hb. split; [apply V; assumption |].
    rewrite !V by assumption. unfold Q_entry. rewrite Q_sum_sym. reflexivity.
  - rewrite !V by lia. unfold Q_entry.
    rewrite (Q_sum_sym arr N 0 2), (Q_sum_sym arr N 1 2).
    rewrite !Q_sum_2b by lia. repeat split; field; lra.
  - rewrite V by lia. unfold Q_entry. rewrite Q_sum_22 by lia. field. lra.
  - rewrite !V by lia. unfold Q_entry.
    replace (Q_sum arr N 0 0 / (2 * IZR N * IZR N)
             + Q_sum arr N 1 1 / (2 * IZR N * IZR N))
      with ((Q_sum arr N 0 0 + Q_sum arr N 1 1) / (2 * IZR N * IZR N))
      by (field; lra).
    rewrite Q_sum_trace by lia. field. lra.
  - rewrite !V by lia. unfold Q_entry.
    pose proof (Q_sum_norm arr N HN0) as Hn.
    set (D := 2 * IZR N * IZR N) in *.
    replace ((Q_sum arr N 0 0 / D - Q_sum arr N 1 1 / D) ^ 2
             + (2 * (Q_sum arr N 0 1 / D)) ^ 2)
      with (((Q_sum arr N 0 0 - Q_sum arr N 1 1) ^ 2
             + (2 * Q_sum arr N 0 1) ^ 2) / D ^ 2) by (field; lra).
    apply Rmult_le_reg_r with (D ^ 2); [nra |].
    unfold Rdiv. rewrite Rmult_assoc, Rinv_l by nra.
    replace (IZR N * IZR N * 3) with (3 / 2 * D) in Hn by (unfold D; field).
    nra.
  - intros t Ha. rewrite !V by lia. unfold Q_entry.
    rewrite !(Q_sum_aligned arr N _ _ t) by assumption.
    change (director 0 t) with (cos t). change (director 1 t) with (sin t).
    change (kronecker 0 0) with 1. change (kronecker 1 1) with 1.
    change (kronecker 0 1) with 0.
    pose proof (cos_sin_sqr t) as Et.
    set (c := cos t) in *. set (s := sin t) in *.
    replace ((IZR N * IZR N * (3 * c * c - 1) / (2 * IZR N * IZR N)
              - IZR N * IZR N * (3 * s * s - 1) / (2 * IZR N * IZR N)) ^ 2
             + (2 * (IZR N * IZR N * (3 * c * s - 0) / (2 * IZR N * IZR N))) ^ 2)
      with (9 / 4 * (c ^ 2 + s ^ 2) ^ 2) by (field; lra).
    rewrite Et. ring.
Qed.

(** The characteristic polynomial of a tensor of that form. *)
Lemma det3_planar (Q : lattice) (x : R) :
  theta Q 0 2 = 0 -> theta Q 1 2 = 0 -> theta Q 2 0 = 0 -> theta Q 2 1 = 0 ->
  theta Q 2 2 = -1 / 2 -> theta Q 1 0 = theta Q 0 1 ->
  theta Q 0 0 + theta Q 1 1 = 1 / 2 ->
  det3 Q x =
  (-1 / 2 - x)
  * ((x - 1 / 4) ^ 2
     - ((theta Q 0 0 - theta Q 1 1) ^ 2 + (2 * theta Q 0 1) ^ 2) / 4).
Proof.
  intros E02 E12 E20 E21 E22 E10 Etr. unfold det3.
  rewrite E02, E12, E20, E21, E22, E10.
  replace (theta Q 1 1) with (1 / 2 - theta Q 0 0) by lra. field.
Qed.

(** The largest of three ascending roots of such a polynomial. *)
Lemma largest_root (l0 l1 l2 r2 : R) :
  (forall x, (l0 - x) * (l1 - x) * (l2 - x)
             = (-1 / 2 - x) * ((x - 1 / 4) ^ 2 - r2)) ->
  0 <= r2 <= 9 / 16 -> l0 <= l1 <= l2 ->
  1 / 4 <= l2 <= 1 /\ (r2 = 9 / 16 -> l2 = 1).
Proof.
  intros H Hr Hl.
  assert (Hup : l2 <= 1).
  { pose proof (H l2) as E. replace (l2 - l2) with 0 in E by ring.
    rewrite Rmult_0_r in E. symmetry in E.
    apply Rmult_integral in E. destruct E as [E | E]; nra. }
  assert (Hlow : 1 / 4 <= l2).
  { pose proof (H (1 / 4)) as E.
    destruct (Rle_lt_dec (1 / 4) l2) as [Hle | Hlt]; [exact Hle |]. exfalso.
    assert (H01 : 0 < (l0 - 1 / 4) * (l1 - 1 / 4)) by nra.
    assert (Hneg : (l0 - 1 / 4) * (l1 - 1 / 4) * (l2 - 1 / 4) < 0) by nra.
    nra. }
  split; [split; assumption |].
  intros Er. pose proof (H 1) as E. rewrite Er in E.
  replace ((-1 / 2 - 1) * ((1 - 1 / 4) ^ 2 - 9 / 16)) with 0 in E by field.
  apply Rmult_integral in E. destruct E as [E | E];
    [apply Rmult_integral in E; destruct E as [E | E] |]; lra.
Qed.

(** ** The estimator on the 1 x 1 lattice *)

Lemma shape2_lattice1 : shape2 lattice1 (Z.to_nat 1) (Z.to_nat 1).
Proof. apply shape2_1x1. Qed.

Lemma aligned_lattice1 : aligned lattice1 1 0.
Proof.
  intros i j Hi Hj. assert (i = 0%Z) as -> by lia. assert (j = 0%Z) as -> by lia.
  reflexivity.
Qed.

(** On [lattice1] the tensor is diag (1, -1/2, -1/2). *)
Lemma order_tensor_lattice1 :
  exists Q,
    order_tensor lattice1 1 = Some Q /\
    (theta Q 0 0 = 1 /\ theta Q 1 1 = -1 / 2 /\ theta Q 2 2 = -1 / 2) /\
    (theta Q 0 1 = 0 /\ theta Q 1 0 = 0) /\
    (theta Q 0 2 = 0 /\ theta Q 1 2 = 0 /\ theta Q 2 0 = 0 /\ theta Q 2 1 = 0).
Proof.
  destruct (order_tensor_facts lattice1 1) as (Q & E & V & Hz & E22 & _);
    try (unfold INT_MAX; lia); try apply shape2_lattice1.
  assert (Hent : forall a b, (0 <= a < 3)%Z -> (0 <= b < 3)%Z ->
            theta Q a b
            = (3 * director a 0 * director b 0 - kronecker a b) / 2).
  { intros a b Ha Hb. destruct (V a b Ha Hb) as [-> _]. unfold Q_entry.
    rewrite (Q_sum_aligned lattice1 1 a b 0) by (try lia; apply aligned_lattice1).
    field. }
  exists Q. split; [exact E |]. split; [| split; [| exact Hz]].
  - rewrite (Hent 0%Z 0%Z), (Hent 1%Z 1%Z) by lia.
    change (director 0 0) with (cos 0). change (director 1 0) with (sin 0).
    change (kronecker 0 0) with 1. change (kronecker 1 1) with 1.
    rewrite cos_0, sin_0. repeat split; lra.
  - rewrite (Hent 0%Z 1%Z), (Hent 1%Z 0%Z) by lia.
    change (director 0 0) with (cos 0). change (director 1 0) with (sin 0).
    change (kronecker 0 1) with 0. change (kronecker 1 0) with 0.
    rewrite cos_0, sin_0. split; lra.
Qed.

Lemma eigen_triple_diag (Q : lattice) :
  theta Q 0 1 = 0 -> theta Q 1 0 = 0 ->
  theta Q 0 2 = 0 -> theta Q 1 2 = 0 -> theta Q 2 0 = 0 -> theta Q 2 1 = 0 ->
  eigen_triple Q (theta Q 0 0) (theta Q 1 1) (theta Q 2 2) /\
  eigen_triple Q (theta Q 2 2) (theta Q 1 1) (theta Q 0 0).
Proof.
  intros E01 E10 E02 E12 E20 E21.
  split; intros x; unfold det3; rewrite E01, E10, E02, E12, E20, E21; ring.
Qed.

(** ** The order-parameter estimator *)

Lemma get_order_value (eigvalsh : list (list R) -> option (list R))
  (arr : lattice) (N : Z) (Q : lattice) (l0 l1 l2 : R) :
  order_tensor arr N = Some Q -> eigvalsh Q = Some [l0; l1; l2] ->
  get_order eigvalsh arr N = Some l2.
Proof.
  intros E Hev. unfold get_order. rewrite E. cbn [bind]. rewrite Hev.
  reflexivity.
Qed.

(** C6, as the code has it. For a lattice of size N with 2 N^2 within the
    range of a C [int] (2 N^2 <= 2^31 - 1, that is N <= 32767), the tensor
    built by the estimator is symmetric and traceless, and the entries of
    its third row and column off the diagonal are zero; the diagonal entry
    [Qab[2, 2]] is -1/2. *)
Theorem order_tensor_invariants (arr : lattice) (N : Z) :
  (0 < N)%Z -> (2 * N * N <= INT_MAX)%Z ->
  shape2 arr (Z.to_nat N) (Z.to_nat N) ->
  exists Q,
    order_tensor arr N = Some Q /\
    (forall a b, (0 <= a < 3)%Z -> (0 <= b < 3)%Z -> theta Q a b = theta Q b a) /\
    theta Q 0 0 + theta Q 1 1 + theta Q 2 2 = 0 /\
    (theta Q 2 0 = 0 /\ theta Q 2 1 = 0 /\ theta Q 0 2 = 0 /\ theta Q 1 2 = 0) /\
    theta Q 2 2 = -1 / 2.
Proof.
  intros HN Hmax Hs.
  destruct (order_tensor_facts arr N HN Hmax Hs)
    as (Q & E & V & (E02 & E12 & E20 & E21) & E22 & Etr & _).
  exists Q. split; [exact E |]. split; [| split; [| split]].
  - intros a b Ha Hb. apply V; assumption.
  - lra.
  - auto.
  - exact E22.
Qed.

(** C6, the counterexample: on the 1 x 1 lattice of angle 0 the entry
    [Qab[2, 2]] of the tensor is -1/2, not 0. *)
Lemma order_tensor_corner_nonzero :
  exists Q, order_tensor lattice1 1 = Some Q /\
            theta Q 2 2 = -1 / 2 /\ theta Q 2 2 <> 0.
Proof.
  destruct order_tensor_lattice1 as (Q & E & (_ & _ & E22) & _).
  exists Q. split; [exact E |]. split; [exact E22 | lra].
Qed.


(** The order parameter within the range of a C [int]. For a lattice of
    size N with 2 N^2 <= 2^31 - 1, when the eigenvalue routine returns the
    three eigenvalues of the tensor in ascending order, the order parameter
    returned by the estimator lies between 0 and 1, and it is 1 for a
    perfectly aligned lattice. *)
Theorem get_order_range (eigvalsh : list (list R) -> option (list R))
  (arr : lattice) (N : Z) (Q : lattice) (l0 l1 l2 : R) :
  (0 < N)%Z -> (2 * N * N <= INT_MAX)%Z ->
  shape2 arr (Z.to_nat N) (Z.to_nat N) ->
  order_tensor arr N = Some Q ->
  eigvalsh Q = Some [l0; l1; l2] ->
  eigen_triple Q l0 l1 l2 -> l0 <= l1 <= l2 ->
  exists S,
    get_order eigvalsh arr N = Some S /\
    0 <= S <= 1 /\
    (forall t, aligned arr N t -> S = 1).
Proof.
  intros HN Hmax Hs E Hev Heig Hasc.
  destruct (order_tensor_facts arr N HN Hmax Hs)
    as (Q' & E' & V & (E02 & E12 & E20 & E21) & E22 & Etr & Hn & Hal).
  rewrite E in E'. injection E' as <-.
  assert (E10 : theta Q 1 0 = theta Q 0 1) by (apply V; lia).
  set (r2 := ((theta Q 0 0 - theta Q 1 1) ^ 2 + (2 * theta Q 0 1) ^ 2) / 4) in *.
  assert (Hpoly : forall x, (l0 - x) * (l1 - x) * (l2 - x)
                            = (-1 / 2 - x) * ((x - 1 / 4) ^ 2 - r2)).
  { intros x. rewrite <- Heig. apply det3_planar; assumption. }
  assert (Hr : 0 <= r2 <= 9 / 16).
  { unfold r2. split; [| lra].
    assert (0 <= (theta Q 0 0 - theta Q 1 1) ^ 2) by apply pow2_ge_0.
    assert (0 <= (2 * theta Q 0 1) ^ 2) by apply pow2_ge_0. lra. }
  destruct (largest_root l0 l1 l2 r2 Hpoly Hr Hasc) as [[Hlo Hup] Hone].
  exists l2. split; [| split].
  - apply (get_order_value eigvalsh arr N Q l0 l1 l2); assumption.
  - lra.
  - intros t Ha. apply Hone. unfold r2. rewrite (Hal t Ha). field.
Qed.

(** ** The estimator on a 2 x 2 lattice without a preferred axis *)

(** The sum over the four cells of a 2 x 2 lattice. *)
Lemma Q_sum_2x2 (arr : lattice) (a b : Z) :
  Q_sum arr 2 a b
  = Q_term arr a b 0 0 + Q_term arr a b 0 1
    + Q_term arr a b 1 0 + Q_term arr a b 1 1.
Proof.
  unfold Q_sum, sum2. change (Z.to_nat 2) with 2%nat. cbn [big_sum].
  change (Z.of_nat 0) with 0%Z. change (Z.of_nat 1) with 1%Z. ring.
Qed.

Lemma shape2_checker : shape2 checker (Z.to_nat 2) (Z.to_nat 2).
Proof. split; [reflexivity | repeat constructor]. Qed.

(** On [checker] the tensor is diag (1/4, 1/4, -1/2): no direction of the
    plane is preferred. *)
Lemma order_tensor_checker :
  exists Q,
    order_tensor checker 2 = Some Q /\
    (theta Q 0 0 = 1 / 4 /\ theta Q 1 1 = 1 / 4 /\ theta Q 2 2 = -1 / 2) /\
    (theta Q 0 1 = 0 /\ theta Q 1 0 = 0) /\
    (theta Q 0 2 = 0 /\ theta Q 1 2 = 0 /\ theta Q 2 0 = 0 /\ theta Q 2 1 = 0).
Proof.
  destruct (order_tensor_facts checker 2) as (Q & E & V & Hz & E22 & Etr & _);
    try (unfold INT_MAX; lia); try apply shape2_checker.
  assert (E00 : theta Q 0 0 = 1 / 4).
  { destruct (V 0%Z 0%Z) as [-> _]; try lia. unfold Q_entry.
    rewrite Q_sum_2x2. unfold Q_term.
    change (theta checker 0 0) with 0. change (theta checker 0 1) with (PI / 2).
    change (theta checker 1 0) with (PI / 2). change (theta checker 1 1) with 0.
    change (director 0 0) with (cos 0).
    change (director 0 (PI / 2)) with (cos (PI / 2)).
    change (kronecker 0 0) with 1.
    rewrite cos_0, cos_PI2. field. }
  assert (E01 : theta Q 0 1 = 0).
  { destruct (V 0%Z 1%Z) as [-> _]; try lia. unfold Q_entry.
    rewrite Q_sum_2x2. unfold Q_term.
    change (theta checker 0 0) with 0. change (theta checker 0 1) with (PI / 2).
    change (theta checker 1 0) with (PI / 2). change (theta checker 1 1) with 0.
    change (director 0 0) with (cos 0). change (director 1 0) with (sin 0).
    change (director 0 (PI / 2)) with (cos (PI / 2)).
    change (director 1 (PI / 2)) with (sin (PI / 2)).
    change (kronecker 0 1) with 0.
    rewrite cos_0, sin_0, cos_PI2, sin_PI2. field. }
  assert (E10 : theta Q 1 0 = theta Q 0 1) by (apply V; lia).
  exists Q. split; [exact E |]. split; [| split; [| exact Hz]].
  - repeat split; lra.
  - split; lra.
Qed.

(** ** The estimator beyond the range of [int] *)

(** Line 223: [2 * nmax * nmax] is a product of C [int]s, converted to
    [double] only once computed. At nmax = 32768 it wraps to -2^31. *)
Lemma tmp_32768 : int_mul (int_mul 2 32768) 32768 = (-2147483648)%Z.
Proof. vm_compute. reflexivity. Qed.

Lemma shape2_lattice_32768 :
  shape2 lattice_32768 (Z.to_nat 32768) (Z.to_nat 32768).
Proof. unfold lattice_32768. apply shape2_zeros. Qed.

Lemma aligned_lattice_32768 : aligned lattice_32768 32768 0.
Proof. intros i j _ _. unfold lattice_32768. apply theta_zeros. Qed.

(** On [lattice_32768] the tensor is diag (-1, 1/2, 1/2): the tensor of an
    aligned lattice, diag (1, -1/2, -1/2), with its sign changed. *)
Lemma order_tensor_32768 :
  exists Q,
    order_tensor lattice_32768 32768 = Some Q /\
    (theta Q 0 0 = -1 /\ theta Q 1 1 = 1 / 2 /\ theta Q 2 2 = 1 / 2) /\
    (theta Q 0 1 = 0 /\ theta Q 1 0 = 0) /\
    (theta Q 0 2 = 0 /\ theta Q 1 2 = 0 /\ theta Q 2 0 = 0 /\ theta Q 2 1 = 0).
Proof.
  destruct (order_tensor_entries lattice_32768 32768) as (Q & E & _ & V).
  - lia.
  - exact shape2_lattice_32768.
  - rewrite tmp_32768. lia.
  - assert (Hent : forall a b, (0 <= a < 3)%Z -> (0 <= b < 3)%Z ->
              theta Q a b
              = - (3 * director a 0 * director b 0 - kronecker a b) / 2).
    { intros a b Ha Hb. rewrite V by assumption. rewrite tmp_32768.
      rewrite (Q_sum_aligned lattice_32768 32768 a b 0)
        by (try lia; apply aligned_lattice_32768).
      field. }
    exists Q. split; [exact E |]. split; [| split].
    + rewrite (Hent 0%Z 0%Z), (Hent 1%Z 1%Z), (Hent 2%Z 2%Z) by lia.
      change (director 0 0) with (cos 0). change (director 1 0) with (sin 0).
      change (director 2 0) with 0.
      change (kronecker 0 0) with 1. change (kronecker 1 1) with 1.
      change (kronecker 2 2) with 1.
      rewrite cos_0, sin_0. repeat split; lra.
    + rewrite (Hent 0%Z 1%Z), (Hent 1%Z 0%Z) by lia.
      change (director 0 0) with (cos 0). change (director 1 0) with (sin 0).
      change (kronecker 0 1) with 0. change (kronecker 1 0) with 0.
      rewrite cos_0, sin_0. split; lra.
    + rewrite (Hent 0%Z 2%Z), (Hent 1%Z 2%Z), (Hent 2%Z 0%Z), (Hent 2%Z 1%Z)
        by lia.
      change (director 2 0) with 0.
      change (kronecker 0 2) with 0. change (kronecker 1 2) with 0.
      change (kronecker 2 0) with 0. change (kronecker 2 1) with 0.
      repeat split; lra.
Qed.


(** C8, at the input where the code departs from it: the 32768 x 32768
    lattice of angle 0 is perfectly aligned, yet its tensor is
    diag (-1, 1/2, 1/2), and with every routine that returns the
    eigenvalues of that tensor in ascending order the estimator returns
    1/2, not 1. The routine that reads the diagonal is one of them. *)
Theorem get_order_aligned_overflow :
  shape2 lattice_32768 (Z.to_nat 32768) (Z.to_nat 32768) /\
  aligned lattice_32768 32768 0 /\
  exists Q,
    order_tensor lattice_32768 32768 = Some Q /\
    eigen_triple Q (-1) (1 / 2) (1 / 2) /\
    (forall (eigvalsh : list (list R) -> option (list R)) (l0 l1 l2 : R),
       eigvalsh Q = Some [l0; l1; l2] ->
       eigen_triple Q l0 l1 l2 -> l0 <= l1 <= l2 ->
       get_order eigvalsh lattice_32768 32768 = Some (1 / 2)) /\
    get_order diag_solver lattice_32768 32768 = Some (1 / 2) /\
    1 / 2 <> 1.
Proof.
  split; [exact shape2_lattice_32768 |]. split; [exact aligned_lattice_32768 |].
  destruct order_tensor_32768
    as (Q & E & (E00 & E11 & E22) & (E01 & E10) & (E02 & E12 & E20 & E21)).
  assert (Hd : eigen_triple Q (-1) (1 / 2) (1 / 2)).
  { destruct (eigen_triple_diag Q E01 E10 E02 E12 E20 E21) as [H _].
    rewrite E00, E11, E22 in H. exact H. }
  assert (Hall : forall (eigvalsh : list (list R) -> option (list R))
                        (l0 l1 l2 : R),
            eigvalsh Q = Some [l0; l1; l2] ->
            eigen_triple Q l0 l1 l2 -> l0 <= l1 <= l2 ->
            get_order eigvalsh lattice_32768 32768 = Some (1 / 2)).
  { intros eigvalsh l0 l1 l2 Hev Heig Hasc.
    rewrite (get_order_value eigvalsh lattice_32768 32768 Q l0 l1 l2 E Hev).
    f_equal.
    assert (Hup : l2 <= 1 / 2).
    { pose proof (Heig l2) as H. rewrite (Hd l2) in H.
      replace (l2 - l2) with 0 in H by ring. rewrite Rmult_0_r in H.
      apply Rmult_integral in H. destruct H as [H | H]; [| lra].
      apply Rmult_integral in H. destruct H as [H | H]; lra. }
    assert (Hlow : 1 / 2 <= l2).
    { pose proof (Heig (1 / 2)) as H. rewrite (Hd (1 / 2)) in H.
      replace (1 / 2 - 1 / 2) with 0 in H by field. rewrite Rmult_0_r in H.
      symmetry in H.
      apply Rmult_integral in H. destruct H as [H | H]; [| lra].
      apply Rmult_integral in H. destruct H as [H | H]; lra. }
    lra. }
  exists Q. split; [exact E |]. split; [exact Hd |]. split; [exact Hall |].
  split; [| lra].
  apply (Hall diag_solver (-1) (1 / 2) (1 / 2)).
  - unfold diag_solver. rewrite E00, E11, E22. reflexivity.
  - exact Hd.
  - lra.
Qed.

(** ** The theorems at concrete inputs *)

Lemma INT_MAX_2 : (0 < 2 <= INT_MAX)%Z.
Proof. unfold INT_MAX. lia. Qed.

(** The corner cell (0,0) of the 2 x 2 lattice: the index 0 - 1 wraps to 1,
    and the eight reads are in range. *)
Lemma neighbor_indices_in_range_witness :
  mod_int (int_sub 0 1) 2 = Some 1%Z /\
  exists e,
    one_energy_reads lattice0 0 0 2
      = Some ([ (0, 0); (1, 0); (0, 0); (1, 0);
                (0, 0); (0, 1); (0, 0); (0, 1) ]%Z, e) /\
    one_energy lattice0 0 0 2 = Some e.
Proof.
  destruct (neighbor_indices_in_range lattice0 2 0 0)
    as [[_ [Hm _]] [_ (reads & e & Er & Ee & Elist & _ & _)]].
  - exact INT_MAX_2.
  - exact shape2_lattice0.
  - lia.
  - lia.
  - split; [exact Hm |]. exists e. rewrite Elist in Er.
    split; [exact Er | exact Ee].
Defined.

(** The cell (0,0) of the aligned 2 x 2 lattice. *)
Lemma one_energy_cellEnergy_witness :
  one_energy lattice0 0 0 2 =
  Some (sum_list (map (fun p =>
                         0.5 * (1 - 3 * cos (theta lattice0 0 0
                                             - theta lattice0 (fst p) (snd p)) ^ 2))
                      (neighbors 2 0 0))).
Proof.
  apply (one_energy_cellEnergy lattice0 2 0 0).
  - exact INT_MAX_2.
  - exact shape2_lattice0.
  - lia.
  - lia.
Defined.

Lemma aligned_lattice4 : aligned lattice4 4 0.
Proof. intros i j _ _. apply theta_zeros. Qed.

(** The aligned 4 x 4 lattice has energy -64. *)
Lemma all_energy_latticeEnergy_witness :
  all_energy lattice4 4 = Some (-4 * IZR 4 * IZR 4) /\
  all_energy lattice4 4 = Some (-64.0).
Proof.
  destruct (all_energy_latticeEnergy lattice4 4) as [_ H].
  - unfold INT_MAX. lia.
  - apply (shape2_zeros 4 4).
  - destruct (H 0 aligned_lattice4) as [H1 H2].
    split; [exact H1 | exact (H2 eq_refl)].
Defined.


(** A 2 x 2 lattice drawn at two temperatures from the same stream. *)
Lemma initdat_ignores_temperature_witness :
  initdat 2 (1 / 2) half_stream = initdat 2 (3 / 2) half_stream /\
  exists arr, initdat 2 (1 / 2) half_stream = Some arr /\
              get2 arr 1 1 = Some (1 / 2 * 2.0 * PI).
Proof.
  destruct (initdat_ignores_temperature 2 (1 / 2) (3 / 2) half_stream)
    as [Heq H].
  split; [exact Heq |].
  destruct (H 1%Z 1%Z) as (arr & E & _ & G); [lia | lia |].
  exists arr. split; [exact E | exact G].
Defined.

(** One sweep of the 1 x 1 lattice of angle 0 at T = 1 returns 2. *)
Lemma MC_step_ratio_1x1_witness :
  MC_step draws_1x1 lattice1 1 1 = Some ([[0 + (0.1 + 1) * 1]], 2).
Proof.
  apply (MC_step_ratio_1x1 draws_1x1 0 1 1).
  - lra.
  - reflexivity.
  - reflexivity.
  - reflexivity.
  - cbn [draws_1x1 uniform_draws]. lra.
Defined.

(** The tensor of the 2 x 2 lattice [checker]. *)
Lemma order_tensor_invariants_witness :
  exists Q, order_tensor checker 2 = Some Q /\
            theta Q 0 1 = theta Q 1 0 /\
            theta Q 0 0 + theta Q 1 1 + theta Q 2 2 = 0 /\
            theta Q 2 2 = -1 / 2.
Proof.
  destruct (order_tensor_invariants checker 2) as (Q & E & Hsym & Htr & _ & E22).
  - lia.
  - unfold INT_MAX. lia.
  - exact shape2_checker.
  - exists Q. split; [exact E |]. split; [apply Hsym; lia |].
    split; [exact Htr | exact E22].
Defined.


(** The same lattice and routine: the order parameter is 1. *)
Lemma get_order_range_witness :
  exists S, get_order diag_solver_rev lattice1 1 = Some S /\
            0 <= S <= 1 /\ S = 1.
Proof.
  destruct order_tensor_lattice1
    as (Q & E & (E00 & E11 & E22) & (E01 & E10) & (E02 & E12 & E20 & E21)).
  destruct (get_order_range diag_solver_rev lattice1 1 Q
              (theta Q 2 2) (theta Q 1 1) (theta Q 0 0))
    as (S & Hg & Hr & Hone).
  - lia.
  - unfold INT_MAX. lia.
  - exact shape2_lattice1.
  - exact E.
  - reflexivity.
  - apply (eigen_triple_diag Q E01 E10 E02 E12 E20 E21).
  - rewrite E00, E11, E22. lra.
  - exists S. split; [exact Hg | split; [exact Hr |]].
    apply (Hone 0). exact aligned_lattice1.
Defined.

(** * Further properties of the code *)

(** ** Bounds on the energies *)

Lemma pair_term_bounds (d : R) : -1 <= pair_term d <= 1 / 2.
Proof.
  unfold pair_term. pose proof (COS_bound d) as [Hlo Hhi].
  assert (0 <= cos d ^ 2) by apply pow2_ge_0.
  assert (cos d ^ 2 <= 1) by nra.
  lra.
Qed.

Lemma cellEnergy_bounds (arr : lattice) (N i j : Z) :
  -4 <= cellEnergy arr N i j <= 2.
Proof.
  unfold cellEnergy, neighbors, sum_list. cbn [map fold_right fst snd].
  pose proof (pair_term_bounds (theta arr i j - theta arr ((i + 1) mod N)%Z j)).
  pose proof (pair_term_bounds (theta arr i j - theta arr ((i - 1) mod N)%Z j)).
  pose proof (pair_term_bounds (theta arr i j - theta arr i ((j + 1) mod N)%Z)).
  pose proof (pair_term_bounds (theta arr i j - theta arr i ((j - 1) mod N)%Z)).
  lra.
Qed.

Lemma big_sum_bounds (n : nat) (f : Z -> R) (lo hi : R) :
  (forall i, (0 <= i < Z.of_nat n)%Z -> lo <= f i <= hi) ->
  INR n * lo <= big_sum n f <= INR n * hi.
Proof.
  induction n as [| n IH]; intros H.
  - cbn. lra.
  - cbn [big_sum]. rewrite S_INR.
    destruct IH as [IH1 IH2]; [intros i Hi; apply H; lia |].
    destruct (H (Z.of_nat n)) as [H1 H2]; [lia |]. lra.
Qed.

(** X1. On an N x N lattice the energy of a cell lies between -4 (the four
    neighbours parallel or antiparallel) and 2 (the four perpendicular). *)
Theorem one_energy_bounds (arr : lattice) (N i j : Z) :
  (0 < N <= INT_MAX)%Z -> shape2 arr (Z.to_nat N) (Z.to_nat N) ->
  (0 <= i < N)%Z -> (0 <= j < N)%Z ->
  exists e, one_energy arr i j N = Some e /\ -4 <= e <= 2.
Proof.
  intros HN Hs Hi Hj. exists (cellEnergy arr N i j).
  split; [apply one_energy_value; assumption | apply cellEnergy_bounds].
Qed.

(** X2. The energy of an N x N lattice lies between -4 N^2 and 2 N^2. *)
Theorem all_energy_bounds (arr : lattice) (N : Z) :
  (0 < N <= INT_MAX)%Z -> shape2 arr (Z.to_nat N) (Z.to_nat N) ->
  exists e, all_energy arr N = Some e /\
            -4 * (IZR N * IZR N) <= e <= 2 * (IZR N * IZR N).
Proof.
  intros HN Hs. exists (latticeEnergy arr N).
  split; [apply all_energy_value; assumption |].
  assert (HNR : 0 < IZR N) by (apply IZR_lt; lia).
  unfold latticeEnergy.
  destruct (big_sum_bounds (Z.to_nat N)
              (fun i => big_sum (Z.to_nat N) (fun j => cellEnergy arr N i j))
              (IZR N * -4) (IZR N * 2)) as [Hlo Hhi].
  - intros i _. rewrite <- (INR_to_nat N) by lia.
    apply big_sum_bounds. intros j _. apply cellEnergy_bounds.
  - rewrite (INR_to_nat N) in Hlo, Hhi by lia. split; lra.
Qed.

(** ** Symmetries of the energies *)

Lemma theta_plus_shift (arr : lattice) (N p q i j : Z) (c : R) :
  shape2 arr (Z.to_nat N) (Z.to_nat N) ->
  (0 <= p < N)%Z -> (0 <= q < N)%Z -> (0 <= i)%Z -> (0 <= j)%Z ->
  theta (with_angle arr p q (theta arr p q + c)) i j = theta arr i j \/
  theta (with_angle arr p q (theta arr p q + c)) i j = theta arr i j + c.
Proof.
  intros Hs Hp Hq Hi Hj.
  destruct (Z.eq_dec i p) as [-> | Hip]; [destruct (Z.eq_dec j q) as [-> | Hjq] |].
  - right. apply (theta_with_angle_same arr (Z.to_nat N) (Z.to_nat N)); auto; lia.
  - left. apply (theta_with_angle_other arr (Z.to_nat N) (Z.to_nat N)); auto;
      try lia. congruence.
  - left. apply (theta_with_angle_other arr (Z.to_nat N) (Z.to_nat N)); auto;
      try lia. congruence.
Qed.

Lemma pair_term_PI (a b a' b' : R) :
  a' = a \/ a' = a + PI -> b' = b \/ b' = b + PI ->
  pair_term (a' - b') = pair_term (a - b).
Proof.
  unfold pair_term. intros [-> | ->] [-> | ->].
  - reflexivity.
  - assert (E : cos (a - b) = - cos (a - (b + PI)))
      by (rewrite <- neg_cos; f_equal; ring).
    rewrite E. ring.
  - assert (E : cos (a + PI - b) = - cos (a - b))
      by (rewrite <- neg_cos; f_equal; ring).
    rewrite E. ring.
  - replace (a + PI - (b + PI)) with (a - b) by ring. reflexivity.
Qed.

Lemma cellEnergy_plus_PI (arr : lattice) (N p q i j : Z) :
  (0 < N)%Z -> shape2 arr (Z.to_nat N) (Z.to_nat N) ->
  (0 <= p < N)%Z -> (0 <= q < N)%Z -> (0 <= i < N)%Z -> (0 <= j < N)%Z ->
  cellEnergy (with_angle arr p q (theta arr p q + PI)) N i j
  = cellEnergy arr N i j.
Proof.
  intros HN Hs Hp Hq Hi Hj.
  pose proof (mod_range (i + 1) N HN). pose proof (mod_range (i - 1) N HN).
  pose proof (mod_range (j + 1) N HN). pose proof (mod_range (j - 1) N HN).
  unfold cellEnergy, neighbors, sum_list. cbn [map fold_right fst snd].
  repeat (f_equal; try (apply pair_term_PI;
                        apply (theta_plus_shift arr N p q); auto; lia)).
Qed.

Lemma shape2_rotate_all (arr : lattice) (n m : nat) (c : R) :
  shape2 arr n m -> shape2 (rotate_all arr c) n m.
Proof.
  intros [Hlen Hrows]. unfold rotate_all. split.
  - rewrite length_map. exact Hlen.
  - rewrite Forall_map. eapply Forall_impl; [| exact Hrows].
    intros row Hr. cbn. rewrite length_map. exact Hr.
Qed.

Lemma cellEnergy_rotate_all (arr : lattice) (N i j : Z) (c : R) :
  (0 < N)%Z -> shape2 arr (Z.to_nat N) (Z.to_nat N) ->
  (0 <= i < N)%Z -> (0 <= j < N)%Z ->
  cellEnergy (rotate_all arr c) N i j = cellEnergy arr N i j.
Proof.
  intros HN Hs Hi Hj.
  pose proof (mod_range (i + 1) N HN). pose proof (mod_range (i - 1) N HN).
  pose proof (mod_range (j + 1) N HN). pose proof (mod_range (j - 1) N HN).
  unfold cellEnergy, neighbors, sum_list, rotate_all.
  cbn [map fold_right fst snd].
  rewrite !(theta_map _ arr (Z.to_nat N) (Z.to_nat N)) by (auto; lia).
  repeat (f_equal; try (f_equal; ring)).
Qed.

Lemma latticeEnergy_ext (arr arr' : lattice) (N : Z) :
  (forall i j, (0 <= i < N)%Z -> (0 <= j < N)%Z ->
     cellEnergy arr' N i j = cellEnergy arr N i j) ->
  latticeEnergy arr' N = latticeEnergy arr N.
Proof.
  intros H. unfold latticeEnergy. apply big_sum_ext. intros i Hi.
  apply big_sum_ext. intros j Hj. apply H; lia.
Qed.

(** X3. Head-tail symmetry: adding pi to the angle of any one cell of an
    N x N lattice changes neither the energy of any cell nor the energy of
    the lattice. *)
Theorem energy_head_tail (arr : lattice) (N i j p q : Z) :
  (0 < N <= INT_MAX)%Z -> shape2 arr (Z.to_nat N) (Z.to_nat N) ->
  (0 <= i < N)%Z -> (0 <= j < N)%Z -> (0 <= p < N)%Z -> (0 <= q < N)%Z ->
  one_energy (with_angle arr p q (theta arr p q + PI)) i j N
    = one_energy arr i j N /\
  all_energy (with_angle arr p q (theta arr p q + PI)) N = all_energy arr N.
Proof.
  intros HN Hs Hi Hj Hp Hq.
  assert (Hs' : shape2 (with_angle arr p q (theta arr p q + PI))
                  (Z.to_nat N) (Z.to_nat N))
    by (apply shape2_with_angle; [assumption | lia]).
  split.
  - rewrite (one_energy_value arr N i j HN Hs Hi Hj).
    rewrite (one_energy_value _ N i j HN Hs' Hi Hj).
    f_equal. apply cellEnergy_plus_PI; try assumption; lia.
  - rewrite (all_energy_value arr N HN Hs), (all_energy_value _ N HN Hs').
    f_equal. apply latticeEnergy_ext. intros i' j' Hi' Hj'.
    apply cellEnergy_plus_PI; try assumption; lia.
Qed.

(** X4. The energies see only differences of angles and are even in them:
    rotating every angle of an N x N lattice by the same amount, or
    negating every angle, changes neither the energy of any cell nor the
    energy of the lattice. *)
Theorem energy_rotation_reflection (arr : lattice) (N i j : Z) (c : R) :
  (0 < N <= INT_MAX)%Z -> shape2 arr (Z.to_nat N) (Z.to_nat N) ->
  (0 <= i < N)%Z -> (0 <= j < N)%Z ->
  one_energy (rotate_all arr c) i j N = one_energy arr i j N /\
  all_energy (rotate_all arr c) N = all_energy arr N /\
  all_energy (negate_all arr) N = all_energy arr N.
Proof.
  intros HN Hs Hi Hj.
  pose proof (shape2_rotate_all arr _ _ c Hs) as Hr.
  pose proof (shape2_negate_all arr _ _ Hs) as Hn.
  rewrite (one_energy_value arr N i j HN Hs Hi Hj).
  rewrite (one_energy_value _ N i j HN Hr Hi Hj).
  rewrite (all_energy_value arr N HN Hs), (all_energy_value _ N HN Hr),
    (all_energy_value _ N HN Hn).
  split; [| split]; f_equal.
  - apply cellEnergy_rotate_all; try assumption; lia.
  - apply latticeEnergy_ext. intros i' j' Hi' Hj'.
    apply cellEnergy_rotate_all; try assumption; lia.
  - apply latticeEnergy_ext. intros i' j' Hi' Hj'.
    apply cellEnergy_negate_all; try assumption; lia.
Qed.

(** ** Bonds *)

Lemma big_sum_front (n : nat) (f : Z -> R) :
  big_sum (S n) f = f 0%Z + big_sum n (fun i => f (i + 1)%Z).
Proof.
  induction n as [| n IH].
  - cbn. ring.
  - change (big_sum (S (S n)) f) with (big_sum (S n) f + f (Z.of_nat (S n))).
    rewrite IH. cbn [big_sum].
    replace (Z.of_nat (S n)) with (Z.of_nat n + 1)%Z by lia. ring.
Qed.

(** A sum over a cycle does not depend on where the cycle is entered. *)
Lemma big_sum_cyclic (n : nat) (f : Z -> R) :
  big_sum n (fun i => f ((i - 1) mod Z.of_nat n)%Z) = big_sum n f.
Proof.
  destruct n as [| m]; [reflexivity |].
  rewrite big_sum_front.
  replace ((0 - 1) mod Z.of_nat (S m))%Z with (Z.of_nat m)
    by (apply Zmod_unique with (q := (-1)%Z); lia).
  rewrite (big_sum_ext m _ f).
  - cbn [big_sum]. ring.
  - intros i Hi. f_equal. replace (i + 1 - 1)%Z with i by lia.
    apply Z.mod_small. lia.
Qed.

Lemma pair_term_swap (a b : R) : pair_term (a - b) = pair_term (b - a).
Proof.
  unfold pair_term. replace (b - a) with (- (a - b)) by ring.
  rewrite cos_neg. reflexivity.
Qed.

Lemma mod_pred_succ (i N : Z) :
  (0 < N)%Z -> (0 <= i < N)%Z -> (((i - 1) mod N + 1) mod N = i)%Z.
Proof.
  intros HN Hi. rewrite Zplus_mod_idemp_l.
  replace (i - 1 + 1)%Z with i by lia. apply Z.mod_small. exact Hi.
Qed.

Lemma latticeEnergy_bonds (arr : lattice) (N : Z) :
  (0 < N)%Z -> latticeEnergy arr N = 2 * bond_energy arr N.
Proof.
  intros HN. unfold latticeEnergy, bond_energy.
  set (n := Z.to_nat N).
  assert (En : Z.of_nat n = N) by (unfold n; lia).
  set (fx := fun i j => pair_term (theta arr i j - theta arr ((i + 1) mod N)%Z j)).
  set (fy := fun i j => pair_term (theta arr i j - theta arr i ((j + 1) mod N)%Z)).
  set (bx := fun i j => pair_term (theta arr i j - theta arr ((i - 1) mod N)%Z j)).
  set (by_ := fun i j => pair_term (theta arr i j - theta arr i ((j - 1) mod N)%Z)).
  change (big_sum n (fun i => big_sum n (fun j => cellEnergy arr N i j)))
    with (sum2 n (fun i j => cellEnergy arr N i j)).
  rewrite (sum2_ext n _ (fun i j => (fx i j + bx i j) + (fy i j + by_ i j))).
  2:{ intros i j _ _. unfold cellEnergy, neighbors, sum_list, fx, bx, fy, by_.
      cbn [map fold_right fst snd]. ring. }
  rewrite (sum2_plus n (fun i j => fx i j + bx i j) (fun i j => fy i j + by_ i j)).
  rewrite (sum2_plus n fx bx), (sum2_plus n fy by_).
  assert (Ex : sum2 n bx = sum2 n fx).
  { unfold sum2.
    rewrite (big_sum_ext n _
               (fun i => (fun k => big_sum n (fun j => fx k j))
                           ((i - 1) mod Z.of_nat n)%Z)).
    - apply (big_sum_cyclic n (fun k => big_sum n (fun j => fx k j))).
    - intros i Hi. apply big_sum_ext. intros j Hj. unfold bx, fx.
      rewrite En, mod_pred_succ by lia. apply pair_term_swap. }
  assert (Ey : sum2 n by_ = sum2 n fy).
  { unfold sum2. apply big_sum_ext. intros i Hi.
    rewrite (big_sum_ext n _ (fun j => fy i ((j - 1) mod Z.of_nat n)%Z)).
    - apply (big_sum_cyclic n (fy i)).
    - intros j Hj. unfold by_, fy.
      rewrite En, mod_pred_succ by lia. apply pair_term_swap. }
  rewrite Ex, Ey.
  transitivity (2 * (sum2 n fx + sum2 n fy)); [ring |].
  f_equal. symmetry. apply (sum2_plus n fx fy).
Qed.

(** X5. [all_energy] counts every bond of the periodic lattice twice, once
    from each of its ends: it returns twice the sum, over the cells, of the
    bond to the neighbour at [i + 1] and the bond to the neighbour at
    [j + 1]. *)
Theorem all_energy_counts_bonds_twice (arr : lattice) (N : Z) :
  (0 < N <= INT_MAX)%Z -> shape2 arr (Z.to_nat N) (Z.to_nat N) ->
  all_energy arr N =
  Some (2 * sum2 (Z.to_nat N) (fun i j =>
              0.5 * (1 - 3 * cos (theta arr i j
                                  - theta arr ((i + 1) mod N)%Z j) ^ 2)
              + 0.5 * (1 - 3 * cos (theta arr i j
                                    - theta arr i ((j + 1) mod N)%Z) ^ 2))).
Proof.
  intros HN Hs. rewrite (all_energy_value arr N HN Hs).
  rewrite latticeEnergy_bonds by lia. reflexivity.
Qed.

(** ** Cell indices out of the lattice *)

Lemma index_out_of_range {A : Type} (l : list A) (i : Z) :
  (Z.of_nat (length l) <= i \/ i < - Z.of_nat (length l))%Z -> index l i = None.
Proof.
  intros H. unfold index.
  destruct (Z.ltb_spec i 0) as [Hneg | Hpos].
  - destruct (Z.leb_spec 0 (i + Z.of_nat (length l))) as [H0 | H0];
      [| reflexivity].
    destruct (Z.ltb_spec (i + Z.of_nat (length l)) (Z.of_nat (length l)));
      [lia | reflexivity].
  - destruct (Z.leb_spec 0 i); [| lia].
    destruct (Z.ltb_spec i (Z.of_nat (length l))); [lia | reflexivity].
Qed.

Lemma index_wrap {A : Type} (l : list A) (i : Z) :
  (0 <= i < Z.of_nat (length l))%Z ->
  index l (i - Z.of_nat (length l)) = index l i.
Proof.
  intros H. unfold index.
  destruct (Z.ltb_spec (i - Z.of_nat (length l)) 0); [| lia].
  destruct (Z.ltb_spec i 0); [lia |].
  replace (i - Z.of_nat (length l) + Z.of_nat (length l))%Z with i by lia.
  reflexivity.
Qed.

Lemma index_row_length {A : Type} (arr : list (list A)) (n m : nat) (i : Z)
  (row : list A) :
  shape2 arr n m -> index arr i = Some row -> length row = m.
Proof.
  intros [_ Hrows] E. unfold index in E.
  destruct (_ && _); [| discriminate].
  apply nth_error_In in E. rewrite Forall_forall in Hrows. apply Hrows, E.
Qed.

Lemma get2_out_of_range {A : Type} (arr : list (list A)) (N ix iy : Z) :
  (0 <= N)%Z -> shape2 arr (Z.to_nat N) (Z.to_nat N) ->
  (N <= ix \/ ix < - N \/ N <= iy \/ iy < - N)%Z ->
  get2 arr ix iy = None.
Proof.
  intros HN Hs H. pose proof Hs as [Hlen _]. unfold get2.
  destruct (index arr ix) as [row |] eqn:E; cbn [bind]; [| reflexivity].
  pose proof (index_row_length arr _ _ ix row Hs E) as Hr.
  destruct H as [H | [H | H]].
  - rewrite index_out_of_range in E by lia. discriminate.
  - rewrite index_out_of_range in E by lia. discriminate.
  - apply index_out_of_range. lia.
Qed.

Lemma get2_wrap_row {A : Type} (arr : list (list A)) (N i j : Z) :
  shape2 arr (Z.to_nat N) (Z.to_nat N) -> (0 <= i < N)%Z ->
  get2 arr (i - N) j = get2 arr i j.
Proof.
  intros [Hlen _] Hi. unfold get2.
  replace N with (Z.of_nat (length arr)) at 1 by lia.
  rewrite index_wrap by lia. reflexivity.
Qed.

Lemma get2_wrap_col (arr : lattice) (N i j : Z) :
  shape2 arr (Z.to_nat N) (Z.to_nat N) -> (0 <= i < N)%Z -> (0 <= j < N)%Z ->
  get2 arr i (j - N) = get2 arr i j.
Proof.
  intros Hs Hi Hj. pose proof Hs as [Hlen _]. unfold get2.
  rewrite (index_nth arr i []) by lia. cbn [bind].
  pose proof (shape2_row arr _ _ (Z.to_nat i) Hs ltac:(lia)) as Hr.
  replace N with (Z.of_nat (length (nth (Z.to_nat i) arr []))) at 1 by lia.
  apply index_wrap. lia.
Qed.

Lemma mod_int_shifted (a N : Z) :
  (0 < N <= INT_MAX)%Z -> (- 2 ^ 31 <= a - N)%Z -> (a <= INT_MAX)%Z ->
  mod_int (wrap_int (a - N)) N = Some (a mod N)%Z.
Proof.
  intros HN Hlo Hhi. rewrite wrap_int_small by lia.
  rewrite mod_int_modulo by lia. f_equal.
  replace (a - N)%Z with (a + (-1) * N)%Z by lia. apply Z_mod_plus_full.
Qed.

(** X6. On an N x N lattice [one_energy] follows Python's index rules: a
    cell coordinate in [-N, 0) names the same cell as that coordinate plus
    N, and a coordinate outside [-N, N) raises. *)
Theorem one_energy_index_rules (arr : lattice) (N i j : Z) :
  (0 < N <= INT_MAX)%Z -> shape2 arr (Z.to_nat N) (Z.to_nat N) ->
  (0 <= i < N)%Z -> (0 <= j < N)%Z ->
  one_energy arr (i - N) j N = one_energy arr i j N /\
  one_energy arr i (j - N) N = one_energy arr i j N /\
  (forall ix iy, (N <= ix \/ ix < - N \/ N <= iy \/ iy < - N)%Z ->
     one_energy arr ix iy N = None).
Proof.
  intros HN Hs Hi Hj.
  destruct (neighbor_reads arr N i j HN Hs Hi Hj)
    as [[Exp [Exm [Eyp Eym]]] [Gc [Gxp [Gxm [Gyp Gym]]]]].
  assert (H0 : (0 < N)%Z) by lia.
  pose proof (mod_range (i + 1) N H0). pose proof (mod_range (i - 1) N H0).
  pose proof (mod_range (j + 1) N H0). pose proof (mod_range (j - 1) N H0).
  rewrite (one_energy_value arr N i j HN Hs Hi Hj).
  assert (Hmax : INT_MAX = (2 ^ 31 - 1)%Z) by reflexivity.
  split; [| split].
  - unfold one_energy, int_add, int_sub.
    replace (i - N + 1)%Z with (i + 1 - N)%Z by lia.
    replace (i - N - 1)%Z with (i - 1 - N)%Z by lia.
    rewrite !mod_int_shifted by lia.
    fold (int_add j 1). fold (int_sub j 1). rewrite Eyp, Eym. cbn [bind].
    rewrite !(get2_wrap_row arr N i) by assumption.
    rewrite Gc, Gxp, Gxm, Gyp, Gym. cbn [bind].
    f_equal. unfold cellEnergy, neighbors, sum_list, pair_term.
    cbn [map fold_right fst snd]. lra.
  - unfold one_energy, int_add, int_sub.
    replace (j - N + 1)%Z with (j + 1 - N)%Z by lia.
    replace (j - N - 1)%Z with (j - 1 - N)%Z by lia.
    rewrite !mod_int_shifted by lia.
    fold (int_add i 1). fold (int_sub i 1). rewrite Exp, Exm. cbn [bind].
    rewrite !(get2_wrap_col arr N) by (assumption || lia).
    rewrite Gc, Gxp, Gxm, Gyp, Gym. cbn [bind].
    f_equal. unfold cellEnergy, neighbors, sum_list, pair_term.
    cbn [map fold_right fst snd]. lra.
  - intros ix iy Hout. unfold one_energy.
    rewrite !mod_int_modulo by lia. cbn [bind].
    rewrite (get2_out_of_range arr N ix iy) by (assumption || lia).
    reflexivity.
Qed.

(** ** The initial lattice *)

(** X7. [initdat] raises exactly when the size is negative; otherwise it
    returns an nmax x nmax lattice, and uniform draws in [0,1) give angles
    in [0, 2 pi). *)
Theorem initdat_shape_range (nmax : Z) (Ts : R) (u : nat -> R) :
  (forall k, 0 <= u k < 1) ->
  ((nmax < 0)%Z -> initdat nmax Ts u = None) /\
  ((0 <= nmax)%Z ->
     exists arr, initdat nmax Ts u = Some arr /\
       shape2 arr (Z.to_nat nmax) (Z.to_nat nmax) /\
       (forall i j, (0 <= i < nmax)%Z -> (0 <= j < nmax)%Z ->
          exists a, get2 arr i j = Some a /\ 0 <= a < 2 * PI)).
Proof.
  intros Hu. split.
  - intros Hneg. unfold initdat, random_sample.
    destruct (Z.ltb_spec nmax 0); [reflexivity | lia].
  - intros Hpos. unfold initdat.
    destruct (random_sample u nmax nmax) as [s |] eqn:E.
    + cbn [bind]. eexists. split; [reflexivity |].
      pose proof (random_sample_shape u nmax nmax s E) as Hs.
      assert (Hs' : shape2 (map (map (fun x => x * 2.0 * PI)) s)
                      (Z.to_nat nmax) (Z.to_nat nmax)).
      { destruct Hs as [Hlen Hrows]. split.
        - rewrite length_map. exact Hlen.
        - rewrite Forall_map. eapply Forall_impl; [| exact Hrows].
          intros row Hr. cbn. rewrite length_map. exact Hr. }
      split; [exact Hs' |]. intros i j Hi Hj.
      rewrite (get2_theta _ (Z.to_nat nmax) (Z.to_nat nmax)) by (auto; lia).
      rewrite (theta_map _ s (Z.to_nat nmax) (Z.to_nat nmax)) by (auto; lia).
      rewrite (random_sample_theta u nmax nmax s i j E Hi Hj).
      eexists. split; [reflexivity |].
      pose proof PI_RGT_0.
      destruct (Hu (Z.to_nat i * Z.to_nat nmax + Z.to_nat j)%nat). nra.
    + exfalso. unfold random_sample in E.
      destruct (Z.ltb_spec nmax 0); [lia |]. cbn in E. discriminate.
Qed.

(** ** The order parameter in closed form *)

Lemma largest_root_value (l0 l1 l2 r2 : R) :
  (forall x, (l0 - x) * (l1 - x) * (l2 - x)
             = (-1 / 2 - x) * ((x - 1 / 4) ^ 2 - r2)) ->
  0 <= r2 <= 9 / 16 -> l0 <= l1 <= l2 ->
  (l2 - 1 / 4) ^ 2 = r2.
Proof.
  intros H Hr Hl.
  destruct (largest_root l0 l1 l2 r2 H Hr Hl) as [[Hlo _] _].
  pose proof (H l2) as E. replace (l2 - l2) with 0 in E by ring.
  rewrite Rmult_0_r in E. symmetry in E.
  apply Rmult_integral in E. destruct E as [E | E]; lra.
Qed.

Lemma Q_sum_double_angle (arr : lattice) (N : Z) :
  Q_sum arr N 0 0 - Q_sum arr N 1 1
    = 3 * sum2 (Z.to_nat N) (fun i j => cos (2 * theta arr i j)) /\
  2 * Q_sum arr N 0 1
    = 3 * sum2 (Z.to_nat N) (fun i j => sin (2 * theta arr i j)).
Proof.
  unfold Q_sum. split.
  - rewrite <- sum2_scal.
    replace (sum2 (Z.to_nat N) (Q_term arr 0 0) - sum2 (Z.to_nat N) (Q_term arr 1 1))
      with (sum2 (Z.to_nat N)
              (fun i j => Q_term arr 0 0 i j + -1 * Q_term arr 1 1 i j))
      by (rewrite sum2_plus, sum2_scal; ring).
    apply sum2_ext. intros i j _ _.
    destruct (Q_term_plane arr i j) as (-> & -> & _).
    rewrite cos_2a. ring.
  - rewrite <- !sum2_scal. apply sum2_ext. intros i j _ _.
    destruct (Q_term_plane arr i j) as (_ & _ & ->).
    rewrite sin_2a. ring.
Qed.

(** X8. For a lattice of size N with 2 N^2 within the range of a C [int]
    (2 N^2 <= 2^31 - 1), and with an eigenvalue routine that lists the
    eigenvalues of the tensor in ascending order, the order parameter is
    1/4 + 3/4 |m|, where m is the mean over the cells of the unit vector
    (cos 2 theta, sin 2 theta). It is therefore never below 1/4. *)
Theorem get_order_closed_form (eigvalsh : list (list R) -> option (list R))
  (arr : lattice) (N : Z) (Q : lattice) (l0 l1 l2 : R) :
  (0 < N)%Z -> (2 * N * N <= INT_MAX)%Z ->
  shape2 arr (Z.to_nat N) (Z.to_nat N) ->
  order_tensor arr N = Some Q ->
  eigvalsh Q = Some [l0; l1; l2] ->
  eigen_triple Q l0 l1 l2 -> l0 <= l1 <= l2 ->
  get_order eigvalsh arr N = Some (1 / 4 + 3 / 4 * nematic_strength arr N) /\
  1 / 4 <= 1 / 4 + 3 / 4 * nematic_strength arr N.
Proof.
  intros HN Hmax Hs E Hev Heig Hasc.
  destruct (order_tensor_facts arr N HN Hmax Hs)
    as (Q' & E' & V & (E02 & E12 & E20 & E21) & E22 & Etr & Hn & _).
  rewrite E in E'. injection E' as <-.
  assert (E10 : theta Q 1 0 = theta Q 0 1) by (apply V; lia).
  set (r2 := ((theta Q 0 0 - theta Q 1 1) ^ 2 + (2 * theta Q 0 1) ^ 2) / 4) in *.
  assert (Hpoly : forall x, (l0 - x) * (l1 - x) * (l2 - x)
                            = (-1 / 2 - x) * ((x - 1 / 4) ^ 2 - r2)).
  { intros x. rewrite <- Heig. apply det3_planar; assumption. }
  assert (Hr : 0 <= r2 <= 9 / 16).
  { unfold r2. split; [| lra].
    assert (0 <= (theta Q 0 0 - theta Q 1 1) ^ 2) by apply pow2_ge_0.
    assert (0 <= (2 * theta Q 0 1) ^ 2) by apply pow2_ge_0. lra. }
  destruct (largest_root l0 l1 l2 r2 Hpoly Hr Hasc) as [[Hlo _] _].
  pose proof (largest_root_value l0 l1 l2 r2 Hpoly Hr Hasc) as Hval.
  assert (HNR : 0 < IZR N) by (apply IZR_lt; exact HN).
  destruct (Q_sum_double_angle arr N) as [Hc Hsn].
  assert (Hsq : sqrt (mean2 N (fun i j => cos (2 * theta arr i j)) ^ 2
                      + mean2 N (fun i j => sin (2 * theta arr i j)) ^ 2)
                = 4 / 3 * (l2 - 1 / 4)).
  { apply sqrt_lem_1.
    - apply Rplus_le_le_0_compat; apply pow2_ge_0.
    - lra.
    - transitivity (16 / 9 * (l2 - 1 / 4) ^ 2); [field |].
      rewrite Hval. unfold r2.
      destruct (V 0%Z 0%Z) as [-> _]; try lia.
      destruct (V 1%Z 1%Z) as [-> _]; try lia.
      destruct (V 0%Z 1%Z) as [-> _]; try lia.
      unfold Q_entry, mean2.
      replace (Q_sum arr N 0 0 / (2 * IZR N * IZR N)
               - Q_sum arr N 1 1 / (2 * IZR N * IZR N))
        with ((Q_sum arr N 0 0 - Q_sum arr N 1 1) / (2 * IZR N * IZR N))
        by (field; lra).
      replace (2 * (Q_sum arr N 0 1 / (2 * IZR N * IZR N)))
        with (2 * Q_sum arr N 0 1 / (2 * IZR N * IZR N)) by (field; lra).
      rewrite Hc, Hsn. field. lra. }
  unfold nematic_strength. rewrite Hsq. split.
  - rewrite (get_order_value eigvalsh arr N Q l0 l1 l2 E Hev). f_equal. lra.
  - lra.
Qed.

(** ** The order tensor under a head-tail flip *)

Lemma shape2_ext (A B : lattice) (n m : nat) :
  shape2 A n m -> shape2 B n m ->
  (forall i j, (0 <= i < Z.of_nat n)%Z -> (0 <= j < Z.of_nat m)%Z ->
     theta A i j = theta B i j) ->
  A = B.
Proof.
  intros HA HB H. pose proof HA as [HlA _]. pose proof HB as [HlB _].
  apply (nth_ext A B [] []); [congruence |].
  intros k Hk.
  apply (nth_ext _ _ 0 0).
  - rewrite (shape2_row A n m), (shape2_row B n m) by (auto; lia). reflexivity.
  - intros l Hl. rewrite (shape2_row A n m) in Hl by (auto; lia).
    specialize (H (Z.of_nat k) (Z.of_nat l)). unfold theta in H.
    rewrite !Nat2Z.id in H. apply H; lia.
Qed.

Lemma director_PI (a : Z) (t : R) : director a (t + PI) = - director a t.
Proof.
  unfold director. destruct (a =? 0)%Z; [apply neg_cos |].
  destruct (a =? 1)%Z; [apply neg_sin | ring].
Qed.

Lemma Q_entry_head_tail (arr : lattice) (N p q a b : Z) :
  shape2 arr (Z.to_nat N) (Z.to_nat N) -> (0 <= p < N)%Z -> (0 <= q < N)%Z ->
  Q_entry (with_angle arr p q (theta arr p q + PI)) N a b = Q_entry arr N a b.
Proof.
  intros Hs Hp Hq. unfold Q_entry, Q_sum. f_equal.
  apply sum2_ext. intros i j Hi Hj. unfold Q_term.
  destruct (theta_plus_shift arr N p q i j PI Hs Hp Hq) as [-> | ->];
    try lia; [reflexivity |].
  rewrite !director_PI. ring.
Qed.

(** X9. Head-tail symmetry of the estimator: adding pi to the angle of any
    one cell of an N x N lattice leaves the tensor Qab, and so the value
    returned by [get_order] with any eigenvalue routine, unchanged. *)
Theorem get_order_head_tail (eigvalsh : list (list R) -> option (list R))
  (arr : lattice) (N p q : Z) :
  (0 < N)%Z -> (2 * N * N <= INT_MAX)%Z ->
  shape2 arr (Z.to_nat N) (Z.to_nat N) ->
  (0 <= p < N)%Z -> (0 <= q < N)%Z ->
  order_tensor (with_angle arr p q (theta arr p q + PI)) N = order_tensor arr N /\
  get_order eigvalsh (with_angle arr p q (theta arr p q + PI)) N
    = get_order eigvalsh arr N.
Proof.
  intros HN Hmax Hs Hp Hq.
  assert (Hs' : shape2 (with_angle arr p q (theta arr p q + PI))
                  (Z.to_nat N) (Z.to_nat N))
    by (apply shape2_with_angle; [assumption | lia]).
  destruct (order_tensor_value arr N HN Hmax Hs) as (Q & E & HsQ & V).
  destruct (order_tensor_value _ N HN Hmax Hs') as (Q' & E' & HsQ' & V').
  assert (EQ : Q' = Q).
  { apply (shape2_ext Q' Q (Z.to_nat 3) (Z.to_nat 3)); try assumption.
    intros a b Ha Hb. rewrite V', V by lia.
    apply Q_entry_head_tail; assumption. }
  assert (Et : order_tensor (with_angle arr p q (theta arr p q + PI)) N
               = order_tensor arr N) by (rewrite E, E', EQ; reflexivity).
  split; [exact Et |]. unfold get_order. rewrite Et. reflexivity.
Qed.

(** ** The estimator called with a negative size *)

(** X10. For a size nmax < 0 the estimator raises, whatever the lattice and
    the eigenvalue routine: [np.zeros((3, nmax, nmax))] refuses a negative
    dimension before any entry of the lattice is read. *)
Theorem get_order_negative_size
  (eigvalsh : list (list R) -> option (list R)) (arr : lattice) (nmax : Z) :
  (nmax < 0)%Z ->
  order_tensor arr nmax = None /\ get_order eigvalsh arr nmax = None.
Proof.
  intros H.
  assert (E : order_tensor arr nmax = None).
  { unfold order_tensor, zeros3.
    change (zeros2 3 3) with (Some [[0; 0; 0]; [0; 0; 0]; [0; 0; 0]]).
    cbn [bind]. destruct (Z.ltb_spec nmax 0); [| lia].
    change (3 <? 0)%Z with false. cbn [orb bind]. reflexivity. }
  split; [exact E |]. unfold get_order. rewrite E. reflexivity.
Qed.

(** ** A sweep on well-formed draws *)

Lemma attempt_step (g : rng) (scale : R) (N i j : Z) (s : mc_state) :
  (0 < N)%Z -> (N * (N + 1) <= INT_MAX)%Z -> 0 <= scale -> draws_ok g N ->
  (0 <= i < N)%Z -> (0 <= j < N)%Z -> sweep_state N i j s ->
  exists s', attempt g scale N i j s = Some s' /\ sweep_state N i (j + 1) s'.
Proof.
  intros HN Hmax Hsc Hg Hi Hj (Hs & Hacc & _ & Hni & Hnn & Hnu).
  destruct (Hg (st_nint s) i j Hi Hj) as [(x & Ex & Hx) _].
  destruct (Hg (S (st_nint s)) i j Hi Hj) as [(y & Ey & Hy) _].
  destruct (Hg (st_nnorm s) i j Hi Hj) as [_ (z & Ez)].
  assert (HN' : (0 < N <= INT_MAX)%Z) by nia.
  eexists. split.
  - apply (attempt_value g scale N i j s x y z); assumption.
  - cbv zeta. unfold sweep_state.
    cbn [st_arr st_accept st_ix st_iy st_nint st_nnorm st_nunif].
    assert (Hin : (0 <= i * N)%Z) by nia.
    assert (Hb : (i * (N + 1) + j + 1 <= N * (N + 1))%Z) by nia.
    split; [| split; [| split; [| split; [| split]]]].
    + apply shape2_with_angle; [assumption | lia].
    + destruct (Rle_dec _ _); [| lia].
      unfold int_add. rewrite wrap_int_small by (unfold INT_MAX in *; lia). lia.
    + intros _. split; assumption.
    + lia.
    + lia.
    + exact Hnu.
Qed.

Lemma row_else_step (g : rng) (Ts : R) (N i : Z) (s : mc_state) :
  (0 < N)%Z -> (N * (N + 1) <= INT_MAX)%Z -> Ts <> 0 ->
  (0 <= i < N)%Z -> sweep_state N i N s ->
  exists s', row_else g Ts s = Some s' /\ sweep_state N (i + 1) 0 s'.
Proof.
  intros HN Hmax HT Hi (Hs & Hacc & Hxy & Hni & Hnn & Hnu).
  destruct (Hxy HN) as [Hx Hy].
  assert (Hin : (0 <= i * N)%Z) by nia.
  assert (Hb : (i * (N + 1) + N + 1 <= N * (N + 1))%Z) by nia.
  unfold row_else. destruct (Req_dec_T Ts 0) as [E | _]; [contradiction |].
  cbv zeta. destruct (Rge_dec _ _) as [_ | _].
  - eexists. split; [reflexivity |]. unfold sweep_state.
    cbn [st_arr st_accept st_ix st_iy st_nint st_nnorm st_nunif].
    split; [exact Hs | split; [| split; [lia | split; [lia | split; lia]]]].
    unfold int_add. rewrite wrap_int_small by (unfold INT_MAX in *; lia). lia.
  - rewrite (get2_theta _ (Z.to_nat N) (Z.to_nat N)) by (auto; lia).
    cbn [bind].
    rewrite (set2_with_angle _ (Z.to_nat N) (Z.to_nat N)) by (auto; lia).
    cbn [bind]. eexists. split; [reflexivity |]. unfold sweep_state.
    cbn [st_arr st_accept st_ix st_iy st_nint st_nnorm st_nunif].
    split; [| split; [lia | split; [lia | split; [lia | split; lia]]]].
    apply shape2_with_angle; [assumption | lia].
Qed.

(** One row of the sweep: the [N] attempts of the inner loop. *)
Lemma row_attempts (g : rng) (scale : R) (N i : Z) (s : mc_state) :
  (0 < N)%Z -> (N * (N + 1) <= INT_MAX)%Z -> 0 <= scale -> draws_ok g N ->
  (0 <= i < N)%Z -> sweep_state N i 0 s ->
  exists s', for_range N (fun j s => attempt g scale N i j s) s = Some s' /\
             sweep_state N i N s'.
Proof.
  intros HN Hmax Hsc Hg Hi Hst.
  apply (for_range_inv (fun j t => sweep_state N i j t)); [lia | exact Hst |].
  intros j t Hj Ht. apply attempt_step; assumption.
Qed.

Lemma sweep_state_init (arr : lattice) (N : Z) :
  shape2 arr (Z.to_nat N) (Z.to_nat N) -> sweep_state N 0 0 (mc_init arr).
Proof.
  intros Hs. unfold sweep_state, mc_init.
  cbn [st_arr st_accept st_ix st_iy st_nint st_nnorm st_nunif].
  repeat split; try lia; exact (proj1 Hs) || exact (proj2 Hs).
Qed.

Lemma MC_sweep_state (g : rng) (arr : lattice) (Ts : R) (N : Z) :
  (0 < N)%Z -> (N * (N + 1) <= INT_MAX)%Z -> 0 < Ts ->
  shape2 arr (Z.to_nat N) (Z.to_nat N) -> draws_ok g N ->
  exists s, MC_sweep g arr Ts N = Some s /\ sweep_state N N 0 s.
Proof.
  intros HN Hmax HT Hs Hg. unfold MC_sweep.
  apply (for_range_inv (fun i t => sweep_state N i 0 t));
    [lia | apply sweep_state_init; exact Hs |].
  intros i t Hi Ht.
  destruct (row_attempts g (0.1 + Ts) N i t) as (t1 & E1 & H1);
    try assumption; try lra.
  rewrite E1. cbn [bind]. apply row_else_step; try assumption. lra.
Qed.

Lemma MC_step_of_sweep (g : rng) (arr : lattice) (Ts : R) (N : Z) (s : mc_state) :
  (0 < N)%Z -> (N * (N + 1) <= INT_MAX)%Z ->
  MC_sweep g arr Ts N = Some s ->
  MC_step g arr Ts N = Some (st_arr s, IZR (st_accept s) / (IZR N * IZR N)).
Proof.
  intros HN Hmax E.
  assert (Hmul : int_mul N N = (N * N)%Z).
  { unfold int_mul. apply wrap_int_small. unfold INT_MAX in *. nia. }
  unfold MC_step. rewrite E. cbn [bind]. rewrite Hmul.
  destruct (Z.eqb_spec (N * N) 0) as [E0 | _]; [nia |].
  rewrite mult_IZR. reflexivity.
Qed.

Lemma ratio_bounds (a N : Z) :
  (0 < N)%Z -> (0 <= a <= N * (N + 1))%Z ->
  0 <= IZR a / (IZR N * IZR N) <= 1 + 1 / IZR N.
Proof.
  intros HN Ha.
  assert (HNR : 0 < IZR N) by (apply IZR_lt; exact HN).
  assert (Ha0 : 0 <= IZR a) by (apply IZR_le; lia).
  assert (Ha1 : IZR a <= IZR N * (IZR N + 1)).
  { rewrite <- (plus_IZR N 1), <- mult_IZR. apply IZR_le. lia. }
  split.
  - apply Rmult_le_pos; [exact Ha0 |].
    apply Rlt_le, Rinv_0_lt_compat. nra.
  - apply Rmult_le_reg_r with (IZR N * IZR N); [nra |].
    unfold Rdiv. rewrite Rmult_assoc, Rinv_l by nra.
    replace ((1 + 1 * / IZR N) * (IZR N * IZR N))
      with (IZR N * (IZR N + 1)) by (field; lra).
    lra.
Qed.

(** X11. On an N x N lattice, at a temperature T > 0 and with well-formed
    draws, [MC_step] raises nothing, returns a lattice of the same shape,
    and its acceptance ratio lies between 0 and 1 + 1/N. *)
Theorem MC_step_well_formed (g : rng) (arr : lattice) (Ts : R) (N : Z) :
  (0 < N)%Z -> (N * (N + 1) <= INT_MAX)%Z -> 0 < Ts ->
  shape2 arr (Z.to_nat N) (Z.to_nat N) -> draws_ok g N ->
  exists arr' r,
    MC_step g arr Ts N = Some (arr', r) /\
    shape2 arr' (Z.to_nat N) (Z.to_nat N) /\
    0 <= r <= 1 + 1 / IZR N.
Proof.
  intros HN Hmax HT Hs Hg.
  destruct (MC_sweep_state g arr Ts N HN Hmax HT Hs Hg)
    as (s & E & Hs' & Hacc & _).
  exists (st_arr s), (IZR (st_accept s) / (IZR N * IZR N)).
  split; [| split; [exact Hs' |]].
  - apply MC_step_of_sweep; assumption.
  - apply ratio_bounds; [assumption | lia].
Qed.

(** X12. Such a sweep calls [np.random.randint] 2 N^2 times and
    [np.random.normal] N^2 times, but [np.random.uniform] only N times:
    the Boltzmann test is made once per row of attempts. *)
Theorem MC_sweep_draw_counts (g : rng) (arr : lattice) (Ts : R) (N : Z) :
  (0 < N)%Z -> (N * (N + 1) <= INT_MAX)%Z -> 0 < Ts ->
  shape2 arr (Z.to_nat N) (Z.to_nat N) -> draws_ok g N ->
  exists s,
    MC_sweep g arr Ts N = Some s /\
    Z.of_nat (st_nint s) = (2 * (N * N))%Z /\
    Z.of_nat (st_nnorm s) = (N * N)%Z /\
    Z.of_nat (st_nunif s) = N.
Proof.
  intros HN Hmax HT Hs Hg.
  destruct (MC_sweep_state g arr Ts N HN Hmax HT Hs Hg)
    as (s & E & _ & _ & _ & Hni & Hnn & Hnu).
  exists s. split; [exact E |]. repeat split; lia.
Qed.

(** X13. At temperature 0 a sweep of a non-empty lattice always raises:
    the division by [Ts] at the end of the first row is reached whatever
    the energies are. *)
Theorem MC_step_zero_temperature (g : rng) (arr : lattice) (N : Z) :
  (0 < N)%Z -> (N * (N + 1) <= INT_MAX)%Z ->
  shape2 arr (Z.to_nat N) (Z.to_nat N) -> draws_ok g N ->
  MC_step g arr 0 N = None.
Proof.
  intros HN Hmax Hs Hg.
  destruct (row_attempts g (0.1 + 0) N 0 (mc_init arr)) as (s1 & E1 & _);
    try assumption; try lra; try lia.
  { apply sweep_state_init. exact Hs. }
  unfold MC_step, MC_sweep. unfold for_range at 1.
  destruct (Z.to_nat N) as [| k] eqn:Ek; [lia |].
  rewrite for_loop_S. rewrite E1. cbn [bind].
  unfold row_else. destruct (Req_dec_T 0 0) as [_ | Hne]; [| contradiction].
  reflexivity.
Qed.

(** ** The driver *)

Lemma for_loop_inv {St : Type} (P : Z -> St -> Prop) (k : nat) (lo : Z)
  (body : Z -> St -> option St) (s : St) :
  P lo s ->
  (forall i t, (lo <= i < lo + Z.of_nat k)%Z -> P i t ->
     exists t', body i t = Some t' /\ P (i + 1)%Z t') ->
  exists s', for_loop k lo body s = Some s' /\ P (lo + Z.of_nat k)%Z s'.
Proof.
  revert lo s. induction k as [| k IH]; intros lo s H0 Hstep.
  - exists s. split; [reflexivity |].
    replace (lo + Z.of_nat 0)%Z with lo by lia. exact H0.
  - destruct (Hstep lo s) as (s1 & E1 & H1); [lia | exact H0 |].
    destruct (IH (lo + 1)%Z s1 H1) as (s' & E' & H').
    { intros i t Hi Ht. apply Hstep; [lia | exact Ht]. }
    exists s'. rewrite for_loop_S, E1. cbn [bind]. split; [exact E' |].
    replace (lo + Z.of_nat (S k))%Z with (lo + 1 + Z.of_nat k)%Z by lia.
    exact H'.
Qed.

Lemma initdat_ok (nmax : Z) (Ts : R) (u : nat -> R) :
  (0 <= nmax)%Z ->
  exists arr, initdat nmax Ts u = Some arr /\
              shape2 arr (Z.to_nat nmax) (Z.to_nat nmax).
Proof.
  intros Hpos. unfold initdat.
  destruct (random_sample u nmax nmax) as [s |] eqn:E.
  - cbn [bind]. eexists. split; [reflexivity |].
    destruct (random_sample_shape u nmax nmax s E) as [Hlen Hrows]. split.
    + rewrite length_map. exact Hlen.
    + rewrite Forall_map. eapply Forall_impl; [| exact Hrows].
      intros row Hr. cbn. rewrite length_map. exact Hr.
  - exfalso. unfold random_sample in E.
    destruct (Z.ltb_spec nmax 0); [lia |]. cbn in E. discriminate.
Qed.

Lemma get_order_total (eigvalsh : list (list R) -> option (list R))
  (arr : lattice) (N : Z) :
  (0 < N)%Z -> (2 * N * N <= INT_MAX)%Z ->
  shape2 arr (Z.to_nat N) (Z.to_nat N) ->
  (forall Q, shape2 Q (Z.to_nat 3) (Z.to_nat 3) ->
     exists l0 l1 l2, eigvalsh Q = Some [l0; l1; l2]) ->
  exists o, get_order eigvalsh arr N = Some o.
Proof.
  intros HN Hmax Hs Hsolver.
  destruct (order_tensor_value arr N HN Hmax Hs) as (Q & E & HsQ & _).
  destruct (Hsolver Q HsQ) as (l0 & l1 & l2 & Hev).
  exists l2. apply (get_order_value eigvalsh arr N Q l0 l1 l2); assumption.
Qed.

Lemma zeros1_value (n : Z) :
  (0 <= n)%Z -> zeros1 n = Some (repeat 0 (Z.to_nat n)).
Proof.
  intros H. unfold zeros1. destruct (Z.ltb_spec n 0); [lia | reflexivity].
Qed.

Lemma Forall_repeat {A : Type} (P : A -> Prop) (x : A) (n : nat) :
  P x -> Forall P (repeat x n).
Proof.
  intros H. apply Forall_forall. intros y Hy. apply repeat_spec in Hy.
  subst y. exact H.
Qed.

Lemma ratio_range_ok (N : Z) (r : R) :
  (0 < N)%Z -> 0 <= r <= 1 -> 0 <= r <= 1 + 1 / IZR N.
Proof.
  intros HN Hr. assert (0 < IZR N) by (apply IZR_lt; exact HN).
  assert (0 < 1 / IZR N) by (apply Rdiv_lt_0_compat; lra). lra.
Qed.

Lemma main_sweep_step (eigvalsh : list (list R) -> option (list R))
  (gs : nat -> rng) (temp : R) (N n : Z) (lat0 : lattice) (e0 o0 : R)
  (it : Z) (s : run_state) :
  (0 < N)%Z -> (2 * N * N <= INT_MAX)%Z -> 0 < temp ->
  (forall k, draws_ok (gs k) N) ->
  (forall Q, shape2 Q (Z.to_nat 3) (Z.to_nat 3) ->
     exists l0 l1 l2, eigvalsh Q = Some [l0; l1; l2]) ->
  (1 <= it <= n)%Z -> run_inv eigvalsh N n lat0 e0 o0 it s ->
  exists s', main_sweep eigvalsh gs temp N it s = Some s' /\
             run_inv eigvalsh N n lat0 e0 o0 (it + 1) s'.
Proof.
  intros HN Hmax HT Hg Hsolver Hit
    (Hs & (Lr & Le & Lo) & (R0 & E0 & O0) & _ & _ & Hall & _).
  assert (Hmax' : (N * (N + 1) <= INT_MAX)%Z) by nia.
  assert (HN' : (0 < N <= INT_MAX)%Z) by nia.
  destruct (MC_sweep_state (gs (Z.to_nat it)) (rs_lattice s) temp N
              HN Hmax' HT Hs (Hg _)) as (st & Esw & Hs' & Hacc & _).
  pose proof (MC_step_of_sweep _ _ _ _ _ HN Hmax' Esw) as Estep.
  destruct (get_order_total eigvalsh (st_arr st) N HN Hmax Hs' Hsolver)
    as (o & Eo).
  unfold main_sweep. rewrite Estep. cbn [bind fst snd].
  rewrite set_index_in_range by lia. cbn [bind].
  rewrite (all_energy_value _ N HN' Hs'). cbn [bind].
  rewrite set_index_in_range by lia. cbn [bind].
  rewrite Eo. cbn [bind].
  rewrite set_index_in_range by lia.
  eexists. split; [reflexivity |]. unfold run_inv.
  cbn [rs_lattice rs_ratio rs_energy rs_order].
  rewrite !length_upd.
  replace (Z.to_nat (it + 1 - 1)) with (Z.to_nat it) by lia.
  rewrite !nth_upd_same by lia.
  rewrite !nth_upd_other by lia.
  split; [exact Hs' |]. split; [auto |]. split; [auto |].
  split; [apply all_energy_value; assumption |].
  split; [exact Eo |]. split; [| lia].
  apply Forall_upd; [exact Hall |].
  apply ratio_bounds; [assumption | lia].
Qed.

(** A whole run on well-formed inputs. *)
Lemma main_run (eigvalsh : list (list R) -> option (list R))
  (render : lattice -> Z -> Z -> option unit)
  (save : run_state -> Z -> R -> Z -> option unit)
  (u : nat -> R) (gs : nat -> rng) (nsteps N : Z) (temp : R) (pflag : Z) :
  (0 < N)%Z -> (2 * N * N <= INT_MAX)%Z -> 0 < temp -> (0 <= nsteps)%Z ->
  (forall k, draws_ok (gs k) N) ->
  (forall Q, shape2 Q (Z.to_nat 3) (Z.to_nat 3) ->
     exists l0 l1 l2, eigvalsh Q = Some [l0; l1; l2]) ->
  (forall arr, plotdat render arr pflag N = Some tt) ->
  (forall s, save s nsteps temp N = Some tt) ->
  exists lat0 e0 o0 out,
    initdat N temp u = Some lat0 /\
    all_energy lat0 N = Some e0 /\
    get_order eigvalsh lat0 N = Some o0 /\
    main eigvalsh render save u gs nsteps N temp pflag = Some out /\
    run_inv eigvalsh N nsteps lat0 e0 o0 (nsteps + 1) (out_state out) /\
    out_printed out = nth (Z.to_nat (nsteps - 1)) (rs_order (out_state out)) 0.
Proof.
  intros HN Hmax HT Hn Hg Hsolver Hplot Hsave.
  assert (HN' : (0 < N <= INT_MAX)%Z) by nia.
  destruct (initdat_ok N temp u) as (lat0 & Einit & Hs0); [lia |].
  destruct (get_order_total eigvalsh lat0 N HN Hmax Hs0 Hsolver) as (o0 & Eo0).
  pose proof (all_energy_value lat0 N HN' Hs0) as Ee0.
  set (e0 := latticeEnergy lat0 N) in *.
  set (z := repeat 0 (Z.to_nat (nsteps + 1))).
  assert (Lz : Z.of_nat (length z) = (nsteps + 1)%Z)
    by (unfold z; rewrite repeat_length; lia).
  set (s0 := {| rs_lattice := lat0; rs_ratio := upd z 0 0.5;
                rs_energy := upd z 0 e0; rs_order := upd z 0 o0 |}).
  assert (H0 : run_inv eigvalsh N nsteps lat0 e0 o0 1 s0).
  { unfold run_inv, s0. cbn [rs_lattice rs_ratio rs_energy rs_order].
    rewrite !length_upd. change (Z.to_nat (1 - 1)) with 0%nat.
    rewrite !nth_upd_same by lia.
    split; [exact Hs0 |]. split; [auto |]. split; [auto |].
    split; [exact Ee0 |]. split; [exact Eo0 |]. split; [| reflexivity].
    apply Forall_upd.
    - apply Forall_repeat. apply ratio_range_ok; [exact HN | lra].
    - apply ratio_range_ok; [exact HN | lra]. }
  destruct (for_loop_inv (run_inv eigvalsh N nsteps lat0 e0 o0)
              (Z.to_nat nsteps) 1 (main_sweep eigvalsh gs temp N) s0 H0)
    as (s & Eloop & Hinv).
  { intros it t Hit Ht.
    apply (main_sweep_step eigvalsh gs temp N nsteps lat0 e0 o0);
      try assumption. lia. }
  replace (1 + Z.of_nat (Z.to_nat nsteps))%Z with (nsteps + 1)%Z in Hinv by lia.
  pose proof Hinv as (_ & (_ & _ & Lo) & _).
  assert (Eprint : index (rs_order s) (nsteps - 1)
                   = Some (nth (Z.to_nat (nsteps - 1)) (rs_order s) 0)).
  { destruct (Z.eq_dec nsteps 0) as [-> | Hne].
    - change (Z.to_nat (0 - 1)) with 0%nat.
      replace (0 - 1)%Z with (0 - Z.of_nat (length (rs_order s)))%Z by lia.
      rewrite index_wrap by lia. apply (index_nth _ 0%Z). lia.
    - apply index_nth. lia. }
  exists lat0, e0, o0,
    {| out_state := s;
       out_printed := nth (Z.to_nat (nsteps - 1)) (rs_order s) 0 |}.
  split; [exact Einit |]. split; [exact Ee0 |]. split; [exact Eo0 |].
  split; [| split; [exact Hinv | reflexivity]].
  unfold main. rewrite Einit. cbn [bind]. rewrite Hplot. cbn [bind].
  rewrite zeros1_value by lia. cbn [bind]. fold z.
  rewrite Ee0. cbn [bind].
  rewrite !set_index_in_range by lia. cbn [bind].
  rewrite Eo0. cbn [bind].
  rewrite set_index_in_range by lia. cbn [bind].
  change (Z.to_nat 0) with 0%nat. fold s0. rewrite Eloop. cbn [bind].
  rewrite Eprint. cbn [bind]. rewrite Hsave. cbn [bind].
  rewrite Hplot. reflexivity.
Qed.

(** X14. With a negative number of steps [main] raises: the series cannot
    be allocated (nsteps < -1) or have no entry 0 to receive the initial
    values (nsteps = -1). *)
Theorem main_negative_steps (eigvalsh : list (list R) -> option (list R))
  (render : lattice -> Z -> Z -> option unit)
  (save : run_state -> Z -> R -> Z -> option unit)
  (u : nat -> R) (gs : nat -> rng) (nsteps nmax : Z) (temp : R) (pflag : Z) :
  (nsteps < 0)%Z ->
  main eigvalsh render save u gs nsteps nmax temp pflag = None.
Proof.
  intros Hneg. unfold main.
  destruct (initdat nmax temp u) as [lat |]; cbn [bind]; [| reflexivity].
  destruct (plotdat render lat pflag nmax); cbn [bind]; [| reflexivity].
  unfold zeros1. destruct (Z.ltb_spec (nsteps + 1) 0) as [_ | Hge];
    cbn [bind]; [reflexivity |].
  assert (nsteps = (-1)%Z) as -> by lia.
  change (Z.to_nat (-1 + 1)) with 0%nat. cbn [repeat].
  destruct (all_energy lat nmax); reflexivity.
Qed.

(** X15. On well-formed inputs (size N > 0, temperature T > 0, nsteps >= 0,
    well-formed draws, an eigenvalue routine, plot and save that succeed)
    [main] runs to completion: the final lattice is N x N, each of the
    three series has nsteps + 1 entries, ratio[0] is 0.5 and every entry of
    the ratio series lies in [0, 1 + 1/N]. *)
Theorem main_completes (eigvalsh : list (list R) -> option (list R))
  (render : lattice -> Z -> Z -> option unit)
  (save : run_state -> Z -> R -> Z -> option unit)
  (u : nat -> R) (gs : nat -> rng) (nsteps N : Z) (temp : R) (pflag : Z) :
  (0 < N)%Z -> (2 * N * N <= INT_MAX)%Z -> 0 < temp -> (0 <= nsteps)%Z ->
  (forall k, draws_ok (gs k) N) ->
  (forall Q, shape2 Q (Z.to_nat 3) (Z.to_nat 3) ->
     exists l0 l1 l2, eigvalsh Q = Some [l0; l1; l2]) ->
  (forall arr, plotdat render arr pflag N = Some tt) ->
  (forall s, save s nsteps temp N = Some tt) ->
  exists out,
    main eigvalsh render save u gs nsteps N temp pflag = Some out /\
    shape2 (rs_lattice (out_state out)) (Z.to_nat N) (Z.to_nat N) /\
    (Z.of_nat (length (rs_ratio (out_state out))) = nsteps + 1 /\
     Z.of_nat (length (rs_energy (out_state out))) = nsteps + 1 /\
     Z.of_nat (length (rs_order (out_state out))) = nsteps + 1)%Z /\
    index (rs_ratio (out_state out)) 0 = Some 0.5 /\
    Forall (fun r => 0 <= r <= 1 + 1 / IZR N) (rs_ratio (out_state out)).
Proof.
  intros HN Hmax HT Hn Hg Hsolver Hplot Hsave.
  destruct (main_run eigvalsh render save u gs nsteps N temp pflag
              HN Hmax HT Hn Hg Hsolver Hplot Hsave)
    as (lat0 & e0 & o0 & out & _ & _ & _ & Emain & Hinv & _).
  destruct Hinv as (Hs & (Lr & Le & Lo) & (R0 & _ & _) & _ & _ & Hall & _).
  exists out. split; [exact Emain |]. split; [exact Hs |].
  split; [auto |]. split; [| exact Hall].
  rewrite (index_nth _ 0%Z 0) by lia. f_equal. exact R0.
Qed.

(** X16. On such a run the entries 0 of the energy and order series are
    the energy and order of the lattice returned by [initdat], their
    entries nsteps are the energy and order of the final lattice, and the
    order printed on the summary line is the entry nsteps - 1 of the order
    series (the entry 0 when nsteps is 0). *)
Theorem main_series_ends (eigvalsh : list (list R) -> option (list R))
  (render : lattice -> Z -> Z -> option unit)
  (save : run_state -> Z -> R -> Z -> option unit)
  (u : nat -> R) (gs : nat -> rng) (nsteps N : Z) (temp : R) (pflag : Z) :
  (0 < N)%Z -> (2 * N * N <= INT_MAX)%Z -> 0 < temp -> (0 <= nsteps)%Z ->
  (forall k, draws_ok (gs k) N) ->
  (forall Q, shape2 Q (Z.to_nat 3) (Z.to_nat 3) ->
     exists l0 l1 l2, eigvalsh Q = Some [l0; l1; l2]) ->
  (forall arr, plotdat render arr pflag N = Some tt) ->
  (forall s, save s nsteps temp N = Some tt) ->
  exists lat0 out,
    initdat N temp u = Some lat0 /\
    main eigvalsh render save u gs nsteps N temp pflag = Some out /\
    all_energy lat0 N = Some (nth 0 (rs_energy (out_state out)) 0) /\
    get_order eigvalsh lat0 N = Some (nth 0 (rs_order (out_state out)) 0) /\
    all_energy (rs_lattice (out_state out)) N
      = Some (nth (Z.to_nat nsteps) (rs_energy (out_state out)) 0) /\
    get_order eigvalsh (rs_lattice (out_state out)) N
      = Some (nth (Z.to_nat nsteps) (rs_order (out_state out)) 0) /\
    out_printed out
      = nth (Z.to_nat (nsteps - 1)) (rs_order (out_state out)) 0.
Proof.
  intros HN Hmax HT Hn Hg Hsolver Hplot Hsave.
  destruct (main_run eigvalsh render save u gs nsteps N temp pflag
              HN Hmax HT Hn Hg Hsolver Hplot Hsave)
    as (lat0 & e0 & o0 & out & Einit & Ee0 & Eo0 & Emain & Hinv & Hpr).
  destruct Hinv as (_ & _ & (_ & E0 & O0) & Hen & Hor & _).
  replace (Z.to_nat (nsteps + 1 - 1)) with (Z.to_nat nsteps) in Hen, Hor by lia.
  exists lat0, out. rewrite E0, O0. repeat split; assumption.
Qed.

(** X17. With nsteps = 0 such a run makes no sweep: the final lattice is
    the one [initdat] returned, the series are [0.5], [the initial energy]
    and [the initial order], and the order printed is the initial order. *)
Theorem main_zero_steps (eigvalsh : list (list R) -> option (list R))
  (render : lattice -> Z -> Z -> option unit)
  (save : run_state -> Z -> R -> Z -> option unit)
  (u : nat -> R) (gs : nat -> rng) (N : Z) (temp : R) (pflag : Z) :
  (0 < N)%Z -> (2 * N * N <= INT_MAX)%Z -> 0 < temp ->
  (forall k, draws_ok (gs k) N) ->
  (forall Q, shape2 Q (Z.to_nat 3) (Z.to_nat 3) ->
     exists l0 l1 l2, eigvalsh Q = Some [l0; l1; l2]) ->
  (forall arr, plotdat render arr pflag N = Some tt) ->
  (forall s, save s 0%Z temp N = Some tt) ->
  exists lat0 e0 o0,
    initdat N temp u = Some lat0 /\
    all_energy lat0 N = Some e0 /\
    get_order eigvalsh lat0 N = Some o0 /\
    main eigvalsh render save u gs 0 N temp pflag =
    Some {| out_state := {| rs_lattice := lat0; rs_ratio := [0.5];
                            rs_energy := [e0]; rs_order := [o0] |};
            out_printed := o0 |}.
Proof.
  intros HN Hmax HT Hg Hsolver Hplot Hsave.
  destruct (main_run eigvalsh render save u gs 0 N temp pflag
              HN Hmax HT ltac:(lia) Hg Hsolver Hplot Hsave)
    as (lat0 & e0 & o0 & out & Einit & Ee0 & Eo0 & Emain & Hinv & Hpr).
  destruct Hinv as (_ & (Lr & Le & Lo) & (R0 & E0 & O0) & _ & _ & _ & Hlat).
  exists lat0, e0, o0. split; [exact Einit |]. split; [exact Ee0 |].
  split; [exact Eo0 |]. rewrite Emain. f_equal.
  destruct out as [[lat ratio energy order] printed].
  cbn [out_state out_printed rs_lattice rs_ratio rs_energy rs_order] in *.
  rewrite (Hlat eq_refl).
  destruct ratio as [| r [| ? ?]]; cbn [length] in Lr; try lia.
  destruct energy as [| e [| ? ?]]; cbn [length] in Le; try lia.
  destruct order as [| o [| ? ?]]; cbn [length] in Lo; try lia.
  cbn in R0, E0, O0, Hpr. subst. reflexivity.
Qed.

(** ** The further properties at concrete inputs *)

Lemma draws_ok_1x1 : draws_ok draws_1x1 1.
Proof.
  intros k i j Hi Hj. assert (i = 0%Z) as -> by lia. assert (j = 0%Z) as -> by lia.
  split.
  - exists 0%Z. split; [reflexivity | lia].
  - exists 1. reflexivity.
Qed.

Lemma diag_solver_rev_total (Q : lattice) :
  shape2 Q (Z.to_nat 3) (Z.to_nat 3) ->
  exists l0 l1 l2, diag_solver_rev Q = Some [l0; l1; l2].
Proof. intros _. do 3 eexists. reflexivity. Qed.

Lemma ramp_stream_range (k : nat) : 0 <= ramp_stream k < 1.
Proof.
  unfold ramp_stream. pose proof (pos_INR k) as Hk.
  assert (Hd : 0 < INR k + 1) by lra. split.
  - apply Rmult_le_pos; [exact Hk | apply Rlt_le, Rinv_0_lt_compat, Hd].
  - apply Rmult_lt_reg_r with (INR k + 1); [exact Hd |].
    unfold Rdiv. rewrite Rmult_assoc, Rinv_l by lra. lra.
Qed.

Lemma INT_MAX_1 : (2 * 1 * 1 <= INT_MAX)%Z.
Proof. unfold INT_MAX. lia. Qed.

(** The cell (0,0) of the aligned 2 x 2 lattice. *)
Lemma one_energy_bounds_witness :
  exists e, one_energy lattice0 0 0 2 = Some e /\ -4 <= e <= 2.
Proof.
  apply (one_energy_bounds lattice0 2 0 0).
  - exact INT_MAX_2.
  - exact shape2_lattice0.
  - lia.
  - lia.
Defined.

(** The aligned 2 x 2 lattice. *)
Lemma all_energy_bounds_witness :
  exists e, all_energy lattice0 2 = Some e /\
            -4 * (IZR 2 * IZR 2) <= e <= 2 * (IZR 2 * IZR 2).
Proof.
  apply (all_energy_bounds lattice0 2).
  - exact INT_MAX_2.
  - exact shape2_lattice0.
Defined.

(** The 2 x 2 lattice with the cell (1,1) flipped. *)
Lemma energy_head_tail_witness :
  one_energy (with_angle lattice0 1 1 (theta lattice0 1 1 + PI)) 0 0 2
    = one_energy lattice0 0 0 2 /\
  all_energy (with_angle lattice0 1 1 (theta lattice0 1 1 + PI)) 2
    = all_energy lattice0 2.
Proof.
  apply (energy_head_tail lattice0 2 0 0 1 1).
  - exact INT_MAX_2.
  - exact shape2_lattice0.
  - lia.
  - lia.
  - lia.
  - lia.
Defined.

(** The 2 x 2 lattice rotated by 1 radian. *)
Lemma energy_rotation_reflection_witness :
  one_energy (rotate_all lattice0 1) 0 0 2 = one_energy lattice0 0 0 2 /\
  all_energy (rotate_all lattice0 1) 2 = all_energy lattice0 2 /\
  all_energy (negate_all lattice0) 2 = all_energy lattice0 2.
Proof.
  apply (energy_rotation_reflection lattice0 2 0 0 1).
  - exact INT_MAX_2.
  - exact shape2_lattice0.
  - lia.
  - lia.
Defined.

(** The bonds of the 2 x 2 lattice. *)
Lemma all_energy_counts_bonds_twice_witness :
  all_energy lattice0 2 =
  Some (2 * sum2 (Z.to_nat 2) (fun i j =>
              0.5 * (1 - 3 * cos (theta lattice0 i j
                                  - theta lattice0 ((i + 1) mod 2)%Z j) ^ 2)
              + 0.5 * (1 - 3 * cos (theta lattice0 i j
                                    - theta lattice0 i ((j + 1) mod 2)%Z) ^ 2))).
Proof.
  apply (all_energy_counts_bonds_twice lattice0 2).
  - exact INT_MAX_2.
  - exact shape2_lattice0.
Defined.

(** The 2 x 2 lattice read at the indices -2 and 2. *)
Lemma one_energy_index_rules_witness :
  one_energy lattice0 (0 - 2) 0 2 = one_energy lattice0 0 0 2 /\
  one_energy lattice0 2 0 2 = None.
Proof.
  destruct (one_energy_index_rules lattice0 2 0 0) as (Hw & _ & Hout).
  - exact INT_MAX_2.
  - exact shape2_lattice0.
  - lia.
  - lia.
  - split; [exact Hw |]. apply Hout. lia.
Defined.

(** A 2 x 2 lattice drawn from [ramp_stream]. *)
Lemma initdat_shape_range_witness :
  exists arr, initdat 2 1 ramp_stream = Some arr /\
              shape2 arr (Z.to_nat 2) (Z.to_nat 2) /\
              exists a, get2 arr 1 1 = Some a /\ 0 <= a < 2 * PI.
Proof.
  destruct (initdat_shape_range 2 1 ramp_stream ramp_stream_range) as [_ H].
  destruct H as (arr & E & Hs & Hr); [lia |].
  exists arr. split; [exact E |]. split; [exact Hs |].
  apply Hr; lia.
Defined.

(** The lattice [checker], half of its directors along each axis: the mean
    of the vectors (cos 2 theta, sin 2 theta) is zero and the order
    parameter is 1/4, the least value the estimator can return. *)
Lemma get_order_closed_form_witness :
  get_order diag_solver_rev checker 2
    = Some (1 / 4 + 3 / 4 * nematic_strength checker 2) /\
  1 / 4 <= 1 / 4 + 3 / 4 * nematic_strength checker 2 /\
  get_order diag_solver_rev checker 2 = Some (1 / 4).
Proof.
  destruct order_tensor_checker
    as (Q & E & (E00 & E11 & E22) & (E01 & E10) & (E02 & E12 & E20 & E21)).
  destruct (get_order_closed_form diag_solver_rev checker 2 Q
              (theta Q 2 2) (theta Q 1 1) (theta Q 0 0)) as [Hg Hlow].
  - lia.
  - unfold INT_MAX. lia.
  - exact shape2_checker.
  - exact E.
  - reflexivity.
  - apply (eigen_triple_diag Q E01 E10 E02 E12 E20 E21).
  - rewrite E00, E11, E22. lra.
  - split; [exact Hg |]. split; [exact Hlow |].
    rewrite <- E00.
    apply (get_order_value diag_solver_rev checker 2 Q
             (theta Q 2 2) (theta Q 1 1) (theta Q 0 0)); [exact E | reflexivity].
Defined.

(** The 1 x 1 lattice with its cell flipped. *)
Lemma get_order_head_tail_witness :
  order_tensor (with_angle lattice1 0 0 (theta lattice1 0 0 + PI)) 1
    = order_tensor lattice1 1 /\
  get_order diag_solver (with_angle lattice1 0 0 (theta lattice1 0 0 + PI)) 1
    = get_order diag_solver lattice1 1.
Proof.
  apply (get_order_head_tail diag_solver lattice1 1 0 0).
  - lia.
  - exact INT_MAX_1.
  - exact shape2_lattice1.
  - lia.
  - lia.
Defined.

(** The estimator called with size -1. *)
Lemma get_order_negative_size_witness :
  order_tensor lattice1 (-1) = None /\ get_order diag_solver lattice1 (-1) = None.
Proof.
  apply (get_order_negative_size diag_solver lattice1 (-1)). lia.
Defined.

(** One sweep of the 1 x 1 lattice at T = 1. *)
Lemma MC_step_well_formed_witness :
  exists arr' r,
    MC_step draws_1x1 lattice1 1 1 = Some (arr', r) /\
    shape2 arr' (Z.to_nat 1) (Z.to_nat 1) /\
    0 <= r <= 1 + 1 / IZR 1.
Proof.
  apply (MC_step_well_formed draws_1x1 lattice1 1 1).
  - lia.
  - unfold INT_MAX. lia.
  - lra.
  - exact shape2_lattice1.
  - exact draws_ok_1x1.
Defined.

Lemma MC_sweep_draw_counts_witness :
  exists s,
    MC_sweep draws_1x1 lattice1 1 1 = Some s /\
    Z.of_nat (st_nint s) = (2 * (1 * 1))%Z /\
    Z.of_nat (st_nnorm s) = (1 * 1)%Z /\
    Z.of_nat (st_nunif s) = 1%Z.
Proof.
  apply (MC_sweep_draw_counts draws_1x1 lattice1 1 1).
  - lia.
  - unfold INT_MAX. lia.
  - lra.
  - exact shape2_lattice1.
  - exact draws_ok_1x1.
Defined.

(** One sweep of the 1 x 1 lattice at T = 0. *)
Lemma MC_step_zero_temperature_witness :
  MC_step draws_1x1 lattice1 0 1 = None.
Proof.
  apply (MC_step_zero_temperature draws_1x1 lattice1 1).
  - lia.
  - unfold INT_MAX. lia.
  - exact shape2_lattice1.
  - exact draws_ok_1x1.
Defined.

(** A run asked for -1 steps. *)
Lemma main_negative_steps_witness :
  main diag_solver_rev no_render save_ok half_stream (fun _ => draws_1x1)
    (-1) 1 1 0 = None.
Proof.
  apply main_negative_steps. lia.
Defined.

(** Two sweeps of a 1 x 1 lattice at T = 1, without plots. *)
Lemma main_completes_witness :
  exists out,
    main diag_solver_rev no_render save_ok half_stream (fun _ => draws_1x1)
      2 1 1 0 = Some out /\
    Z.of_nat (length (rs_ratio (out_state out))) = 3%Z /\
    index (rs_ratio (out_state out)) 0 = Some 0.5.
Proof.
  destruct (main_completes diag_solver_rev no_render save_ok half_stream
              (fun _ => draws_1x1) 2 1 1 0)
    as (out & E & _ & (Lr & _ & _) & R0 & _).
  - lia.
  - exact INT_MAX_1.
  - lra.
  - lia.
  - intros k. exact draws_ok_1x1.
  - exact diag_solver_rev_total.
  - reflexivity.
  - reflexivity.
  - exists out. split; [exact E | split; [exact Lr | exact R0]].
Defined.

Lemma main_series_ends_witness :
  exists out,
    main diag_solver_rev no_render save_ok half_stream (fun _ => draws_1x1)
      2 1 1 0 = Some out /\
    all_energy (rs_lattice (out_state out)) 1
      = Some (nth 2 (rs_energy (out_state out)) 0) /\
    out_printed out = nth 1 (rs_order (out_state out)) 0.
Proof.
  destruct (main_series_ends diag_solver_rev no_render save_ok half_stream
              (fun _ => draws_1x1) 2 1 1 0)
    as (lat0 & out & _ & E & _ & _ & Hen & _ & Hpr).
  - lia.
  - exact INT_MAX_1.
  - lra.
  - lia.
  - intros k. exact draws_ok_1x1.
  - exact diag_solver_rev_total.
  - reflexivity.
  - reflexivity.
  - exists out. split; [exact E | split; [exact Hen | exact Hpr]].
Defined.

(** No sweep of a 1 x 1 lattice. *)
Lemma main_zero_steps_witness :
  exists lat0 e0 o0,
    initdat 1 1 half_stream = Some lat0 /\
    main diag_solver_rev no_render save_ok half_stream (fun _ => draws_1x1)
      0 1 1 0 =
    Some {| out_state := {| rs_lattice := lat0; rs_ratio := [0.5];
                            rs_energy := [e0]; rs_order := [o0] |};
            out_printed := o0 |}.
Proof.
  destruct (main_zero_steps diag_solver_rev no_render save_ok half_stream
              (fun _ => draws_1x1) 1 1 0)
    as (lat0 & e0 & o0 & Ei & _ & _ & E).
  - lia.
  - exact INT_MAX_1.
  - lra.
  - intros k. exact draws_ok_1x1.
  - exact diag_solver_rev_total.
  - reflexivity.
  - reflexivity.
  - exists lat0, e0, o0. split; [exact Ei | exact E].
Defined.

(** ** The energy change of a single-cell move *)

Lemma big_sum_zero (n : nat) (f : Z -> R) :
  (forall i, (0 <= i < Z.of_nat n)%Z -> f i = 0) -> big_sum n f = 0.
Proof.
  intros H. rewrite (big_sum_ext n f (fun _ => 0)) by exact H.
  rewrite big_sum_const. ring.
Qed.

Lemma big_sum_single (n : nat) (f : Z -> R) (a : Z) :
  (0 <= a < Z.of_nat n)%Z ->
  (forall i, (0 <= i < Z.of_nat n)%Z -> i <> a -> f i = 0) ->
  big_sum n f = f a.
Proof.
  induction n as [| n IH]; intros Ha H; [lia |].
  cbn [big_sum]. destruct (Z.eq_dec a (Z.of_nat n)) as [-> | Hne].
  - rewrite big_sum_zero; [ring |]. intros i Hi. apply H; lia.
  - rewrite IH; [| lia | intros i Hi Hia; apply H; lia].
    rewrite (H (Z.of_nat n)) by lia. ring.
Qed.

(** A sum whose terms vanish away from two indices (possibly the same one,
    where the term then vanishes too). *)
Lemma big_sum_pair (n : nat) (f : Z -> R) (a b : Z) :
  (0 <= a < Z.of_nat n)%Z -> (0 <= b < Z.of_nat n)%Z ->
  (forall i, (0 <= i < Z.of_nat n)%Z -> i <> a -> i <> b -> f i = 0) ->
  (a = b -> f a = 0) ->
  big_sum n f = f a + f b.
Proof.
  intros Ha Hb H Hab. destruct (Z.eq_dec a b) as [-> | Hne].
  - rewrite (big_sum_single n f b Hb) by (intros i Hi Hib; apply H; assumption).
    rewrite (Hab eq_refl). ring.
  - revert Ha Hb H. induction n as [| n IH]; intros Ha Hb H; [lia |].
    cbn [big_sum].
    destruct (Z.eq_dec a (Z.of_nat n)) as [Ea | Hna];
      [| destruct (Z.eq_dec b (Z.of_nat n)) as [Eb | Hnb]].
    + rewrite (big_sum_single n f b) by
        (try lia; intros i Hi Hib; apply H; lia).
      rewrite Ea. ring.
    + rewrite (big_sum_single n f a) by
        (try lia; intros i Hi Hia; apply H; lia).
      rewrite Eb. ring.
    + rewrite IH by (try lia; intros i Hi Hia Hib; apply H; lia).
      rewrite (H (Z.of_nat n)) by lia. ring.
Qed.

Lemma mod_succ_pred (i p N : Z) :
  (0 < N)%Z -> (0 <= i < N)%Z -> ((i + 1) mod N = p)%Z -> (i = (p - 1) mod N)%Z.
Proof.
  intros HN Hi E. rewrite <- E, Zminus_mod_idemp_l.
  replace (i + 1 - 1)%Z with i by lia. symmetry. apply Z.mod_small. exact Hi.
Qed.

(** Two cells differ as soon as one of their coordinates does. *)
Lemma cell_neq (i j p q : Z) : i <> p \/ j <> q -> (i, j) <> (p, q).
Proof. intros [H | H] [= E1 E2]; contradiction. Qed.

(** The bonds along the first index: only the two bonds that end at the
    changed cell change. *)
Lemma bonds_x_change (arr : lattice) (N p q : Z) (v : R) :
  (0 < N)%Z -> shape2 arr (Z.to_nat N) (Z.to_nat N) ->
  (0 <= p < N)%Z -> (0 <= q < N)%Z ->
  let arr' := with_angle arr p q v in
  let d := fun i j =>
    pair_term (theta arr' i j - theta arr' ((i + 1) mod N)%Z j)
    - pair_term (theta arr i j - theta arr ((i + 1) mod N)%Z j) in
  sum2 (Z.to_nat N) d = d p q + d ((p - 1) mod N)%Z q.
Proof.
  intros HN Hs Hp Hq arr' d. unfold sum2.
  set (n := Z.to_nat N). assert (En : Z.of_nat n = N) by (unfold n; lia).
  pose proof (mod_range (p - 1) N HN) as Hpm.
  assert (Hoth : forall i j, (0 <= i)%Z -> (0 <= j)%Z -> (i <> p \/ j <> q) ->
            theta arr' i j = theta arr i j).
  { intros i j Hi Hj Hne.
    apply (theta_with_angle_other arr n n); try assumption; try lia.
    apply cell_neq. exact Hne. }
  rewrite (big_sum_ext n _ (fun i => d i q)).
  - apply (big_sum_pair n (fun i => d i q) p ((p - 1) mod N)%Z); try lia.
    + intros i Hi Hip Hipm. unfold d.
      pose proof (mod_range (i + 1) N HN) as Hr.
      assert (Hn : ((i + 1) mod N <> p)%Z)
        by (intros E; apply Hipm; apply mod_succ_pred; lia).
      rewrite (Hoth i q) by (try lia; left; exact Hip).
      rewrite (Hoth ((i + 1) mod N)%Z q) by (try lia; left; exact Hn).
      ring.
    + intros E. unfold d.
      assert (E1 : ((p + 1) mod N = p)%Z).
      { rewrite E at 1. apply mod_pred_succ; lia. }
      rewrite E1. replace (theta arr' p q - theta arr' p q) with 0 by ring.
      replace (theta arr p q - theta arr p q) with 0 by ring. ring.
  - intros i Hi. apply (big_sum_single n (fun j => d i j) q); [lia |].
    intros j Hj Hjq. unfold d. pose proof (mod_range (i + 1) N HN) as Hr.
    rewrite (Hoth i j) by (try lia; right; exact Hjq).
    rewrite (Hoth ((i + 1) mod N)%Z j) by (try lia; right; exact Hjq).
    ring.
Qed.

(** The bonds along the second index. *)
Lemma bonds_y_change (arr : lattice) (N p q : Z) (v : R) :
  (0 < N)%Z -> shape2 arr (Z.to_nat N) (Z.to_nat N) ->
  (0 <= p < N)%Z -> (0 <= q < N)%Z ->
  let arr' := with_angle arr p q v in
  let d := fun i j =>
    pair_term (theta arr' i j - theta arr' i ((j + 1) mod N)%Z)
    - pair_term (theta arr i j - theta arr i ((j + 1) mod N)%Z) in
  sum2 (Z.to_nat N) d = d p q + d p ((q - 1) mod N)%Z.
Proof.
  intros HN Hs Hp Hq arr' d. unfold sum2.
  set (n := Z.to_nat N). assert (En : Z.of_nat n = N) by (unfold n; lia).
  pose proof (mod_range (q - 1) N HN) as Hqm.
  assert (Hoth : forall i j, (0 <= i)%Z -> (0 <= j)%Z -> (i <> p \/ j <> q) ->
            theta arr' i j = theta arr i j).
  { intros i j Hi Hj Hne.
    apply (theta_with_angle_other arr n n); try assumption; try lia.
    apply cell_neq. exact Hne. }
  rewrite (big_sum_single n (fun i => big_sum n (fun j => d i j)) p).
  - apply (big_sum_pair n (fun j => d p j) q ((q - 1) mod N)%Z); try lia.
    + intros j Hj Hjq Hjqm. unfold d.
      pose proof (mod_range (j + 1) N HN) as Hr.
      assert (Hn : ((j + 1) mod N <> q)%Z)
        by (intros E; apply Hjqm; apply mod_succ_pred; lia).
      rewrite (Hoth p j) by (try lia; right; exact Hjq).
      rewrite (Hoth p ((j + 1) mod N)%Z) by (try lia; right; exact Hn).
      ring.
    + intros E. unfold d.
      assert (E1 : ((q + 1) mod N = q)%Z).
      { rewrite E at 1. apply mod_pred_succ; lia. }
      rewrite E1. replace (theta arr' p q - theta arr' p q) with 0 by ring.
      replace (theta arr p q - theta arr p q) with 0 by ring. ring.
  - lia.
  - intros i Hi Hip. apply big_sum_zero. intros j Hj. unfold d.
    pose proof (mod_range (j + 1) N HN) as Hr.
    rewrite (Hoth i j) by (try lia; left; exact Hip).
    rewrite (Hoth i ((j + 1) mod N)%Z) by (try lia; left; exact Hip).
    ring.
Qed.

Lemma cellEnergy_as_bonds (arr : lattice) (N p q : Z) :
  (0 < N)%Z -> (0 <= p < N)%Z -> (0 <= q < N)%Z ->
  cellEnergy arr N p q =
  pair_term (theta arr p q - theta arr ((p + 1) mod N)%Z q)
  + pair_term (theta arr ((p - 1) mod N)%Z q
               - theta arr (((p - 1) mod N + 1) mod N)%Z q)
  + pair_term (theta arr p q - theta arr p ((q + 1) mod N)%Z)
  + pair_term (theta arr p ((q - 1) mod N)%Z
               - theta arr p (((q - 1) mod N + 1) mod N)%Z).
Proof.
  intros HN Hp Hq. rewrite !mod_pred_succ by lia.
  unfold cellEnergy, neighbors, sum_list. cbn [map fold_right fst snd].
  rewrite (pair_term_swap (theta arr ((p - 1) mod N)%Z q)).
  rewrite (pair_term_swap (theta arr p ((q - 1) mod N)%Z)). ring.
Qed.

Lemma latticeEnergy_change (arr : lattice) (N p q : Z) (v : R) :
  (0 < N)%Z -> shape2 arr (Z.to_nat N) (Z.to_nat N) ->
  (0 <= p < N)%Z -> (0 <= q < N)%Z ->
  latticeEnergy (with_angle arr p q v) N - latticeEnergy arr N
  = 2 * (cellEnergy (with_angle arr p q v) N p q - cellEnergy arr N p q).
Proof.
  intros HN Hs Hp Hq.
  rewrite !latticeEnergy_bonds by assumption. unfold bond_energy.
  pose proof (bonds_x_change arr N p q v HN Hs Hp Hq) as Hx.
  pose proof (bonds_y_change arr N p q v HN Hs Hp Hq) as Hy.
  cbv zeta in Hx, Hy.
  rewrite !sum2_plus.
  rewrite (cellEnergy_as_bonds (with_angle arr p q v) N p q) by assumption.
  rewrite (cellEnergy_as_bonds arr N p q) by assumption.
  set (n := Z.to_nat N) in *.
  set (arr' := with_angle arr p q v) in *.
  set (fx' := fun i j => pair_term (theta arr' i j - theta arr' ((i + 1) mod N)%Z j)) in *.
  set (fx := fun i j => pair_term (theta arr i j - theta arr ((i + 1) mod N)%Z j)) in *.
  set (fy' := fun i j => pair_term (theta arr' i j - theta arr' i ((j + 1) mod N)%Z)) in *.
  set (fy := fun i j => pair_term (theta arr i j - theta arr i ((j + 1) mod N)%Z)) in *.
  assert (Ex : sum2 n fx' - sum2 n fx
               = sum2 n (fun i j => fx' i j - fx i j)).
  { rewrite (sum2_ext n (fun i j => fx' i j - fx i j)
               (fun i j => fx' i j + -1 * fx i j)) by (intros; ring).
    rewrite sum2_plus, sum2_scal. ring. }
  assert (Ey : sum2 n fy' - sum2 n fy
               = sum2 n (fun i j => fy' i j - fy i j)).
  { rewrite (sum2_ext n (fun i j => fy' i j - fy i j)
               (fun i j => fy' i j + -1 * fy i j)) by (intros; ring).
    rewrite sum2_plus, sum2_scal. ring. }
  change (sum2 n (fun i j => fx' i j - fx i j)
          = fx' p q - fx p q
            + (fx' ((p - 1) mod N)%Z q - fx ((p - 1) mod N)%Z q)) in Hx.
  change (sum2 n (fun i j => fy' i j - fy i j)
          = fy' p q - fy p q
            + (fy' p ((q - 1) mod N)%Z - fy p ((q - 1) mod N)%Z)) in Hy.
  rewrite Hx in Ex. rewrite Hy in Ey.
  change (2 * (sum2 n fx' + sum2 n fy') - 2 * (sum2 n fx + sum2 n fy)
          = 2 * (fx' p q + fx' ((p - 1) mod N)%Z q
                 + fy' p q + fy' p ((q - 1) mod N)%Z
                 - (fx p q + fx ((p - 1) mod N)%Z q
                    + fy p q + fy p ((q - 1) mod N)%Z))).
  lra.
Qed.

(** X18. Changing the angle of one cell of an N x N lattice changes the
    lattice energy returned by [all_energy] by exactly twice the change of
    that cell's energy returned by [one_energy]. *)
Theorem all_energy_single_cell_change (arr : lattice) (N p q : Z) (v : R) :
  (0 < N <= INT_MAX)%Z -> shape2 arr (Z.to_nat N) (Z.to_nat N) ->
  (0 <= p < N)%Z -> (0 <= q < N)%Z ->
  exists e e' c c',
    all_energy arr N = Some e /\
    all_energy (with_angle arr p q v) N = Some e' /\
    one_energy arr p q N = Some c /\
    one_energy (with_angle arr p q v) p q N = Some c' /\
    e' - e = 2 * (c' - c).
Proof.
  intros HN Hs Hp Hq.
  assert (Hs' : shape2 (with_angle arr p q v) (Z.to_nat N) (Z.to_nat N))
    by (apply shape2_with_angle; [assumption | lia]).
  exists (latticeEnergy arr N), (latticeEnergy (with_angle arr p q v) N),
    (cellEnergy arr N p q), (cellEnergy (with_angle arr p q v) N p q).
  split; [apply all_energy_value; assumption |].
  split; [apply all_energy_value; assumption |].
  split; [apply one_energy_value; assumption |].
  split; [apply one_energy_value; assumption |].
  apply latticeEnergy_change; try assumption. lia.
Qed.

(** The cell (0,0) of the aligned 2 x 2 lattice turned by 1 radian. *)
Lemma all_energy_single_cell_change_witness :
  exists e e' c c',
    all_energy lattice0 2 = Some e /\
    all_energy (with_angle lattice0 0 0 1) 2 = Some e' /\
    one_energy lattice0 0 0 2 = Some c /\
    one_energy (with_angle lattice0 0 0 1) 0 0 2 = Some c' /\
    e' - e = 2 * (c' - c).
Proof.
  apply (all_energy_single_cell_change lattice0 2 0 0 1).
  - exact INT_MAX_2.
  - exact shape2_lattice0.
  - lia.
  - lia.
Defined.
